(** * CDPedia: the sqlite index (src/armado/sqlite_index.py)

    A shallow embedding of the posting-list codec [DocSet], of the paged
    document store and of the build and query pipeline of [Index], with the
    properties the specification states about them. *)

From Stdlib Require Import String Ascii ZArith List Lia Bool.
From Stdlib Require Import Sorting.Permutation Sorting.Sorted.
Import ListNotations.
Open Scope Z_scope.

(** ** Python outcomes

    A call returns a value, raises an exception, or never returns. *)

Inductive error : Type :=
| ValueError
| IndexError
| OverflowError
| AttributeError
| TypeError
| IntegrityError.

Inductive outcome (A : Type) : Type :=
| Returns (a : A)
| Raises (e : error)
| Diverges.

Arguments Returns {A} a.
Arguments Raises {A} e.
Arguments Diverges {A}.

Definition bind {A B : Type} (m : outcome A) (k : A -> outcome B) : outcome B :=
  match m with
  | Returns a => k a
  | Raises e => Raises e
  | Diverges => Diverges
  end.

Notation "x <- m ;; k" := (bind m (fun x => k))
  (at level 61, m at next level, right associativity).
Notation "' p <- m ;; k" := (bind m (fun p => k))
  (at level 61, p pattern, m at next level, right associativity).

(** [PAGE_SIZE = 512] *)
Definition PAGE_SIZE : Z := 512.

(** A [bytes] object, and what [array.array('B', ...)] accepts. *)
Definition bytes : Type := list Z.

Definition is_byte (x : Z) : bool := (0 <=? x) && (x <=? 255).

(** [list.sort()] on a list whose order is given by [leb]. *)
Section Sort.
Context {A : Type} (leb : A -> A -> bool).

Fixpoint insert_sorted (x : A) (l : list A) : list A :=
  match l with
  | [] => [x]
  | y :: l' => if leb x y then x :: l else y :: insert_sorted x l'
  end.

Fixpoint sort (l : list A) : list A :=
  match l with
  | [] => []
  | x :: l' => insert_sorted x (sort l')
  end.
End Sort.

(** ** DocSet *)

Module DocSet.

(** [SEPARATOR = 0xFF] *)
Definition SEPARATOR : Z := 0xFF.

(** [_docs_list]: a [defaultdict(list)], docid to positions, in insertion
    order of the docids. *)
Definition t : Type := list (Z * list Z).

Definition empty : t := [].

(** [self._docs_list[docid].append(position)] *)
Fixpoint append (self : t) (docid position : Z) : t :=
  match self with
  | [] => [(docid, [position])]
  | (k, vs) :: rest =>
      if k =? docid then (k, vs ++ [position]) :: rest
      else (k, vs) :: append rest docid position
  end.

(** A run of [append] calls, as the loop of [decode] and the callers of
    the class make them. *)
Definition appends (self : t) (items : list (Z * Z)) : t :=
  fold_left (fun ds dp => append ds (fst dp) (snd dp)) items self.

(** [__len__]: the number of docids. *)
Definition len (self : t) : Z := Z.of_nat (length self).

(** [self._docs_list[docid]] read without inserting: the positions of a
    docid, none when it is not a key. *)
Fixpoint positions_of (self : t) (docid : Z) : list Z :=
  match self with
  | [] => []
  | (k, vs) :: rest => if k =? docid then vs else positions_of rest docid
  end.

Definition docids (self : t) : list Z := map fst self.

(** The [while True] loop of [delta_encode] on one difference; [None] when
    the fuel runs out before the [break]. *)
Fixpoint varint_loop (fuel : nat) (doc : Z) : option bytes :=
  match fuel with
  | O => None
  | S fuel' =>
      let b := Z.land doc 0x7F in
      let doc := Z.shiftr doc 7 in
      if doc =? 0 then Some [b]
      else option_map (cons (Z.lor b 0x80)) (varint_loop fuel' doc)
  end.

(** The loop run with fuel that suffices whenever it terminates at all
    ([varint_loop_adequate] below). *)
Definition varint (doc : Z) : outcome bytes :=
  match varint_loop (S (Z.to_nat (Z.log2 doc))) doc with
  | Some bs => Returns bs
  | None => Diverges
  end.

(** The [for doc in ordered] loop of [delta_encode], from [prev_doc]. *)
Fixpoint delta_encode_from (prev_doc : Z) (ordered : list Z) : outcome bytes :=
  match ordered with
  | [] => Returns []
  | doc :: rest =>
      bs <- varint (doc - prev_doc) ;;
      more <- delta_encode_from doc rest ;;
      Returns (bs ++ more)
  end.

Definition delta_encode (ordered : list Z) : outcome bytes :=
  delta_encode_from 0 ordered.

(** The state of the loop of [delta_decode]. *)
Record dstate : Type := DState {
  prev_doc : Z;
  doc : Z;
  shift : Z;
  result : list Z
}.

Definition delta_decode_step (s : dstate) (b : Z) : dstate :=
  let doc := Z.lor (doc s) (Z.shiftl (Z.land b 0x7F) (shift s)) in
  let shift := shift s + 7 in
  if Z.land b 0x80 =? 0 then
    let prev_doc := prev_doc s + doc in
    DState prev_doc 0 0 (result s ++ [prev_doc])
  else DState (prev_doc s) doc shift (result s).

Definition delta_decode (ordered : bytes) : list Z :=
  result (fold_left delta_decode_step ordered (DState 0 0 0 [])).

(** [docs_list.sort()] on [(docid, position)] tuples. *)
Definition pair_leb (a b : Z * Z) : bool :=
  (fst a <? fst b) || ((fst a =? fst b) && (snd a <=? snd b)).

(** [docs_list.extend((key, value) for value in values)] over the items. *)
Definition pairs (self : t) : list (Z * Z) :=
  flat_map (fun kv => map (pair (fst kv)) (snd kv)) self.

(** What [encode] returns and [decode] is given: a [str] or a [bytes]
    object. *)
Inductive encoding : Type :=
| Str (s : string)
| Bytes (bs : bytes).

(** [encode]. On the empty [DocSet] the source returns the empty [str]
    literal, on every other one a [bytes] object. The docids are encoded
    before the positions are checked. *)
Definition encode (self : t) : outcome encoding :=
  match self with
  | [] => Returns (Str EmptyString)
  | _ =>
      let docs_list := sort pair_leb (pairs self) in
      let docs := map fst docs_list in
      docs_enc <- delta_encode docs ;;
      let position := map snd docs_list in
      if existsb (fun x => SEPARATOR <=? x) position then Raises ValueError
      else
        let position := position ++ [SEPARATOR] in
        if forallb is_byte position then Returns (Bytes (position ++ docs_enc))
        else Raises OverflowError
  end.

(** [encoded.index(cls.SEPARATOR)] *)
Fixpoint index (x : Z) (l : bytes) : outcome nat :=
  match l with
  | [] => Raises ValueError
  | y :: l' => if y =? x then Returns O else i <- index x l' ;; Returns (S i)
  end.

(** [decode]. On a [str] of two characters or more, [index] refuses the
    integer it is asked for. *)
Definition decode (encoded : encoding) : outcome t :=
  match encoded with
  | Bytes encoded =>
      if (1 <? Z.of_nat (length encoded)) then
        limit <- index SEPARATOR encoded ;;
        let docsid := delta_decode (skipn (S limit) encoded) in
        let positions := firstn limit encoded in
        Returns (appends empty (combine docsid positions))
      else Returns empty
  | Str encoded =>
      if (1 <? Z.of_nat (String.length encoded)) then Raises TypeError
      else Returns empty
  end.

(** The lookup of a key that [dict.__eq__] makes in the other dict. *)
Fixpoint lookup (self : t) (docid : Z) : option (list Z) :=
  match self with
  | [] => None
  | (k, vs) :: rest => if k =? docid then Some vs else lookup rest docid
  end.

(** [__eq__]: the two dicts are equal when they have as many keys and every
    key of the one has the same list in the other, whatever the order the
    keys were inserted in. *)
Definition eq (self other : t) : bool :=
  (length self =? length other)%nat &&
  forallb (fun kv =>
             match lookup other (fst kv) with
             | Some vs => if list_eq_dec Z.eq_dec (snd kv) vs then true else false
             | None => false
             end) self.

End DocSet.

(** ** The document store and the index *)

(** A field of a document record, and the record: a Python list whose first
    field is the filename (or [None]), the second the title, the last the
    score appended by the build. *)
Inductive value : Type :=
| VNone
| VStr (s : string)
| VNum (n : Z).

Definition record : Type := list value.

(** One item of the build source: [(words, page_score, data)]. *)
Definition entry : Type := (list string * Z * record)%type.

(** What the module takes from outside: [str.upper] on one character,
    [to3dirs.get_path_file] and [os.path.join]. *)
Class Platform : Type := {
  upper : ascii -> string;
  get_path_file : string -> outcome (string * string);
  path_join : string -> string -> string
}.

(** [pickle.dumps] followed by [best_compressor.compress]: the block is kept
    as the value it unpickles to, both libraries being lossless. *)
Record blob : Type := Blob { unblob : list record }.

Definition compress_data (docs_data : list record) : blob := Blob docs_data.

(** [decompress_data] *)
Definition decompress_data (data : blob) : list record := unblob data.

(** The two tables of [create_database]. *)
Record docs_row : Type := DocsRow {
  pageid : Z;
  word_quants : bytes;
  data : blob
}.

(** The [docsets] column holds what the adapter returned, text or blob. *)
Record database : Type := Database {
  tokens : list (string * DocSet.encoding);
  docs : list docs_row
}.

Definition create_database : database := Database [] [].

(** An [int] that [sqlite3] binds to a statement is a signed 64-bit
    integer; any other makes [execute] raise [OverflowError]. *)
Definition sqlite_int (n : Z) : bool := (- 2 ^ 63 <=? n) && (n <? 2 ^ 63).

(** [INSERT INTO docs]: [pageid] is bound as an integer and is the primary
    key. *)
Definition insert_docs (db : database) (row : docs_row) : outcome database :=
  if negb (sqlite_int (pageid row)) then Raises OverflowError
  else if existsb (fun r => pageid r =? pageid row) (docs db)
  then Raises IntegrityError
  else Returns (Database (tokens db) (docs db ++ [row])).

(** [array.array("B")] filled with [append]. *)
Definition array_B (l : list Z) : outcome bytes :=
  if forallb is_byte l then Returns l else Raises OverflowError.

Fixpoint mapM {A B : Type} (f : A -> outcome B) (l : list A) : outcome (list B) :=
  match l with
  | [] => Returns []
  | x :: l' => y <- f x ;; ys <- mapM f l' ;; Returns (y :: ys)
  end.

(** [title.replace(" ", "_")] *)
Fixpoint replace_spaces (s : string) : string :=
  match s with
  | EmptyString => EmptyString
  | String c s' =>
      String (if Ascii.eqb c " " then "_"%char else c) (replace_spaces s')
  end.

Definition value_eqb (a b : value) : bool :=
  match a, b with
  | VNone, VNone => true
  | VStr s, VStr s' => String.eqb s s'
  | VNum n, VNum n' => n =? n'
  | _, _ => false
  end.

(** The class [SQLmany]: its state, and [append] and [finish] over the
    [persist] of the class at hand. *)
Record sqlmany (X : Type) : Type := SQLmany {
  count : Z;
  buffer : list X
}.

Arguments SQLmany {X} count buffer.
Arguments count {X} s.
Arguments buffer {X} s.

Section SQLmany.
Context {X : Type} (persist : sqlmany X -> database -> outcome database).

Definition sqlmany_append (self : sqlmany X) (db : database) (data : X)
  : outcome (sqlmany X * database * Z) :=
  let self := SQLmany (count self + 1) (buffer self ++ [data]) in
  '(self, db) <-
    (if count self mod PAGE_SIZE =? 0
     then db' <- persist self db ;; Returns (SQLmany (count self) [], db')
     else Returns (self, db)) ;;
  Returns (self, db, count self - 1).

Definition sqlmany_finish (self : sqlmany X) (db : database) : outcome database :=
  match buffer self with
  | [] => Returns db
  | _ => persist self db
  end.
End SQLmany.

(** [SQLmany.persist] on the tokens table: [executemany] adapts every
    [DocSet] with [encode]. *)
Definition tokens_persist (self : sqlmany (string * DocSet.t)) (db : database)
  : outcome database :=
  rows <- mapM (fun wd => enc <- DocSet.encode (snd wd) ;; Returns (fst wd, enc))
            (buffer self) ;;
  Returns (Database (tokens db ++ rows) (docs db)).

(** [Compressed.persist] *)
Definition compressed_persist (self : sqlmany (Z * record)) (db : database)
  : outcome database :=
  word_quants <- array_B (map fst (buffer self)) ;;
  let docs_data := map snd (buffer self) in
  let comp_data := compress_data docs_data in
  let page_id := (count self - 1) / PAGE_SIZE in
  insert_docs db (DocsRow page_id word_quants comp_data).

(** [idx_dict]: a [defaultdict(DocSet)] in insertion order of the words. *)
Definition idx_dict_t : Type := list (string * DocSet.t).

(** [idx_dict[word].append(docid, idx)] *)
Fixpoint idx_append (idx_dict : idx_dict_t) (word : string) (docid idx : Z)
  : idx_dict_t :=
  match idx_dict with
  | [] => [(word, DocSet.append DocSet.empty docid idx)]
  | (w, ds) :: rest =>
      if String.eqb w word then (w, DocSet.append ds docid idx) :: rest
      else (w, ds) :: idx_append rest word docid idx
  end.

(** [for idx, word in enumerate(words): idx_dict[word].append(docid, idx)] *)
Fixpoint add_words (idx_dict : idx_dict_t) (docid idx : Z) (words : list string)
  : idx_dict_t :=
  match words with
  | [] => idx_dict
  | word :: words' => add_words (idx_append idx_dict word docid idx) docid (idx + 1) words'
  end.

(** [ordered_source]: a [defaultdict(list)] from score to entries. *)
Definition ordered_source_t : Type := list (Z * list entry).

(** [ordered_source[page_score].append(value)] *)
Fixpoint ordered_append (ordered_source : ordered_source_t) (page_score : Z)
  (value : entry) : ordered_source_t :=
  match ordered_source with
  | [] => [(page_score, [value])]
  | (k, vs) :: rest =>
      if k =? page_score then (k, vs ++ [value]) :: rest
      else (k, vs) :: ordered_append rest page_score value
  end.

Fixpoint ordered_get (ordered_source : ordered_source_t) (score : Z) : list entry :=
  match ordered_source with
  | [] => []
  | (k, vs) :: rest => if k =? score then vs else ordered_get rest score
  end.

(** [gen_ordered] *)
Definition gen_ordered (ordered_source : ordered_source_t) : list entry :=
  flat_map (ordered_get ordered_source)
    (sort Z.geb (map fst ordered_source)).

Section Index.
Context {P : Platform}.

(** [to_filename] *)
Definition to_filename (title : value) : outcome string :=
  match title with
  | VStr title =>
      tt <- match replace_spaces title with
            | String c (String _ _ as rest) => Returns (upper c ++ rest)%string
            | String c EmptyString => Returns (upper c)
            | EmptyString => Raises ValueError
            end ;;
      '(dir3, arch) <- get_path_file tt ;;
      Returns (path_join dir3 arch)
  | _ => Raises AttributeError
  end.

(** The body of the loop of [order_source] up to [value]: the filename is
    marked [None] when it can be deduced from the title. *)
Definition normalize (data : record) : outcome record :=
  match data with
  | [] => Raises IndexError
  | [_] => Raises IndexError
  | filename :: (title :: _) as rest =>
      expected <- to_filename title ;;
      if value_eqb filename (VStr expected) then Returns (VNone :: rest)
      else Returns data
  end.

(** [order_source]: the buckets and [quant], the index of the last item. *)
Fixpoint order_source_from (ordered_source : ordered_source_t) (quant next : Z)
  (source : list entry) : outcome (ordered_source_t * Z) :=
  match source with
  | [] => Returns (ordered_source, quant)
  | (words, page_score, data) :: source' =>
      data <- normalize data ;;
      let value := (words, page_score, data) in
      order_source_from (ordered_append ordered_source page_score value)
        next (next + 1) source'
  end.

Definition order_source (source : list entry) : outcome (ordered_source_t * Z) :=
  order_source_from [] 0 0 source.

(** [add_docs_keys]: the loop, then [docs_table.finish()]. *)
Fixpoint add_docs_keys_loop (idx_dict : idx_dict_t)
  (docs_table : sqlmany (Z * record)) (db : database) (source : list entry)
  : outcome (idx_dict_t * sqlmany (Z * record) * database) :=
  match source with
  | [] => Returns (idx_dict, docs_table, db)
  | (words, page_score, data) :: source' =>
      let data := data ++ [VNum page_score] in
      '(docs_table, db, docid) <-
        sqlmany_append compressed_persist docs_table db
          (Z.of_nat (length words), data) ;;
      add_docs_keys_loop (add_words idx_dict docid 0 words) docs_table db source'
  end.

Definition add_docs_keys (source : list entry) (db : database)
  : outcome (idx_dict_t * database) :=
  '(idx_dict, docs_table, db) <- add_docs_keys_loop [] (SQLmany 0 []) db source ;;
  db <- sqlmany_finish compressed_persist docs_table db ;;
  Returns (idx_dict, db).

(** [add_tokens_to_db], with [dict_stats["Indexed"]] as its result. *)
Fixpoint add_tokens_loop (indexed : Z) (token_store : sqlmany (string * DocSet.t))
  (db : database) (items : idx_dict_t)
  : outcome (Z * sqlmany (string * DocSet.t) * database) :=
  match items with
  | [] => Returns (indexed, token_store, db)
  | (word, docs_list) :: items' =>
      let indexed := indexed + DocSet.len docs_list in
      '(token_store, db, _) <-
        sqlmany_append tokens_persist token_store db (word, docs_list) ;;
      add_tokens_loop indexed token_store db items'
  end.

Definition add_tokens_to_db (idx_dict : idx_dict_t) (db : database)
  : outcome (Z * database) :=
  '(indexed, token_store, db) <- add_tokens_loop 0 (SQLmany 0 []) db idx_dict ;;
  db <- sqlmany_finish tokens_persist token_store db ;;
  Returns (indexed, db).

(** [Index.create]: the database it writes and the value it returns.
    [create_indexes] changes no row of the tables. *)
Definition create (source : list entry) : outcome (database * Z) :=
  let database := create_database in
  '(ordered_source, quantity) <- order_source source ;;
  '(idx_dict, database) <- add_docs_keys (gen_ordered ordered_source) database ;;
  '(indexed, database) <- add_tokens_to_db idx_dict database ;;
  Returns (database, indexed).

(** *** The reader

    The connection is read-only; the state of an [Index] object is the
    cache of [_get_page], most recently used first, whose pages [get_doc]
    mutates in place. *)
Definition page : Type := list record.

Record reader : Type := Reader {
  db : database;
  page_cache : list (Z * option page)
}.

Definition open (db : database) : reader := Reader db [].

Definition CACHE_SIZE : nat := 1000.

(** [keys]: the query asks for the words alone, and the connection
    answers it from the index [idx_words] that [create_indexes] leaves, in
    the order of the words (binary collation). *)
Definition keys (self : reader) : list string :=
  sort String.leb (map fst (tokens (db self))).

(** The UTF-8 bytes of a text, character by character. *)
Fixpoint utf8 (s : string) : bytes :=
  match s with
  | EmptyString => []
  | String c s' =>
      let n := Z.of_nat (nat_of_ascii c) in
      (if n <? 128 then [n] else [192 + n / 64; 128 + n mod 64]) ++ utf8 s'
  end.

(** The bytes of a stored value, as the connection hands them to a
    converter. *)
Definition column_bytes (v : DocSet.encoding) : bytes :=
  match v with
  | DocSet.Str s => utf8 s
  | DocSet.Bytes bs => bs
  end.

(** [convert_docset], the converter [open_connection] registers. *)
Definition convert_docset (s : bytes) : outcome DocSet.t :=
  DocSet.decode (DocSet.Bytes s).

(** A [docsets] column read under the name ['ds [docset]']: the converter
    is called on the bytes of the value; a value of no byte comes back as
    [None] without the converter being called. *)
Definition read_docset (v : DocSet.encoding) : outcome (option DocSet.t) :=
  match column_bytes v with
  | [] => Returns None
  | s => ds <- convert_docset s ;; Returns (Some ds)
  end.

(** [items]: the rows of the table, every [docsets] column converted. *)
Definition items (self : reader) : outcome (list (string * option DocSet.t)) :=
  mapM (fun row => ds <- read_docset (snd row) ;; Returns (fst row, ds))
    (tokens (db self)).

(** [ORDER BY pageid] *)
Definition by_pageid (rows : list docs_row) : list docs_row :=
  sort (fun a b => pageid a <=? pageid b) rows.

(** [values] *)
Definition values (self : reader) : list record :=
  flat_map (fun row => decompress_data (data row)) (by_pageid (docs (db self))).

(** [__len__]; its one-slot cache holds a value that only depends on the
    read-only tables. *)
Definition len (self : reader) : outcome Z :=
  match sort (fun a b => pageid b <=? pageid a) (docs (db self)) with
  | [] => Raises TypeError
  | row :: _ =>
      let decomp_data := decompress_data (data row) in
      Returns (pageid row * PAGE_SIZE + Z.of_nat (length decomp_data))
  end.

(** [__contains__] *)
Definition contains (self : reader) (key : string) : bool :=
  existsb (fun row => String.eqb (fst row) key) (tokens (db self)).

(** The row [fetchone] finds for a page id, decompressed. *)
Definition select_page (db : database) (pageid' : Z) : option page :=
  match find (fun row => pageid row =? pageid') (docs db) with
  | Some row => Some (decompress_data (data row))
  | None => None
  end.

(** The body of [_get_page]: [execute] binds the page id. *)
Definition read_page (db : database) (pageid' : Z) : outcome (option page) :=
  if sqlite_int pageid' then Returns (select_page db pageid')
  else Raises OverflowError.

Fixpoint cache_find (pageid' : Z) (cache : list (Z * option page))
  : option (option page) :=
  match cache with
  | [] => None
  | (k, v) :: cache' => if k =? pageid' then Some v else cache_find pageid' cache'
  end.

Definition cache_remove (pageid' : Z) (cache : list (Z * option page))
  : list (Z * option page) :=
  filter (fun kv => negb (fst kv =? pageid')) cache.

(** [_get_page] under [lru_cache(1000)]: a call that raises leaves the
    cache as it was. *)
Definition _get_page (self : reader) (pageid' : Z)
  : reader * outcome (option page) :=
  match cache_find pageid' (page_cache self) with
  | Some hit =>
      (Reader (db self) ((pageid', hit) :: cache_remove pageid' (page_cache self)),
       Returns hit)
  | None =>
      match read_page (db self) pageid' with
      | Returns res =>
          (Reader (db self) (firstn CACHE_SIZE ((pageid', res) :: page_cache self)),
           Returns res)
      | Raises e => (self, Raises e)
      | Diverges => (self, Diverges)
      end
  end.

(** [row[0] = to_filename(row[1])] when [row[0] is None]. *)
Definition fill_filename (row : record) : outcome record :=
  match row with
  | [] => Raises IndexError
  | VNone :: rest =>
      match rest with
      | [] => Raises IndexError
      | title :: _ => filename <- to_filename title ;; Returns (VStr filename :: rest)
      end
  | _ => Returns row
  end.

(** [data[rel_position] = row] seen through the cache: the page object
    held by the cache is the one that was mutated. *)
Fixpoint list_set {A : Type} (l : list A) (n : nat) (x : A) : list A :=
  match l, n with
  | [], _ => []
  | _ :: l', O => x :: l'
  | y :: l', S n' => y :: list_set l' n' x
  end.

Definition cache_store (pageid' : Z) (data : page) (cache : list (Z * option page))
  : list (Z * option page) :=
  map (fun kv => if fst kv =? pageid' then (fst kv, Some data) else kv) cache.

(** [get_doc]: the reader after the call and the outcome of the call. *)
Definition get_doc (self : reader) (docid : Z) : reader * outcome (option record) :=
  let page_id := docid / PAGE_SIZE in
  let rel_position := docid mod PAGE_SIZE in
  let '(self, data) := _get_page self page_id in
  match data with
  | Raises e => (self, Raises e)
  | Diverges => (self, Diverges)
  | Returns None => (self, Returns None)
  | Returns (Some []) => (self, Returns None)
  | Returns (Some data) =>
      match nth_error data (Z.to_nat rel_position) with
      | None => (self, Raises IndexError)
      | Some row =>
          match fill_filename row with
          | Returns row =>
              (Reader (db self)
                 (cache_store page_id (list_set data (Z.to_nat rel_position) row)
                    (page_cache self)),
               Returns (Some row))
          | Raises e => (self, Raises e)
          | Diverges => (self, Diverges)
          end
      end
  end.

(** [random.randint(a, b)]: the results it draws from, each as likely as
    the others. *)
Definition randint (a b : Z) : outcome (list Z) :=
  if b <? a then Raises ValueError
  else Returns (map (fun i => a + Z.of_nat i) (seq 0 (Z.to_nat (b - a + 1)))).

(** [random]: the equally likely outcomes of the call, one per draw. *)
Definition random (self : reader) : outcome (list (Z * outcome (option record))) :=
  n <- len self ;;
  draws <- randint 0 (n - 1) ;;
  Returns (map (fun docid => (docid, snd (get_doc self docid))) draws).

End Index.

(** A platform to run the examples on: ASCII upper case, and a sharding
    that puts a page under the directory of its first character. *)
Definition ascii_upper (c : ascii) : string :=
  let n := nat_of_ascii c in
  String (if (97 <=? n)%nat && (n <=? 122)%nat then ascii_of_nat (n - 32) else c)
    EmptyString.

Definition sample_platform : Platform := {|
  upper := ascii_upper;
  get_path_file := fun s => Returns (substring 0 1 s, s);
  path_join := fun d f => (d ++ "/" ++ f)%string
|}.

(** The three documents of the end-to-end example. *)
Definition example_source : list entry :=
  [ (["cat"; "dog"]%string,  10, [VNone; VStr "Cat"]);
    (["dog"; "bird"]%string, 5,  [VNone; VStr "Dog"]);
    (["cat"]%string,         20, [VNone; VStr "Cat2"]) ].

(** ** Vocabulary of the statements *)

(** The successive differences [delta_encode] works on, from [prev]. *)
Fixpoint deltas_from (prev : Z) (seq : list Z) : list Z :=
  match seq with
  | [] => []
  | x :: seq' => (x - prev) :: deltas_from x seq'
  end.

(** Little-endian base 128: the number a chunk of bytes stands for, seven
    bits a byte, lowest first. *)
Fixpoint base128_value (chunk : bytes) : Z :=
  match chunk with
  | [] => 0
  | b :: chunk' => Z.land b 0x7F + 128 * base128_value chunk'
  end.

(** The continuation flag: the high bit is set on every byte but the last. *)
Fixpoint flagged (chunk : bytes) : Prop :=
  match chunk with
  | [] => False
  | [b] => 0 <= b < 128
  | b :: chunk' => 128 <= b < 256 /\ flagged chunk'
  end.

(** The order of [docs_list.sort()], and the sorted pairs [encode]
    serializes for a [DocSet] built by a run of appends. *)
Definition pair_le (a b : Z * Z) : Prop := DocSet.pair_leb a b = true.

Definition sorted_pairs (items : list (Z * Z)) : list (Z * Z) :=
  sort DocSet.pair_leb (DocSet.pairs (DocSet.appends DocSet.empty items)).

(** Document ids and positions are non-negative integers. *)
Definition natural_pairs (items : list (Z * Z)) : Prop :=
  Forall (fun dp => 0 <= fst dp /\ 0 <= snd dp) items.

(** [chunk] is the encoding of the difference [d]. *)
Definition base128 (d : Z) (chunk : bytes) : Prop :=
  flagged chunk /\ base128_value chunk = d /\ (d = 0 -> chunk = [0]).

(** What [add_docs_keys] hands to the document store for an entry. *)
Definition stored (e : entry) : Z * record :=
  let '(words, page_score, data) := e in
  (Z.of_nat (length words), data ++ [VNum page_score]).

(** The rows of the docs table for consecutive pages, from page id [k]. *)
Fixpoint rows_from (k : Z) (pages : list (list (Z * record))) : list docs_row :=
  match pages with
  | [] => []
  | pg :: pages' =>
      DocsRow k (map fst pg) (compress_data (map snd pg)) :: rows_from (k + 1) pages'
  end.

(** Pages as the store leaves them: full ones, then a last one that holds
    at least one record. *)
Fixpoint paginated (pages : list (list (Z * record))) : Prop :=
  match pages with
  | [] => True
  | [pg] => 0 < Z.of_nat (length pg) <= PAGE_SIZE
  | pg :: pages' => Z.of_nat (length pg) = PAGE_SIZE /\ paginated pages'
  end.

(** The document store in the middle of a build: the full pages written so
    far, whose ids were bound as integers, and the records still in the
    buffer. *)
Definition paged (pages : list (list (Z * record))) (buf : list (Z * record))
  (docs_table : sqlmany (Z * record)) (db : database) : Prop :=
  Forall (fun pg => Z.of_nat (length pg) = PAGE_SIZE) pages /\
  Z.of_nat (length buf) < PAGE_SIZE /\
  count docs_table = PAGE_SIZE * Z.of_nat (length pages) + Z.of_nat (length buf) /\
  buffer docs_table = buf /\
  docs db = rows_from 0 pages /\
  Z.of_nat (length pages) <= 2 ^ 63.

(** The posting lists after the documents of [source] got the consecutive
    ids from [docid] on. *)
Fixpoint index_words (idx_dict : idx_dict_t) (docid : Z) (source : list entry)
  : idx_dict_t :=
  match source with
  | [] => idx_dict
  | (words, _, _) :: source' =>
      index_words (add_words idx_dict docid 0 words) (docid + 1) source'
  end.

Section Vocabulary.
Context {P : Platform}.

(** An entry as [order_source] keeps it. *)
Definition normalize_entry (e : entry) : outcome entry :=
  let '(words, page_score, data) := e in
  data <- normalize data ;;
  Returns (words, page_score, data).

(** [ordered_source] filled with a run of kept entries. *)
Definition ordered_fill (ordered_source : ordered_source_t) (kept : list entry)
  : ordered_source_t :=
  fold_left (fun os e => ordered_append os (snd (fst e)) e) kept ordered_source.

(** The readers a program can hold on a database: a fresh one, and the
    ones [get_doc] leaves behind. *)
Inductive reachable (d : database) : reader -> Prop :=
| reach_open : reachable d (open d)
| reach_get_doc (self : reader) (docid : Z) :
    reachable d self -> reachable d (fst (get_doc self docid)).

(** A cached row is the stored row, or the stored row with its filename
    filled in. *)
Definition filled (row row' : record) : Prop :=
  row' = row \/ fill_filename row = Returns row'.

(** A cache entry is under a page id that was bound, and agrees with the
    table up to filled-in filenames. *)
Definition entry_ok (d : database) (kv : Z * option page) : Prop :=
  sqlite_int (fst kv) = true /\
  match select_page d (fst kv), snd kv with
  | None, None => True
  | Some pg, Some pg' => Forall2 filled pg pg'
  | _, _ => False
  end.

Definition coherent (d : database) (self : reader) : Prop :=
  db self = d /\ Forall (entry_ok d) (page_cache self).
End Vocabulary.

(** The sum of [len(docs_list)] over the items of [idx_dict]. *)
Definition total_len (idx_dict : idx_dict_t) : Z :=
  fold_right (fun wd acc => DocSet.len (snd wd) + acc) 0 idx_dict.

Section ReaderVocabulary.
Context {P : Platform}.

(** The outcome of [get_doc] read off the tables alone. *)
Definition get_doc_stored (d : database) (docid : Z) : outcome (option record) :=
  data <- read_page d (docid / PAGE_SIZE) ;;
  match data with
  | None => Returns None
  | Some [] => Returns None
  | Some data =>
      match nth_error data (Z.to_nat (docid mod PAGE_SIZE)) with
      | None => Raises IndexError
      | Some row => row <- fill_filename row ;; Returns (Some row)
      end
  end.
End ReaderVocabulary.

(** A source of [PAGE_SIZE + 1] documents, and the database built from it
    on the sample platform. *)
Definition boundary_source : list entry :=
  map (fun i => (["w"%string], Z.of_nat i, [VNone; VStr "T"]))
    (seq 0 (Z.to_nat (PAGE_SIZE + 1))).

Definition database_of (built : outcome (database * Z)) : database :=
  match built with
  | Returns (d, _) => d
  | _ => create_database
  end.

Definition boundary_db : database :=
  database_of (@create sample_platform boundary_source).

Definition example_db : database :=
  database_of (@create sample_platform example_source).

(** A document whose filename is the one its title gives, and one whose
    filename is its own. *)
Definition derived_source : list entry :=
  [ (["cat"]%string, 1, [VStr "C/Cat"; VStr "Cat"; VStr "payload"]);
    (["dog"]%string, 2, [VStr "elsewhere/Dog"; VStr "Dog"; VStr "payload"]) ].

Definition derived_db : database :=
  database_of (@create sample_platform derived_source).

(** An index of one document. *)
Definition single_source : list entry :=
  [ (["cat"]%string, 1, [VNone; VStr "Cat"]) ].

Definition single_db : database :=
  database_of (@create sample_platform single_source).

(** [idx_dict[word]] read without inserting. *)
Fixpoint idx_get (idx_dict : idx_dict_t) (word : string) : DocSet.t :=
  match idx_dict with
  | [] => DocSet.empty
  | (w, ds) :: rest => if String.eqb w word then ds else idx_get rest word
  end.

(** The words among [words] that are not in [seen] and come for the first
    time, counted in the order the build meets them. *)
Fixpoint new_words (seen words : list string) : Z :=
  match words with
  | [] => 0
  | w :: words' =>
      (if existsb (String.eqb w) seen then 0 else 1) + new_words (w :: seen) words'
  end.

(** The (word, document) pairs of a source, a word counting once for a
    document however often it occurs in its word list. *)
Definition pairs_indexed (source : list entry) : Z :=
  fold_right
    (fun e acc => Z.of_nat (length (nodup string_dec (fst (fst e)))) + acc) 0 source.

(** The word occurrences of a source: one for every position of every word
    list, as many as the build makes calls of [DocSet.append]. *)
Definition occurrences (source : list entry) : Z :=
  fold_right (fun e acc => Z.of_nat (length (fst (fst e))) + acc) 0 source.

(** A document whose title repeats a word. *)
Definition repeated_source : list entry :=
  [ (["rio"; "rio"]%string, 1, [VNone; VStr "Rio Rio"]) ].

(** ** Vocabulary of the further properties *)

(** The row [executemany] writes for an item of [idx_dict]: the adapter
    encodes the [DocSet]. *)
Definition encode_row (wd : string * DocSet.t)
  : outcome (string * DocSet.encoding) :=
  enc <- DocSet.encode (snd wd) ;; Returns (fst wd, enc).

(** The row [items] reads: the column goes through the converter. *)
Definition decode_row (row : string * DocSet.encoding)
  : outcome (string * option DocSet.t) :=
  ds <- read_docset (snd row) ;; Returns (fst row, ds).

(** The items of [idx_dict] as [items] hands them back. *)
Definition as_items (idx_dict : idx_dict_t) : list (string * option DocSet.t) :=
  map (fun wd => (fst wd, Some (snd wd))) idx_dict.

(** The positions of [word] in [words], counted from [idx]. *)
Fixpoint indices_from (idx : Z) (word : string) (words : list string) : list Z :=
  match words with
  | [] => []
  | w :: words' =>
      if String.eqb w word then idx :: indices_from (idx + 1) word words'
      else indices_from (idx + 1) word words'
  end.

(** A pair that was appended before the word at [idx] of document [docid]
    is reached. *)
Definition below (docid idx : Z) (dp : Z * Z) : Prop :=
  fst dp < docid \/ (fst dp = docid /\ snd dp < idx).

(** A posting list as the build has it when it reaches the word at [idx] of
    document [docid]: appended in ascending order of document and
    position, all positions below 255. *)
Definition built_docset (docid idx : Z) (ds : DocSet.t) : Prop :=
  exists items,
    ds = DocSet.appends DocSet.empty items /\
    items <> [] /\
    StronglySorted pair_le items /\
    Forall (fun dp => 0 <= fst dp /\ 0 <= snd dp < 255 /\ below docid idx dp) items.

(** * Properties *)

(** ** The delta codec *)

Lemma low7_of_flagged (b : Z) :
  0 <= b < 128 -> Z.land (Z.lor b 0x80) 0x7F = b.
Proof.
  intros Hb. rewrite Z.land_lor_distr_l.
  change (Z.land 0x80 0x7F) with 0. rewrite Z.lor_0_r.
  change 0x7F with (Z.ones 7). rewrite Z.land_ones by lia.
  apply Z.mod_small. lia.
Qed.

Lemma flag_of_flagged (b : Z) :
  0 <= b < 128 -> Z.land (Z.lor b 0x80) 0x80 = 0x80.
Proof.
  intros Hb. rewrite Z.land_lor_distr_l.
  change (Z.land 0x80 0x80) with 0x80.
  assert (Z.land b 0x80 = 0) as ->; [| reflexivity].
  apply Z.bits_inj'. intros n Hn. rewrite Z.land_spec, Z.bits_0.
  destruct (Z.eq_dec n 7) as [-> | Hne].
  - replace (Z.testbit b 7) with false; [reflexivity |].
    symmetry. apply Z.bits_above_log2; [lia |].
    destruct (Z.eq_dec b 0) as [-> | Hb0]; [reflexivity |].
    apply Z.log2_lt_pow2; lia.
  - replace (Z.testbit 0x80 n) with false; [apply andb_false_r |].
    change 0x80 with (2 ^ 7). symmetry. apply Z.pow2_bits_false. lia.
Qed.

Lemma low7_range (d : Z) : 0 <= Z.land d 0x7F < 128.
Proof.
  change 0x7F with (Z.ones 7). rewrite Z.land_ones by lia.
  apply Z.mod_pos_bound. reflexivity.
Qed.

Lemma low7_flag_clear (d : Z) : Z.land (Z.land d 0x7F) 0x80 = 0.
Proof.
  rewrite <- Z.land_assoc. change (Z.land 0x7F 0x80) with 0. apply Z.land_0_r.
Qed.

Lemma low7_idem (d : Z) : Z.land (Z.land d 0x7F) 0x7F = Z.land d 0x7F.
Proof.
  rewrite <- Z.land_assoc. reflexivity.
Qed.

(** Seven low bits and the rest, put back together at [sh]. *)
Lemma split7_shiftl (d sh : Z) :
  0 <= sh ->
  Z.lor (Z.shiftl (Z.land d 0x7F) sh) (Z.shiftl (Z.shiftr d 7) (sh + 7))
  = Z.shiftl d sh.
Proof.
  intros Hsh. apply Z.bits_inj'. intros n Hn.
  rewrite Z.lor_spec, !Z.shiftl_spec by lia.
  destruct (Z_lt_le_dec (n - sh) 0) as [Hneg | Hpos].
  - rewrite !Z.testbit_neg_r by lia. reflexivity.
  - rewrite Z.land_spec. change 0x7F with (Z.ones 7).
    destruct (Z_lt_le_dec (n - sh) 7) as [Hlow | Hhigh].
    + rewrite Z.ones_spec_low by lia.
      rewrite (Z.testbit_neg_r _ (n - (sh + 7))) by lia.
      rewrite andb_true_r, orb_false_r. reflexivity.
    + rewrite Z.ones_spec_high by lia.
      rewrite Z.shiftr_spec by lia.
      rewrite andb_false_r. simpl. f_equal. lia.
Qed.

Lemma split7_value (d : Z) : Z.land d 0x7F + 128 * Z.shiftr d 7 = d.
Proof.
  change 0x7F with (Z.ones 7). rewrite Z.land_ones by lia.
  rewrite Z.shiftr_div_pow2 by lia. change (2 ^ 7) with 128.
  pose proof (Z.div_mod d 128). lia.
Qed.

Lemma shiftr7_zero (d : Z) : Z.shiftr d 7 = 0 -> Z.land d 0x7F = d.
Proof.
  intros H. pose proof (split7_value d). lia.
Qed.

Module DocSetFacts.
Import DocSet.

Lemma varint_loop_S (fuel : nat) (d : Z) :
  varint_loop (S fuel) d
  = if Z.shiftr d 7 =? 0 then Some [Z.land d 0x7F]
    else option_map (cons (Z.lor (Z.land d 0x7F) 0x80))
           (varint_loop fuel (Z.shiftr d 7)).
Proof. reflexivity. Qed.

(** The loop stops exactly on the non-negative differences; more fuel
    changes nothing once it has stopped. *)
Lemma varint_loop_nonneg (fuel : nat) :
  forall d bs, varint_loop fuel d = Some bs -> 0 <= d.
Proof.
  induction fuel as [| fuel IH]; intros d bs H; simpl in H; [discriminate |].
  destruct (Z.shiftr d 7 =? 0) eqn:E.
  - apply Z.eqb_eq in E. pose proof (shiftr7_zero d E). pose proof (low7_range d). lia.
  - destruct (varint_loop fuel (Z.shiftr d 7)) as [bs' |] eqn:E'; [| discriminate].
    apply IH in E'. apply Z.shiftr_nonneg in E'. exact E'.
Qed.

Lemma varint_loop_negative (fuel : nat) (d : Z) :
  d < 0 -> varint_loop fuel d = None.
Proof.
  intros Hd. destruct (varint_loop fuel d) as [bs |] eqn:E; [| reflexivity].
  apply varint_loop_nonneg in E. lia.
Qed.

Lemma varint_loop_terminates (fuel : nat) :
  forall d, 0 <= d < 2 ^ Z.of_nat (S fuel) ->
            exists bs, varint_loop (S fuel) d = Some bs.
Proof.
  induction fuel as [| fuel IH]; intros d Hd.
  - simpl. replace (Z.shiftr d 7) with 0; [simpl; eauto |].
    rewrite Z.shiftr_div_pow2 by lia. symmetry. apply Z.div_small.
    change (2 ^ Z.of_nat 1) with 2 in Hd. change (2 ^ 7) with 128. lia.
  - rewrite varint_loop_S. destruct (Z.shiftr d 7 =? 0) eqn:E; [eauto |].
    destruct (IH (Z.shiftr d 7)) as [bs Hbs]; [| rewrite Hbs; simpl; eauto].
    rewrite Z.shiftr_div_pow2 by lia. change (2 ^ 7) with 128.
    rewrite Nat2Z.inj_succ, Z.pow_succ_r in Hd by lia.
    split; [apply Z.div_pos; lia |].
    apply Z.div_lt_upper_bound; lia.
Qed.

Lemma varint_loop_more_fuel (fuel : nat) :
  forall d bs, varint_loop fuel d = Some bs ->
               forall fuel', (fuel <= fuel')%nat -> varint_loop fuel' d = Some bs.
Proof.
  induction fuel as [| fuel IH]; intros d bs H fuel' Hle; [discriminate |].
  destruct fuel' as [| fuel']; [lia |].
  rewrite varint_loop_S in *. destruct (Z.shiftr d 7 =? 0); [exact H |].
  destruct (varint_loop fuel (Z.shiftr d 7)) as [bs' |] eqn:E; [| discriminate].
  rewrite (IH _ _ E fuel') by lia. exact H.
Qed.

Lemma varint_returns (d : Z) : 0 <= d -> exists bs, varint d = Returns bs.
Proof.
  intros Hd. unfold varint.
  destruct (varint_loop_terminates (Z.to_nat (Z.log2 d)) d) as [bs Hbs].
  - split; [exact Hd |].
    rewrite Nat2Z.inj_succ, Z2Nat.id by apply Z.log2_nonneg.
    destruct (Z.eq_dec d 0) as [-> | Hne]; [reflexivity |].
    apply Z.log2_spec. lia.
  - rewrite Hbs. eauto.
Qed.

(** The fuel of [varint] loses no result of the loop, so that [Diverges]
    stands for a loop that no amount of fuel brings to its [break]. *)
Lemma varint_loop_adequate (fuel : nat) (d : Z) (bs : bytes) :
  varint_loop fuel d = Some bs -> varint d = Returns bs.
Proof.
  intros H. pose proof (varint_loop_nonneg _ _ _ H) as Hd.
  destruct (varint_returns d Hd) as [bs' Hbs']. rewrite Hbs'.
  unfold varint in Hbs'.
  destruct (varint_loop (S (Z.to_nat (Z.log2 d))) d) as [bs'' |] eqn:E;
    [| discriminate].
  injection Hbs' as ->.
  pose proof (varint_loop_more_fuel _ _ _ H (max fuel (S (Z.to_nat (Z.log2 d))))
                (Nat.le_max_l _ _)) as H1.
  pose proof (varint_loop_more_fuel _ _ _ E (max fuel (S (Z.to_nat (Z.log2 d))))
                (Nat.le_max_r _ _)) as H2.
  congruence.
Qed.

Lemma varint_negative (d : Z) : d < 0 -> varint d = Diverges.
Proof.
  intros Hd. unfold varint. rewrite varint_loop_negative by exact Hd. reflexivity.
Qed.

Lemma varint_returns_loop (d : Z) (bs : bytes) :
  varint d = Returns bs -> exists fuel, varint_loop fuel d = Some bs.
Proof.
  unfold varint. intros H.
  destruct (varint_loop (S (Z.to_nat (Z.log2 d))) d) as [bs' |] eqn:E;
    [| discriminate].
  injection H as ->. eauto.
Qed.

(** What the loop emits is the difference in base 128, flagged. *)
Lemma varint_loop_base128 (fuel : nat) :
  forall d bs, varint_loop fuel d = Some bs -> base128 d bs.
Proof.
  induction fuel as [| fuel IH]; intros d bs H; [discriminate |].
  rewrite varint_loop_S in H. destruct (Z.shiftr d 7 =? 0) eqn:E.
  - apply Z.eqb_eq in E. injection H as <-.
    pose proof (shiftr7_zero d E) as Hd. pose proof (low7_range d) as Hr.
    unfold base128. cbn [flagged base128_value]. rewrite low7_idem.
    repeat split; try lia.
    intros ->. reflexivity.
  - apply Z.eqb_neq in E.
    destruct (varint_loop fuel (Z.shiftr d 7)) as [bs' |] eqn:E'; [| discriminate].
    injection H as <-. destruct (IH _ _ E') as (Hf & Hv & _).
    pose proof (low7_range d) as Hr.
    repeat split.
    + destruct bs' as [| b' bs']; [destruct Hf |].
      cbn [flagged]. split; [| exact Hf].
      assert (Z.lor (Z.land d 0x7F) 0x80 = Z.land d 0x7F + 128) as ->; [| lia].
      rewrite <- Z.lxor_lor by apply low7_flag_clear.
      rewrite <- Z.add_nocarry_lxor by apply low7_flag_clear. reflexivity.
    + cbn [base128_value]. rewrite low7_of_flagged by exact Hr.
      rewrite Hv. apply split7_value.
    + intros ->. exfalso. apply E. reflexivity.
Qed.

(** Decoding the bytes of one difference adds it to [prev_doc]. *)
Lemma varint_loop_decode (fuel : nat) :
  forall d bs, varint_loop fuel d = Some bs ->
  forall s, 0 <= shift s ->
    let v := prev_doc s + Z.lor (doc s) (Z.shiftl d (shift s)) in
    fold_left delta_decode_step bs s = DState v 0 0 (result s ++ [v]).
Proof.
  induction fuel as [| fuel IH]; intros d bs H s Hs; [discriminate |].
  rewrite varint_loop_S in H. destruct (Z.shiftr d 7 =? 0) eqn:E.
  - apply Z.eqb_eq in E. injection H as <-.
    cbn [fold_left]. unfold delta_decode_step.
    rewrite low7_flag_clear, low7_idem, (shiftr7_zero d E). reflexivity.
  - destruct (varint_loop fuel (Z.shiftr d 7)) as [bs' |] eqn:E'; [| discriminate].
    injection H as <-. pose proof (low7_range d) as Hr.
    cbn [fold_left]. unfold delta_decode_step at 2.
    rewrite flag_of_flagged, low7_of_flagged by exact Hr.
    change (0x80 =? 0) with false. cbv iota.
    rewrite (IH _ _ E') by (simpl; lia). cbn [prev_doc doc shift result].
    rewrite <- Z.lor_assoc, split7_shiftl by exact Hs. reflexivity.
Qed.
Lemma varint_decode (d : Z) (bs : bytes) (prev : Z) (res : list Z) :
  varint d = Returns bs ->
  fold_left delta_decode_step bs (DState prev 0 0 res)
  = DState (prev + d) 0 0 (res ++ [prev + d]).
Proof.
  intros H. destruct (varint_returns_loop _ _ H) as [fuel Hfuel].
  rewrite (varint_loop_decode _ _ _ Hfuel) by (simpl; lia).
  cbn [prev_doc doc shift result]. rewrite Z.shiftl_0_r, Z.lor_0_l. reflexivity.
Qed.

Lemma delta_round_trip_from (seq : list Z) :
  forall prev res, Sorted Z.le (prev :: seq) ->
  exists chunks,
    delta_encode_from prev seq = Returns (concat chunks) /\
    Forall2 base128 (deltas_from prev seq) chunks /\
    exists final,
      fold_left delta_decode_step (concat chunks) (DState prev 0 0 res)
      = DState final 0 0 (res ++ seq).
Proof.
  induction seq as [| x seq IH]; intros prev res Hs.
  - exists []. rewrite app_nil_r. repeat split; [constructor | exists prev; reflexivity].
  - inversion Hs as [| ? ? Hs' Hhd]; subst. inversion Hhd as [| ? ? Hle]; subst.
    destruct (varint_returns (x - prev)) as [bs Hbs]; [lia |].
    destruct (IH x (res ++ [x]) Hs') as (chunks & Henc & Hfmt & final & Hdec).
    exists (bs :: chunks). cbn [delta_encode_from deltas_from concat].
    rewrite Hbs, Henc. cbn [bind]. split; [reflexivity |]. split.
    + constructor; [| exact Hfmt].
      destruct (varint_returns_loop _ _ Hbs) as [fuel Hfuel].
      exact (varint_loop_base128 _ _ _ Hfuel).
    + exists final. rewrite fold_left_app, (varint_decode _ _ _ _ Hbs).
      replace (prev + (x - prev)) with x by lia. rewrite Hdec.
      rewrite <- app_assoc. reflexivity.
Qed.

Lemma sorted_from_zero (seq : list Z) :
  Forall (fun x => 0 <= x) seq -> Sorted Z.le seq -> Sorted Z.le (0 :: seq).
Proof.
  intros Hpos Hs. constructor; [exact Hs |].
  destruct seq as [| x seq]; constructor. inversion Hpos; assumption.
Qed.

(** The bytes of [delta_encode] are those of the differences, and they
    decode to the sequence. *)
Lemma delta_encode_decode (seq : list Z) :
  Forall (fun x => 0 <= x) seq -> Sorted Z.le seq ->
  exists bs, delta_encode seq = Returns bs /\ delta_decode bs = seq.
Proof.
  intros Hpos Hs.
  destruct (delta_round_trip_from seq 0 [] (sorted_from_zero _ Hpos Hs))
    as (chunks & Henc & _ & final & Hdec).
  exists (concat chunks). split; [exact Henc |].
  unfold delta_decode. rewrite Hdec. reflexivity.
Qed.
End DocSetFacts.

(** C7. For every non-decreasing sequence of non-negative integers,
    [delta_encode] returns the concatenation of one chunk of bytes per
    successive difference, each chunk the difference in little-endian base
    128 with the high bit as continuation flag, a difference of zero (a
    repeated value) being the single byte zero; and [delta_decode] of these
    bytes is the sequence. *)
Theorem delta_codec_round_trip (seq : list Z) :
  Forall (fun x => 0 <= x) seq ->
  Sorted Z.le seq ->
  exists chunks,
    DocSet.delta_encode seq = Returns (concat chunks) /\
    Forall2 base128 (deltas_from 0 seq) chunks /\
    DocSet.delta_decode (concat chunks) = seq.
Proof.
  intros Hpos Hs.
  destruct (DocSetFacts.delta_round_trip_from seq 0 []
              (DocSetFacts.sorted_from_zero _ Hpos Hs))
    as (chunks & Henc & Hfmt & final & Hdec).
  exists chunks. repeat split; [exact Henc | exact Hfmt |].
  unfold DocSet.delta_decode. rewrite Hdec. reflexivity.
Qed.

Lemma delta_codec_round_trip_witness :
  exists chunks,
    DocSet.delta_encode [3; 3; 303] = Returns (concat chunks) /\
    Forall2 base128 (deltas_from 0 [3; 3; 303]) chunks /\
    DocSet.delta_decode (concat chunks) = [3; 3; 303].
Proof.
  apply (delta_codec_round_trip [3; 3; 303]).
  - repeat constructor; lia.
  - repeat constructor; lia.
Defined.

(** C9. Encoding a [DocSet] nothing was appended to does not give a byte
    sequence: [encode] returns the empty [str], which is no [bytes] object,
    where every other [DocSet] it encodes gives a [bytes] object. Decoding
    no byte or one byte gives the empty [DocSet], and so does decoding that
    empty [str]. *)
Theorem encode_empty_docset_returns_str :
  DocSet.encode DocSet.empty = Returns (DocSet.Str EmptyString) /\
  DocSet.encode DocSet.empty <> Returns (DocSet.Bytes []) /\
  (forall self enc,
     self <> DocSet.empty -> DocSet.encode self = Returns enc ->
     exists bs, enc = DocSet.Bytes bs) /\
  DocSet.decode (DocSet.Bytes []) = Returns DocSet.empty /\
  (forall b, DocSet.decode (DocSet.Bytes [b]) = Returns DocSet.empty) /\
  DocSet.decode (DocSet.Str EmptyString) = Returns DocSet.empty.
Proof.
  split; [reflexivity |]. split; [discriminate |].
  split; [| repeat split].
  intros self enc Hne H. destruct self as [| kv self]; [exfalso; apply Hne; reflexivity |].
  unfold DocSet.encode in H.
  destruct (DocSet.delta_encode _) as [docs_enc | e |]; cbn [bind] in H;
    try discriminate.
  destruct (existsb _ _); [discriminate |].
  destruct (forallb _ _); [| discriminate].
  injection H as <-. eauto.
Qed.

(** ** Sorting *)

Section SortFacts.
Context {A : Type} (leb : A -> A -> bool).
Hypothesis leb_total : forall a b, leb a b = true \/ leb b a = true.
Hypothesis leb_trans : forall a b c, leb a b = true -> leb b c = true -> leb a c = true.

Let le (a b : A) : Prop := leb a b = true.

Lemma insert_sorted_perm (x : A) (l : list A) :
  Permutation (insert_sorted leb x l) (x :: l).
Proof.
  induction l as [| y l IH]; simpl; [reflexivity |].
  destruct (leb x y); [reflexivity |].
  rewrite IH. apply perm_swap.
Qed.

Lemma sort_perm (l : list A) : Permutation (sort leb l) l.
Proof.
  induction l as [| x l IH]; simpl; [reflexivity |].
  rewrite insert_sorted_perm. constructor. exact IH.
Qed.

Lemma insert_sorted_sorted (x : A) (l : list A) :
  StronglySorted le l -> StronglySorted le (insert_sorted leb x l).
Proof.
  induction 1 as [| y l Hs IH Hall]; simpl.
  - constructor; constructor.
  - destruct (leb x y) eqn:E.
    + constructor; [constructor; assumption |].
      constructor; [exact E |].
      eapply Forall_impl; [| exact Hall]. intros z Hz. exact (leb_trans _ _ _ E Hz).
    + constructor; [exact IH |].
      eapply Permutation_Forall; [symmetry; apply insert_sorted_perm |].
      constructor; [| exact Hall].
      destruct (leb_total x y) as [H | H]; [congruence | exact H].
Qed.

Lemma sort_sorted (l : list A) : StronglySorted le (sort leb l).
Proof.
  induction l as [| x l IH]; simpl; [constructor |].
  apply insert_sorted_sorted. exact IH.
Qed.
End SortFacts.

Lemma StronglySorted_map {A B : Type} (R : A -> A -> Prop) (Q : B -> B -> Prop)
  (f : A -> B) (l : list A) :
  (forall a b, R a b -> Q (f a) (f b)) ->
  StronglySorted R l -> StronglySorted Q (map f l).
Proof.
  intros Hf. induction 1 as [| x l Hs IH Hall]; simpl; constructor; [exact IH |].
  apply Forall_map. eapply Forall_impl; [| exact Hall]. intros; apply Hf; assumption.
Qed.

Lemma StronglySorted_filter {A : Type} (R : A -> A -> Prop) (f : A -> bool)
  (l : list A) :
  StronglySorted R l -> StronglySorted R (filter f l).
Proof.
  induction 1 as [| x l Hs IH Hall]; simpl; [constructor |].
  destruct (f x); [| exact IH].
  constructor; [exact IH |].
  apply Forall_forall. intros y Hy. apply filter_In in Hy.
  rewrite Forall_forall in Hall. apply Hall. tauto.
Qed.

(** ** The DocSet built by a run of appends *)

Module DocSetAppends.
Import DocSet.

Lemma pair_leb_total (a b : Z * Z) : pair_leb a b = true \/ pair_leb b a = true.
Proof.
  unfold pair_leb.
  destruct (Z.ltb_spec (fst a) (fst b)), (Z.ltb_spec (fst b) (fst a)),
    (Z.eqb_spec (fst a) (fst b)), (Z.eqb_spec (fst b) (fst a)),
    (Z.leb_spec (snd a) (snd b)), (Z.leb_spec (snd b) (snd a));
    simpl; auto; lia.
Qed.

Lemma pair_leb_trans (a b c : Z * Z) :
  pair_leb a b = true -> pair_leb b c = true -> pair_leb a c = true.
Proof.
  unfold pair_leb.
  destruct (Z.ltb_spec (fst a) (fst b)), (Z.ltb_spec (fst b) (fst c)),
    (Z.ltb_spec (fst a) (fst c)),
    (Z.eqb_spec (fst a) (fst b)), (Z.eqb_spec (fst b) (fst c)),
    (Z.eqb_spec (fst a) (fst c)),
    (Z.leb_spec (snd a) (snd b)), (Z.leb_spec (snd b) (snd c)),
    (Z.leb_spec (snd a) (snd c));
    simpl; auto; lia.
Qed.

Lemma pair_le_fst (a b : Z * Z) : pair_le a b -> fst a <= fst b.
Proof.
  unfold pair_le, pair_leb.
  destruct (Z.ltb_spec (fst a) (fst b)), (Z.eqb_spec (fst a) (fst b));
    simpl; intros; try discriminate; lia.
Qed.

Lemma pair_le_snd (a b : Z * Z) : fst a = fst b -> pair_le a b -> snd a <= snd b.
Proof.
  unfold pair_le, pair_leb. intros ->.
  rewrite Z.ltb_irrefl, Z.eqb_refl. simpl. apply Z.leb_le.
Qed.

Lemma sort_pairs_perm (l : list (Z * Z)) : Permutation (sort pair_leb l) l.
Proof. apply sort_perm. Qed.

Lemma sort_pairs_sorted (l : list (Z * Z)) : StronglySorted pair_le (sort pair_leb l).
Proof. apply sort_sorted; [apply pair_leb_total | apply pair_leb_trans]. Qed.

(** *** [append] on the three views of a DocSet *)

Lemma pairs_append (self : t) (d p : Z) :
  Permutation (pairs (append self d p)) (pairs self ++ [(d, p)]).
Proof.
  induction self as [| [k vs] rest IH]; [reflexivity |].
  cbn [append]. destruct (Z.eqb_spec k d) as [-> | Hne].
  - unfold pairs. cbn [flat_map fst snd].
    rewrite map_app. cbn [map]. rewrite <- !app_assoc.
    apply Permutation_app_head. cbn [app].
    apply Permutation_cons_append.
  - unfold pairs in *. cbn [flat_map fst snd]. rewrite <- app_assoc.
    apply Permutation_app_head. exact IH.
Qed.

Lemma pairs_appends (items : list (Z * Z)) :
  forall self, Permutation (pairs (appends self items)) (pairs self ++ items).
Proof.
  induction items as [| [d p] items IH]; intros self.
  - rewrite app_nil_r. reflexivity.
  - unfold appends in *. cbn [fold_left fst snd]. rewrite IH, pairs_append.
    rewrite <- app_assoc. reflexivity.
Qed.

Lemma positions_of_append (self : t) (d p d' : Z) :
  positions_of (append self d p) d'
  = if d =? d' then positions_of self d' ++ [p] else positions_of self d'.
Proof.
  induction self as [| [k vs] rest IH]; cbn [append positions_of].
  - destruct (d =? d'); reflexivity.
  - destruct (Z.eqb_spec k d) as [-> | Hne]; cbn [positions_of].
    + destruct (d =? d'); reflexivity.
    + rewrite IH. destruct (Z.eqb_spec k d'), (Z.eqb_spec d d'); try reflexivity.
      congruence.
Qed.

Lemma positions_of_appends (items : list (Z * Z)) (d' : Z) :
  forall self,
    positions_of (appends self items) d'
    = positions_of self d' ++ map snd (filter (fun dp => fst dp =? d') items).
Proof.
  induction items as [| [d p] items IH]; intros self.
  - rewrite app_nil_r. reflexivity.
  - unfold appends in *. cbn [fold_left filter fst snd].
    rewrite IH, positions_of_append.
    destruct (d =? d'); [rewrite <- app_assoc |]; reflexivity.
Qed.

Lemma docids_append (self : t) (d p : Z) :
  docids (append self d p)
  = if existsb (Z.eqb d) (docids self) then docids self else docids self ++ [d].
Proof.
  unfold docids. induction self as [| [k vs] rest IH]; [reflexivity |].
  cbn [append map fst existsb]. rewrite (Z.eqb_sym d k).
  destruct (k =? d); [reflexivity |]. cbn [map fst orb]. rewrite IH.
  destruct (existsb (Z.eqb d) (map fst rest)); reflexivity.
Qed.

Lemma in_docids_append (self : t) (d p k : Z) :
  In k (docids (append self d p)) <-> In k (docids self) \/ k = d.
Proof.
  rewrite docids_append. destruct (existsb (Z.eqb d) (docids self)) eqn:E.
  - split; [tauto |]. intros [H | ->]; [exact H |].
    apply existsb_exists in E as (y & Hy & Heq). apply Z.eqb_eq in Heq. congruence.
  - rewrite in_app_iff. simpl. intuition congruence.
Qed.

Lemma in_docids_appends (items : list (Z * Z)) (k : Z) :
  forall self,
    In k (docids (appends self items)) <-> In k (docids self) \/ In k (map fst items).
Proof.
  induction items as [| [d p] items IH]; intros self.
  - simpl. tauto.
  - unfold appends in *. cbn [fold_left map fst snd].
    rewrite IH, in_docids_append. simpl. intuition congruence.
Qed.

Lemma sorted_lt_snoc (l : list Z) (d : Z) :
  StronglySorted Z.lt l -> Forall (fun k => k < d) l -> StronglySorted Z.lt (l ++ [d]).
Proof.
  induction 1 as [| x l Hs IH Hall]; intros Hlt; simpl.
  - constructor; constructor.
  - inversion Hlt; subst. constructor; [apply IH; assumption |].
    apply Forall_app. split; [exact Hall | constructor; [assumption | constructor]].
Qed.

(** Appending pairs whose docids do not decrease keeps the docids in
    strictly ascending order. *)
Lemma docids_appends_sorted (items : list (Z * Z)) :
  forall self,
    StronglySorted Z.lt (docids self) ->
    StronglySorted Z.le (map fst items) ->
    Forall (fun d => Forall (fun k => k <= d) (docids self)) (map fst items) ->
    StronglySorted Z.lt (docids (appends self items)).
Proof.
  induction items as [| [d p] items IH]; intros self Hs Hitems Hbound; [exact Hs |].
  unfold appends in *. cbn [fold_left map fst snd] in *.
  inversion Hitems as [| ? ? Hitems' Hd]; subst.
  inversion Hbound as [| ? ? Hself Hbound']; subst.
  apply IH; [| exact Hitems' |].
  - rewrite docids_append. destruct (existsb (Z.eqb d) (docids self)) eqn:E;
      [exact Hs |].
    apply sorted_lt_snoc; [exact Hs |].
    rewrite Forall_forall in *. intros k Hk. specialize (Hself k Hk).
    assert (k <> d); [| lia]. intros ->.
    assert (existsb (Z.eqb d) (docids self) = true); [| congruence].
    apply existsb_exists. exists d. split; [exact Hk | apply Z.eqb_refl].
  - rewrite Forall_forall in *. intros d' Hd'. rewrite Forall_forall. intros k Hk.
    apply in_docids_append in Hk as [Hk | ->].
    + specialize (Hbound' d' Hd'). rewrite Forall_forall in Hbound'. auto.
    + auto.
Qed.

Lemma appends_nonempty (items : list (Z * Z)) (self : t) :
  items <> [] -> appends self items <> [].
Proof.
  intros H Hnil. destruct items as [| [d p] items]; [congruence |].
  assert (Hd : In d (docids (appends self ((d, p) :: items)))).
  { apply in_docids_appends. right. left. reflexivity. }
  rewrite Hnil in Hd. exact Hd.
Qed.
End DocSetAppends.

(** ** [encode] and [decode] *)

Module DocSetCodec.
Import DocSet DocSetFacts DocSetAppends.

Lemma sorted_pairs_perm (items : list (Z * Z)) :
  Permutation (sorted_pairs items) items.
Proof.
  unfold sorted_pairs. rewrite sort_pairs_perm, pairs_appends. reflexivity.
Qed.

Lemma sorted_pairs_docids (items : list (Z * Z)) :
  natural_pairs items ->
  Forall (fun x => 0 <= x) (map fst (sorted_pairs items)) /\
  Sorted Z.le (map fst (sorted_pairs items)).
Proof.
  intros Hnat. split.
  - apply Forall_map.
    eapply Permutation_Forall; [symmetry; apply sorted_pairs_perm |].
    eapply Forall_impl; [| exact Hnat]. simpl. tauto.
  - apply StronglySorted_Sorted.
    apply (StronglySorted_map pair_le); [apply pair_le_fst | apply sort_pairs_sorted].
Qed.

(** [encode] on a DocSet that holds something: the docids always encode,
    and the positions decide between the error and the bytes. *)
Lemma encode_appends (items : list (Z * Z)) :
  natural_pairs items -> items <> [] ->
  exists enc,
    delta_encode (map fst (sorted_pairs items)) = Returns enc /\
    delta_decode enc = map fst (sorted_pairs items) /\
    encode (appends empty items)
    = if existsb (fun x => SEPARATOR <=? x) (map snd (sorted_pairs items))
      then Raises ValueError
      else Returns (Bytes (map snd (sorted_pairs items) ++ [SEPARATOR] ++ enc)).
Proof.
  intros Hnat Hne.
  destruct (sorted_pairs_docids items Hnat) as [Hpos Hsorted].
  destruct (delta_encode_decode _ Hpos Hsorted) as (enc & Henc & Hdec).
  exists enc. repeat split; [exact Henc | exact Hdec |].
  unfold encode. pose proof (appends_nonempty items empty Hne) as Hds.
  destruct (appends empty items) as [| kv rest] eqn:E; [congruence |].
  rewrite <- E. fold (sorted_pairs items). rewrite Henc. cbn [bind].
  destruct (existsb _ (map snd (sorted_pairs items))) eqn:Ex; [reflexivity |].
  assert (Hbytes : forallb is_byte (map snd (sorted_pairs items) ++ [SEPARATOR]) = true).
  { rewrite forallb_app. apply andb_true_intro. split; [| reflexivity].
    apply forallb_forall. intros x Hx.
    assert (Hlt : (SEPARATOR <=? x) = false).
    { destruct (SEPARATOR <=? x) eqn:Hx'; [| reflexivity].
      assert (existsb (fun x => SEPARATOR <=? x) (map snd (sorted_pairs items)) = true);
        [| congruence].
      apply existsb_exists. eauto. }
    apply Z.leb_gt in Hlt. unfold SEPARATOR in Hlt.
    apply in_map_iff in Hx as (dp & <- & Hdp).
    apply (Permutation_in _ (sorted_pairs_perm items)) in Hdp.
    unfold natural_pairs in Hnat. rewrite Forall_forall in Hnat.
    destruct (Hnat dp Hdp) as [_ H0].
    unfold is_byte. apply andb_true_intro. split; [apply Z.leb_le | apply Z.leb_le]; lia. }
  rewrite Hbytes. rewrite <- app_assoc. reflexivity.
Qed.

Lemma index_separator (positions rest : bytes) :
  Forall (fun x => x < SEPARATOR) positions ->
  index SEPARATOR (positions ++ SEPARATOR :: rest) = Returns (length positions).
Proof.
  induction 1 as [| x positions Hx Hall IH]; cbn [app index length].
  - rewrite Z.eqb_refl. reflexivity.
  - destruct (Z.eqb_spec x SEPARATOR); [lia |]. rewrite IH. reflexivity.
Qed.

Lemma combine_fst_snd {A B : Type} (l : list (A * B)) :
  combine (map fst l) (map snd l) = l.
Proof.
  induction l as [| [a b] l IH]; simpl; [| rewrite IH]; reflexivity.
Qed.

(** [decode] of what [encode] emits rebuilds the DocSet from the sorted
    pairs. *)
Lemma decode_encoded (S : list (Z * Z)) (enc : bytes) :
  S <> [] ->
  Forall (fun x => x < SEPARATOR) (map snd S) ->
  delta_decode enc = map fst S ->
  decode (Bytes (map snd S ++ [SEPARATOR] ++ enc)) = Returns (appends empty S).
Proof.
  intros Hne Hlt Hdec. unfold decode.
  assert (Hlen : (1 <? Z.of_nat (length (map snd S ++ [SEPARATOR] ++ enc))) = true).
  { apply Z.ltb_lt. rewrite !length_app, length_map. cbn [length].
    destruct S; [congruence |]. cbn [length]. lia. }
  rewrite Hlen. cbn [app]. rewrite index_separator by exact Hlt. cbn [bind].
  replace (skipn (Datatypes.S (length (map snd S))) (map snd S ++ SEPARATOR :: enc))
    with enc.
  - rewrite firstn_app, firstn_all, Nat.sub_diag. cbn [firstn].
    rewrite app_nil_r, Hdec, combine_fst_snd. reflexivity.
  - change (SEPARATOR :: enc) with ([SEPARATOR] ++ enc). rewrite app_assoc.
    rewrite skipn_app.
    replace (Datatypes.S (length (map snd S))) with (length (map snd S ++ [SEPARATOR]))
      by (rewrite length_app; cbn [length]; lia).
    rewrite skipn_all, Nat.sub_diag. reflexivity.
Qed.
End DocSetCodec.

(** The codec on small inputs. *)
Example delta_encode_300 :
  DocSet.delta_encode [3; 3; 303] = Returns [3; 0; 172; 2].
Proof. reflexivity. Qed.

Example delta_decode_300 : DocSet.delta_decode [3; 0; 172; 2] = [3; 3; 303].
Proof. reflexivity. Qed.

Example encode_cat :
  DocSet.encode (DocSet.appends DocSet.empty [(1, 0); (0, 0)])
  = Returns (DocSet.Bytes [0; 0; 255; 0; 1]).
Proof. reflexivity. Qed.

Example decode_cat :
  DocSet.decode (DocSet.Bytes [0; 0; 255; 0; 1]) = Returns [(0, [0]); (1, [0])].
Proof. reflexivity. Qed.

Example decode_without_separator :
  DocSet.decode (DocSet.Bytes [1; 2; 3]) = Raises ValueError.
Proof. reflexivity. Qed.

(** C3. On a [DocSet] built by appends of non-negative docids and positions,
    [encode] raises the [ValueError] of the position limit as soon as one
    appended position is 255 or more, and returns, without raising, when
    every position is below 255. *)
Theorem encode_position_limit (items : list (Z * Z)) :
  natural_pairs items ->
  (Exists (fun dp => 255 <= snd dp) items ->
   DocSet.encode (DocSet.appends DocSet.empty items) = Raises ValueError) /\
  (Forall (fun dp => snd dp < 255) items ->
   exists bs, DocSet.encode (DocSet.appends DocSet.empty items) = Returns bs).
Proof.
  intros Hnat. split.
  - intros Hex.
    assert (Hne : items <> []) by (intros ->; inversion Hex).
    destruct (DocSetCodec.encode_appends items Hnat Hne) as (enc & _ & _ & ->).
    assert (Hbig : existsb (fun x => DocSet.SEPARATOR <=? x)
                     (map snd (sorted_pairs items)) = true);
      [| rewrite Hbig; reflexivity].
    apply Exists_exists in Hex as (dp & Hin & Hdp).
    apply existsb_exists. exists (snd dp). split.
    + apply in_map.
      apply (Permutation_in _ (Permutation_sym (DocSetCodec.sorted_pairs_perm items))).
      exact Hin.
    + apply Z.leb_le. exact Hdp.
  - intros Hall. destruct items as [| dp items]; [eexists; reflexivity |].
    destruct (DocSetCodec.encode_appends (dp :: items) Hnat) as (enc & _ & _ & ->);
      [discriminate |].
    destruct (existsb _ _) eqn:Hbig; [| eauto].
    apply existsb_exists in Hbig as (x & Hx & Hle). apply Z.leb_le in Hle.
    apply in_map_iff in Hx as (dp' & <- & Hin).
    apply (Permutation_in _ (DocSetCodec.sorted_pairs_perm _)) in Hin.
    rewrite Forall_forall in Hall. specialize (Hall dp' Hin).
    unfold DocSet.SEPARATOR in Hle. lia.
Qed.

Lemma encode_position_limit_witness :
  DocSet.encode (DocSet.appends DocSet.empty [(3, 255); (1, 0)]) = Raises ValueError /\
  exists bs, DocSet.encode (DocSet.appends DocSet.empty [(3, 254); (1, 0)]) = Returns bs.
Proof.
  split.
  - apply (encode_position_limit [(3, 255); (1, 0)]).
    + repeat constructor; simpl; lia.
    + left. simpl. lia.
  - apply (encode_position_limit [(3, 254); (1, 0)]).
    + repeat constructor; simpl; lia.
    + repeat constructor; simpl; lia.
Defined.

(** Outside the data model: a negative position passes the limit check and
    is refused by the byte array, and a negative docid keeps the loop of
    [delta_encode] from ever reaching its [break]. *)
Example encode_negative_position :
  DocSet.encode (DocSet.appends DocSet.empty [(0, -1)]) = Raises OverflowError.
Proof. reflexivity. Qed.

Example encode_negative_docid :
  DocSet.encode (DocSet.appends DocSet.empty [(-1, 0)]) = Diverges.
Proof. reflexivity. Qed.

(** C1. For every [DocSet] [x] built by appends of non-negative docids and
    positions, all positions below 255, [encode] returns a value that
    [decode] turns into a [DocSet] [y] with, for every docid, the positions
    of [x] as a multiset, in ascending order, and with the docids of [x], in
    strictly ascending order. *)
Theorem docset_round_trip (items : list (Z * Z)) :
  natural_pairs items ->
  Forall (fun dp => snd dp < 255) items ->
  let x := DocSet.appends DocSet.empty items in
  exists bs y,
    DocSet.encode x = Returns bs /\
    DocSet.decode bs = Returns y /\
    (forall d, Permutation (DocSet.positions_of y d) (DocSet.positions_of x d) /\
               Sorted Z.le (DocSet.positions_of y d)) /\
    Sorted Z.lt (DocSet.docids y) /\
    (forall d, In d (DocSet.docids y) <-> In d (DocSet.docids x)).
Proof.
  intros Hnat Hall x. subst x.
  destruct items as [| dp items].
  { exists (DocSet.Str EmptyString), DocSet.empty.
    repeat split; try constructor; auto. }
  set (items' := dp :: items) in *.
  assert (Hne : items' <> []) by discriminate.
  pose proof (DocSetCodec.sorted_pairs_perm items') as Hperm.
  set (S := sorted_pairs items') in *.
  assert (HS : StronglySorted pair_le S)
    by apply DocSetAppends.sort_pairs_sorted.
  assert (Hlt : Forall (fun x => x < DocSet.SEPARATOR) (map snd S)).
  { apply Forall_map.
    eapply Permutation_Forall; [symmetry; exact Hperm | exact Hall]. }
  destruct (DocSetCodec.encode_appends items' Hnat Hne) as (enc & _ & Hdec & Henc).
  fold S in Hdec, Henc.
  assert (Hsmall : existsb (fun x => DocSet.SEPARATOR <=? x) (map snd S) = false).
  { destruct (existsb _ _) eqn:Hbig; [| reflexivity].
    apply existsb_exists in Hbig as (p & Hp & Hle). apply Z.leb_le in Hle.
    rewrite Forall_forall in Hlt. specialize (Hlt p Hp). lia. }
  rewrite Hsmall in Henc.
  assert (HSne : S <> []).
  { intros HS0. rewrite HS0 in Hperm. apply Permutation_nil in Hperm. congruence. }
  exists (DocSet.Bytes (map snd S ++ [DocSet.SEPARATOR] ++ enc)),
    (DocSet.appends DocSet.empty S).
  split; [exact Henc |].
  split; [exact (DocSetCodec.decode_encoded S enc HSne Hlt Hdec) |].
  split; [| split].
  - intros d. rewrite !DocSetAppends.positions_of_appends. cbn [DocSet.positions_of app].
    split.
    + apply Permutation_map. clear -Hperm.
      induction Hperm; simpl;
        repeat match goal with |- context [fst ?a =? d] => destruct (fst a =? d) end;
        eauto using Permutation.
    + apply StronglySorted_Sorted.
      apply (StronglySorted_map (fun a b => pair_le a b /\ fst a = fst b)).
      { intros a b [Hab Heq]. apply DocSetAppends.pair_le_snd; assumption. }
      clear -HS. induction HS as [| a l Hl IH Ha]; simpl; [constructor |].
      destruct (Z.eqb_spec (fst a) d) as [Hd | Hd]; [| exact IH].
      constructor; [exact IH |].
      apply Forall_forall. intros b Hb. apply filter_In in Hb as [Hb Hbd].
      apply Z.eqb_eq in Hbd. rewrite Forall_forall in Ha. split; [auto | congruence].
  - apply StronglySorted_Sorted. apply DocSetAppends.docids_appends_sorted.
    + constructor.
    + apply (StronglySorted_map pair_le);
        [apply DocSetAppends.pair_le_fst | exact HS].
    + apply Forall_forall. intros; constructor.
  - intros d. rewrite !DocSetAppends.in_docids_appends.
    cbn [DocSet.docids DocSet.empty map In].
    split; (intros [[] | Hin]; right).
    + apply (Permutation_in _ (Permutation_map fst Hperm)). exact Hin.
    + apply (Permutation_in _ (Permutation_map fst (Permutation_sym Hperm))). exact Hin.
Qed.

Lemma docset_round_trip_witness :
  let x := DocSet.appends DocSet.empty [(7, 2); (1, 4); (7, 0); (1, 4)] in
  exists bs y,
    DocSet.encode x = Returns bs /\
    DocSet.decode bs = Returns y /\
    (forall d, Permutation (DocSet.positions_of y d) (DocSet.positions_of x d) /\
               Sorted Z.le (DocSet.positions_of y d)) /\
    Sorted Z.lt (DocSet.docids y) /\
    (forall d, In d (DocSet.docids y) <-> In d (DocSet.docids x)).
Proof.
  apply (docset_round_trip [(7, 2); (1, 4); (7, 0); (1, 4)]).
  - repeat constructor; simpl; lia.
  - repeat constructor; simpl; lia.
Defined.

Example round_trip_sorts :
  (x <- DocSet.encode (DocSet.appends DocSet.empty [(7, 2); (1, 4); (7, 0); (1, 4)]) ;;
   DocSet.decode x)
  = Returns [(1, [4; 4]); (7, [0; 2])].
Proof. reflexivity. Qed.

(** ** The document store during the build *)

Lemma bind_returns {A B : Type} (m : outcome A) (k : A -> outcome B) (b : B) :
  bind m k = Returns b -> exists a, m = Returns a /\ k a = Returns b.
Proof.
  destruct m; simpl; intros H; try discriminate. eauto.
Qed.

Ltac bind_inv H :=
  let a := fresh "a" in
  let Ha := fresh "Ha" in
  apply bind_returns in H as (a & Ha & H).

Lemma sqlite_int_spec (n : Z) : sqlite_int n = true <-> - 2 ^ 63 <= n < 2 ^ 63.
Proof.
  unfold sqlite_int. rewrite andb_true_iff, Z.leb_le, Z.ltb_lt. reflexivity.
Qed.

Lemma rows_from_app (pages pages' : list (list (Z * record))) :
  forall k, rows_from k (pages ++ pages')
            = rows_from k pages ++ rows_from (k + Z.of_nat (length pages)) pages'.
Proof.
  induction pages as [| pg pages IH]; intros k.
  - simpl. rewrite Z.add_0_r. reflexivity.
  - cbn [app rows_from length]. rewrite IH. do 3 f_equal. lia.
Qed.

Lemma paged_start (db : database) : docs db = [] -> paged [] [] (SQLmany 0 []) db.
Proof.
  intros H. unfold paged. rewrite H.
  refine (conj _ (conj _ (conj _ (conj _ (conj _ _))))); try reflexivity.
  - constructor.
  - cbn [length]. lia.
Qed.

(** [Compressed.append]: the record gets the next id, and a page is written
    when the buffer reaches [PAGE_SIZE]. *)
Lemma compressed_append_paged pages buf docs_table db item docs_table' db' docid :
  paged pages buf docs_table db ->
  sqlmany_append compressed_persist docs_table db item
  = Returns (docs_table', db', docid) ->
  docid = count docs_table /\
  count docs_table' = count docs_table + 1 /\
  tokens db' = tokens db /\
  exists pages' buf',
    paged pages' buf' docs_table' db' /\
    concat pages' ++ buf' = (concat pages ++ buf) ++ [item].
Proof.
  intros (Hfull & Hbuf & Hcount & Hbuffer & Hdocs & Hids) H.
  unfold sqlmany_append in H. cbn [count buffer] in H.
  destruct ((count docs_table + 1) mod PAGE_SIZE =? 0) eqn:Hmod.
  - apply Z.eqb_eq in Hmod. bind_inv H. destruct a as [t1 db1].
    bind_inv Ha. injection Ha as <- <-. injection H as <- <- <-.
    unfold compressed_persist in Ha0. cbn [count buffer] in Ha0.
    bind_inv Ha0. unfold array_B in Ha.
    destruct (forallb is_byte _); [| discriminate]. injection Ha as <-.
    unfold insert_docs in Ha0. cbn [pageid] in Ha0.
    destruct (sqlite_int _) eqn:Hint; cbn [negb] in Ha0; [| discriminate].
    apply sqlite_int_spec in Hint.
    destruct (existsb _ _); [discriminate |].
    injection Ha0 as <-. cbn [count tokens].
    assert (Hlen : Z.of_nat (length buf) = PAGE_SIZE - 1).
    { unfold PAGE_SIZE in *. rewrite Hcount in Hmod.
      pose proof (Nat2Z.is_nonneg (length buf)).
      pose proof (Nat2Z.is_nonneg (length pages)).
      Z.div_mod_to_equations. lia. }
    assert (Hid : (count docs_table + 1 - 1) / PAGE_SIZE = Z.of_nat (length pages)).
    { unfold PAGE_SIZE in *. rewrite Hcount.
      pose proof (Nat2Z.is_nonneg (length pages)).
      Z.div_mod_to_equations. lia. }
    rewrite Hid in Hint. rewrite Hid, Hbuffer.
    repeat split; [lia |].
    exists (pages ++ [buf ++ [item]]), []. split.
    + unfold paged. cbn [count buffer docs length].
      refine (conj _ (conj _ (conj _ (conj _ (conj _ _))))).
      * apply Forall_app. split; [exact Hfull |]. constructor; [| constructor].
        rewrite length_app. cbn [length]. lia.
      * unfold PAGE_SIZE. lia.
      * rewrite length_app. cbn [length]. unfold PAGE_SIZE in *. lia.
      * reflexivity.
      * rewrite rows_from_app, Hdocs. reflexivity.
      * rewrite length_app. cbn [length]. lia.
    + rewrite concat_app. cbn [concat]. rewrite !app_nil_r, app_assoc. reflexivity.
  - apply Z.eqb_neq in Hmod. cbn [bind] in H. injection H as <- <- <-.
    cbn [count]. repeat split; [lia |].
    exists pages, (buf ++ [item]). split.
    + unfold paged. cbn [count buffer]. rewrite length_app. cbn [length].
      refine (conj Hfull (conj _ (conj _ (conj _ (conj Hdocs Hids))))).
      * unfold PAGE_SIZE in *. rewrite Hcount in Hmod.
        pose proof (Nat2Z.is_nonneg (length buf)).
        pose proof (Nat2Z.is_nonneg (length pages)).
        Z.div_mod_to_equations. lia.
      * lia.
      * rewrite Hbuffer. reflexivity.
    + rewrite app_assoc. reflexivity.
Qed.

Lemma paginated_full (pages : list (list (Z * record))) :
  Forall (fun pg => Z.of_nat (length pg) = PAGE_SIZE) pages -> paginated pages.
Proof.
  induction 1 as [| pg pages Hpg Hall IH]; [exact I |].
  cbn [paginated]. destruct pages; [unfold PAGE_SIZE in *; lia | tauto].
Qed.

Lemma paginated_snoc (pages : list (list (Z * record))) (pg : list (Z * record)) :
  Forall (fun pg => Z.of_nat (length pg) = PAGE_SIZE) pages ->
  0 < Z.of_nat (length pg) <= PAGE_SIZE ->
  paginated (pages ++ [pg]).
Proof.
  induction 1 as [| pg' pages Hpg Hall IH]; intros Hlast; [exact Hlast |].
  specialize (IH Hlast). cbn [app paginated]. destruct (pages ++ [pg]) eqn:E.
  - destruct pages; discriminate.
  - split; [exact Hpg | exact IH].
Qed.

(** [finish]: what is left in the buffer becomes the last page. *)
Lemma compressed_finish_paged pages buf docs_table db db' :
  paged pages buf docs_table db ->
  sqlmany_finish compressed_persist docs_table db = Returns db' ->
  tokens db' = tokens db /\
  exists pages',
    docs db' = rows_from 0 pages' /\
    paginated pages' /\
    concat pages' = concat pages ++ buf /\
    Z.of_nat (length pages') <= 2 ^ 63.
Proof.
  intros (Hfull & Hbuf & Hcount & Hbuffer & Hdocs & Hids) H.
  unfold sqlmany_finish in H. rewrite Hbuffer in H.
  destruct buf as [| x buf].
  - injection H as <-. split; [reflexivity |].
    exists pages. rewrite app_nil_r. auto using paginated_full.
  - unfold compressed_persist in H. bind_inv H. unfold array_B in Ha.
    destruct (forallb is_byte _); [| discriminate]. injection Ha as <-.
    unfold insert_docs in H. cbn [pageid] in H.
    destruct (sqlite_int _) eqn:Hint; cbn [negb] in H; [| discriminate].
    apply sqlite_int_spec in Hint.
    destruct (existsb _ _); [discriminate |].
    injection H as <-. cbn [tokens docs]. split; [reflexivity |].
    exists (pages ++ [x :: buf]).
    assert (Hid : (count docs_table - 1) / PAGE_SIZE = Z.of_nat (length pages)).
    { unfold PAGE_SIZE in *. rewrite Hcount. cbn [length] in *.
      pose proof (Nat2Z.is_nonneg (length pages)).
      Z.div_mod_to_equations. lia. }
    rewrite Hid in Hint. rewrite Hid, Hbuffer, rows_from_app, Hdocs.
    refine (conj _ (conj _ (conj _ _))).
    + reflexivity.
    + apply paginated_snoc; [exact Hfull |]. cbn [length] in *. lia.
    + rewrite concat_app. cbn [concat]. rewrite app_nil_r. reflexivity.
    + rewrite length_app. cbn [length]. lia.
Qed.

Section BuildFacts.
Context {P : Platform}.

Lemma add_docs_keys_loop_paged (source : list entry) :
  forall idx_dict docs_table db idx_dict' docs_table' db' pages buf,
    paged pages buf docs_table db ->
    add_docs_keys_loop idx_dict docs_table db source
    = Returns (idx_dict', docs_table', db') ->
    idx_dict' = index_words idx_dict (count docs_table) source /\
    tokens db' = tokens db /\
    exists pages' buf',
      paged pages' buf' docs_table' db' /\
      concat pages' ++ buf' = (concat pages ++ buf) ++ map stored source.
Proof.
  induction source as [| [[words page_score] data] source IH];
    intros idx_dict docs_table db idx_dict' docs_table' db' pages buf Hpaged H.
  - injection H as <- <- <-. repeat split.
    exists pages, buf. rewrite app_nil_r. auto.
  - cbn [add_docs_keys_loop] in H. bind_inv H. destruct a as [[t1 db1] docid].
    destruct (compressed_append_paged _ _ _ _ _ _ _ _ Hpaged Ha)
      as (-> & Hcount & Htok & pages1 & buf1 & Hpaged1 & Hcat1).
    destruct (IH _ _ _ _ _ _ _ _ Hpaged1 H)
      as (-> & Htok' & pages' & buf' & Hpaged' & Hcat').
    cbn [index_words]. rewrite Hcount. repeat split; [congruence |].
    exists pages', buf'. split; [exact Hpaged' |].
    rewrite Hcat', Hcat1. cbn [map stored]. rewrite <- !app_assoc. reflexivity.
Qed.

(** [add_docs_keys]: the documents are stored page by page in the order
    of the source, and indexed under consecutive ids from 0. *)
Lemma add_docs_keys_spec (source : list entry) (db : database)
  (idx_dict : idx_dict_t) (db' : database) :
  docs db = [] ->
  add_docs_keys source db = Returns (idx_dict, db') ->
  idx_dict = index_words [] 0 source /\
  tokens db' = tokens db /\
  exists pages,
    docs db' = rows_from 0 pages /\
    paginated pages /\
    concat pages = map stored source /\
    Z.of_nat (length pages) <= 2 ^ 63.
Proof.
  intros Hdb H. unfold add_docs_keys in H. bind_inv H.
  destruct a as [[idx t1] db1]. bind_inv H. injection H as <- <-.
  destruct (add_docs_keys_loop_paged _ _ _ _ _ _ _ _ _ (paged_start db Hdb) Ha)
    as (-> & Htok & pages1 & buf1 & Hpaged1 & Hcat1).
  destruct (compressed_finish_paged _ _ _ _ _ Hpaged1 Ha0)
    as (Htok' & pages' & Hdocs & Hpag & Hcat & Hids).
  cbn [count]. repeat split; [congruence |].
  exists pages'. refine (conj Hdocs (conj Hpag (conj _ Hids))).
  rewrite Hcat, Hcat1. reflexivity.
Qed.
End BuildFacts.

(** ** The order pass *)

Section OrderFacts.
Context {P : Platform}.

Lemma order_source_from_fill (source : list entry) :
  forall os quant next os' quant',
    order_source_from os quant next source = Returns (os', quant') ->
    exists kept,
      mapM normalize_entry source = Returns kept /\
      os' = ordered_fill os kept.
Proof.
  induction source as [| [[words page_score] data] source IH];
    intros os quant next os' quant' H.
  - injection H as <- <-. exists []. split; reflexivity.
  - cbn [order_source_from] in H. bind_inv H.
    destruct (IH _ _ _ _ _ H) as (kept & Hkept & ->).
    exists ((words, page_score, a) :: kept). split; [| reflexivity].
    cbn [mapM normalize_entry]. rewrite Ha. cbn [bind]. rewrite Hkept. reflexivity.
Qed.

Lemma ordered_append_buckets (os : ordered_source_t) (k : Z) (v : entry) :
  Permutation (flat_map snd (ordered_append os k v)) (flat_map snd os ++ [v]).
Proof.
  induction os as [| [k' vs] os IH]; [reflexivity |].
  cbn [ordered_append]. destruct (k' =? k); cbn [flat_map snd].
  - rewrite <- !app_assoc. apply Permutation_app_head.
    cbn [app]. apply Permutation_cons_append.
  - rewrite <- app_assoc. apply Permutation_app_head. exact IH.
Qed.

Lemma ordered_append_keys (os : ordered_source_t) (k : Z) (v : entry) :
  map fst (ordered_append os k v)
  = if existsb (Z.eqb k) (map fst os) then map fst os else map fst os ++ [k].
Proof.
  induction os as [| [k' vs] os IH]; [reflexivity |].
  cbn [ordered_append map fst existsb]. rewrite (Z.eqb_sym k k').
  destruct (k' =? k); [reflexivity |]. cbn [map fst orb]. rewrite IH.
  destruct (existsb (Z.eqb k) (map fst os)); reflexivity.
Qed.

Lemma ordered_append_nodup (os : ordered_source_t) (k : Z) (v : entry) :
  NoDup (map fst os) -> NoDup (map fst (ordered_append os k v)).
Proof.
  intros Hnd. rewrite ordered_append_keys.
  destruct (existsb (Z.eqb k) (map fst os)) eqn:E; [exact Hnd |].
  apply NoDup_app; [exact Hnd | repeat constructor; simpl; tauto |].
  intros x Hx [<- | []].
  assert (existsb (Z.eqb k) (map fst os) = true); [| congruence].
  apply existsb_exists. exists k. split; [exact Hx | apply Z.eqb_refl].
Qed.

Lemma ordered_fill_buckets (kept : list entry) :
  forall os,
    NoDup (map fst os) ->
    NoDup (map fst (ordered_fill os kept)) /\
    Permutation (flat_map snd (ordered_fill os kept)) (flat_map snd os ++ kept).
Proof.
  induction kept as [| e kept IH]; intros os Hnd.
  - rewrite app_nil_r. split; [exact Hnd | reflexivity].
  - unfold ordered_fill in *. cbn [fold_left].
    destruct (IH _ (ordered_append_nodup os (snd (fst e)) e Hnd)) as [Hnd' Hperm].
    split; [exact Hnd' |].
    rewrite Hperm, ordered_append_buckets, <- app_assoc. reflexivity.
Qed.

Lemma ordered_get_keys (os : ordered_source_t) :
  NoDup (map fst os) ->
  forall os', (forall k, In k (map fst os) -> ordered_get os' k = ordered_get os k) ->
  flat_map (ordered_get os') (map fst os) = flat_map snd os.
Proof.
  induction os as [| [k vs] os IH]; intros Hnd os' Hsame; [reflexivity |].
  cbn [map fst] in Hnd. inversion Hnd as [| ? ? Hk Hnd']; subst.
  cbn [map fst flat_map snd]. f_equal.
  - rewrite Hsame by (left; reflexivity). cbn [ordered_get].
    rewrite Z.eqb_refl. reflexivity.
  - apply IH; [exact Hnd' |]. intros k' Hk'.
    rewrite Hsame by (right; exact Hk'). cbn [ordered_get].
    destruct (Z.eqb_spec k k'); [congruence | reflexivity].
Qed.

Lemma gen_ordered_perm (os : ordered_source_t) :
  NoDup (map fst os) -> Permutation (gen_ordered os) (flat_map snd os).
Proof.
  intros Hnd. unfold gen_ordered.
  rewrite (sort_perm Z.geb (map fst os)).
  rewrite (ordered_get_keys os Hnd os); [reflexivity | auto].
Qed.

(** [order_source] then [gen_ordered]: every entry of the source comes
    out once, kept as [normalize] leaves it. *)
Lemma order_source_emits (source : list entry) (os : ordered_source_t) (quant : Z) :
  order_source source = Returns (os, quant) ->
  exists kept,
    mapM normalize_entry source = Returns kept /\
    Permutation (gen_ordered os) kept.
Proof.
  intros H. unfold order_source in H.
  destruct (order_source_from_fill _ _ _ _ _ _ H) as (kept & Hkept & ->).
  exists kept. split; [exact Hkept |].
  destruct (ordered_fill_buckets kept [] (NoDup_nil _)) as [Hnd Hperm].
  rewrite (gen_ordered_perm _ Hnd). exact Hperm.
Qed.

Lemma mapM_length {A B : Type} (f : A -> outcome B) (l : list A) :
  forall l', mapM f l = Returns l' -> length l' = length l.
Proof.
  induction l as [| x l IH]; intros l' H.
  - injection H as <-. reflexivity.
  - cbn [mapM] in H. bind_inv H. bind_inv H. injection H as <-.
    cbn [length]. f_equal. apply IH. exact Ha0.
Qed.

Lemma mapM_in {A B : Type} (f : A -> outcome B) (l : list A) :
  forall l', mapM f l = Returns l' ->
  (forall x, In x l -> exists y, f x = Returns y /\ In y l') /\
  (forall y, In y l' -> exists x, f x = Returns y /\ In x l).
Proof.
  induction l as [| x l IH]; intros l' H.
  - injection H as <-. split; intros ? [].
  - cbn [mapM] in H. bind_inv H. bind_inv H. injection H as <-.
    destruct (IH _ Ha0) as [IH1 IH2]. split.
    + intros x' [<- | Hx']; [exists a; split; [exact Ha | left; reflexivity] |].
      destruct (IH1 x' Hx') as (y & Hy & Hin). exists y. split; [exact Hy | right; exact Hin].
    + intros y [<- | Hy]; [exists x; split; [exact Ha | left; reflexivity] |].
      destruct (IH2 y Hy) as (x' & Hx' & Hin). exists x'. split; [exact Hx' | right; exact Hin].
Qed.
End OrderFacts.

(** ** The tokens table and the whole build *)

Lemma tokens_persist_docs (self : sqlmany (string * DocSet.t)) (db db' : database) :
  tokens_persist self db = Returns db' -> docs db' = docs db.
Proof.
  unfold tokens_persist. intros H. bind_inv H. injection H as <-. reflexivity.
Qed.

Lemma tokens_append_docs self db item self' db' docid :
  sqlmany_append tokens_persist self db item = Returns (self', db', docid) ->
  docs db' = docs db.
Proof.
  unfold sqlmany_append. intros H. bind_inv H. destruct a as [t1 db1].
  injection H as <- <- <-.
  destruct (_ =? 0).
  - bind_inv Ha. injection Ha as <- <-. eapply tokens_persist_docs; eassumption.
  - injection Ha as <- <-. reflexivity.
Qed.

Section CreateFacts.
Context {P : Platform}.

Lemma add_tokens_loop_spec (items : idx_dict_t) :
  forall indexed token_store db indexed' token_store' db',
    add_tokens_loop indexed token_store db items
    = Returns (indexed', token_store', db') ->
    indexed' = indexed + total_len items /\ docs db' = docs db.
Proof.
  induction items as [| [word docs_list] items IH];
    intros indexed token_store db indexed' token_store' db' H.
  - injection H as <- <- <-. cbn. split; [lia | reflexivity].
  - cbn [add_tokens_loop] in H. bind_inv H. destruct a as [[t1 db1] docid].
    destruct (IH _ _ _ _ _ _ H) as [-> Hdocs].
    rewrite Hdocs, (tokens_append_docs _ _ _ _ _ _ Ha).
    cbn [total_len fold_right snd]. split; [| reflexivity].
    fold (total_len items). lia.
Qed.

Lemma add_tokens_to_db_spec (idx_dict : idx_dict_t) (db : database)
  (indexed : Z) (db' : database) :
  add_tokens_to_db idx_dict db = Returns (indexed, db') ->
  indexed = total_len idx_dict /\ docs db' = docs db.
Proof.
  unfold add_tokens_to_db. intros H. bind_inv H. destruct a as [[n t1] db1].
  bind_inv H. injection H as <- <-.
  destruct (add_tokens_loop_spec _ _ _ _ _ _ _ Ha) as [-> Hdocs].
  split; [lia |]. rewrite <- Hdocs.
  unfold sqlmany_finish in Ha0. destruct (buffer t1).
  - injection Ha0 as <-. reflexivity.
  - eapply tokens_persist_docs; eassumption.
Qed.

(** The build, stage by stage: the entries kept by the order pass come
    out in some order, are stored page by page in that order, and the
    value returned is the sum of the lengths of the posting lists. *)
Lemma create_spec (source : list entry) (d : database) (indexed : Z) :
  create source = Returns (d, indexed) ->
  exists kept emitted pages,
    mapM normalize_entry source = Returns kept /\
    Permutation emitted kept /\
    docs d = rows_from 0 pages /\
    paginated pages /\
    concat pages = map stored emitted /\
    indexed = total_len (index_words [] 0 emitted) /\
    Z.of_nat (length pages) <= 2 ^ 63.
Proof.
  unfold create. intros H. bind_inv H. destruct a as [os quantity].
  bind_inv H. destruct a as [idx_dict db1]. bind_inv H. destruct a as [n db2].
  injection H as <- <-.
  destruct (order_source_emits _ _ _ Ha) as (kept & Hkept & Hperm).
  destruct (add_docs_keys_spec _ create_database _ _ eq_refl Ha0) as (-> & _ & pages & Hdocs & Hpag & Hcat & Hids).
  destruct (add_tokens_to_db_spec _ _ _ _ Ha1) as [-> Hdocs'].
  exists kept, (gen_ordered os), pages. rewrite Hdocs'. auto 10.
Qed.
End CreateFacts.

(** ** The reader and its cache *)

Lemma Forall2_nth_error {A B : Type} (R : A -> B -> Prop) (l : list A) (l' : list B) :
  Forall2 R l l' ->
  forall n,
    match nth_error l n, nth_error l' n with
    | Some a, Some b => R a b
    | None, None => True
    | _, _ => False
    end.
Proof.
  induction 1 as [| a b l l' Hab Hall IH]; intros [| n]; simpl; auto.
  apply IH.
Qed.

Section ReaderFacts.
Context {P : Platform}.

Lemma Forall2_list_set {A B : Type} (R : A -> B -> Prop) (l : list A) (l' : list B) :
  Forall2 R l l' ->
  forall n a b, nth_error l n = Some a -> R a b -> Forall2 R l (list_set l' n b).
Proof.
  induction 1 as [| a0 b0 l l' Hab Hall IH]; intros [| n] a b Hn Hr;
    simpl in *; try discriminate.
  - injection Hn as ->. constructor; assumption.
  - constructor; [assumption | eapply IH; eassumption].
Qed.

Lemma filled_fill (row row' : record) :
  filled row row' -> fill_filename row' = fill_filename row.
Proof.
  intros [-> | H]; [reflexivity |].
  destruct row as [| [| s | n] [| title rest]]; simpl in H;
    try discriminate; try (injection H as <-; reflexivity).
  apply bind_returns in H as (f & Hf & H). injection H as <-.
  simpl. rewrite Hf. reflexivity.
Qed.

Lemma filled_refl (pg : page) : Forall2 filled pg pg.
Proof.
  induction pg; constructor; [left; reflexivity | assumption].
Qed.

Lemma cache_find_in (k : Z) (cache : list (Z * option page)) (v : option page) :
  cache_find k cache = Some v -> In (k, v) cache.
Proof.
  induction cache as [| [k' v'] cache IH]; simpl; [discriminate |].
  destruct (Z.eqb_spec k' k) as [-> | Hne].
  - intros [= ->]. left. reflexivity.
  - intros H. right. apply IH. exact H.
Qed.

Lemma Forall_firstn {A : Type} (Q : A -> Prop) (n : nat) (l : list A) :
  Forall Q l -> Forall Q (firstn n l).
Proof.
  intros H. revert n. induction H; intros [| n]; simpl; constructor; auto.
Qed.

Lemma Forall_filter {A : Type} (Q : A -> Prop) (f : A -> bool) (l : list A) :
  Forall Q l -> Forall Q (filter f l).
Proof.
  induction 1; simpl; [constructor |]. destruct (f _); [constructor |]; assumption.
Qed.

Lemma get_page_coherent (d : database) (self : reader) (k : Z) :
  coherent d self ->
  coherent d (fst (_get_page self k)) /\
  if sqlite_int k
  then exists v, snd (_get_page self k) = Returns v /\ entry_ok d (k, v)
  else snd (_get_page self k) = Raises OverflowError.
Proof.
  intros [Hdb Hcache]. unfold _get_page.
  destruct (cache_find k (page_cache self)) as [hit |] eqn:E; cbn [fst snd].
  - assert (Hhit : entry_ok d (k, hit)).
    { rewrite Forall_forall in Hcache. apply Hcache, cache_find_in, E. }
    split.
    + split; [exact Hdb |]. cbn [page_cache].
      constructor; [exact Hhit |]. apply Forall_filter. exact Hcache.
    + pose proof (proj1 Hhit) as Hint. cbn [fst] in Hint. rewrite Hint. eauto.
  - unfold read_page. destruct (sqlite_int k) eqn:Hint; cbn [fst snd].
    + assert (Hmiss : entry_ok d (k, select_page (db self) k)).
      { rewrite Hdb. unfold entry_ok. cbn [fst snd]. split; [exact Hint |].
        destruct (select_page d k); [apply filled_refl | exact I]. }
      split; [| eauto]. split; [exact Hdb |]. cbn [page_cache].
      apply Forall_firstn. constructor; assumption.
    + split; [split; assumption | reflexivity].
Qed.

(** The cache never shows through: on any coherent reader [get_doc] gives
    what the tables alone give, and leaves a coherent reader. *)
Lemma get_doc_coherent (d : database) (self : reader) (docid : Z) :
  coherent d self ->
  coherent d (fst (get_doc self docid)) /\
  snd (get_doc self docid) = get_doc_stored d docid.
Proof.
  intros Hco. unfold get_doc, get_doc_stored, read_page.
  destruct (get_page_coherent d self (docid / PAGE_SIZE) Hco) as [Hco1 Hentry].
  destruct (_get_page self (docid / PAGE_SIZE)) as [self1 v]. cbn [fst snd] in *.
  destruct (sqlite_int (docid / PAGE_SIZE)) eqn:Hint; cbn [bind];
    [| subst v; split; [exact Hco1 | reflexivity]].
  destruct Hentry as (v' & -> & Hentry). rename v' into v.
  destruct Hentry as [_ Hentry]. cbn [fst snd] in Hentry.
  destruct (select_page d (docid / PAGE_SIZE)) as [pg |] eqn:Hpg, v as [pg' |];
    try contradiction; [| split; [exact Hco1 | reflexivity]].
  destruct pg' as [| r' pg'].
  { inversion Hentry; subst. split; [exact Hco1 | reflexivity]. }
  destruct pg as [| r pg]; [inversion Hentry |].
  pose proof (Forall2_nth_error _ _ _ Hentry (Z.to_nat (docid mod PAGE_SIZE))) as Hn.
  destruct (nth_error (r :: pg) _) as [row |] eqn:Hrow,
           (nth_error (r' :: pg') _) as [row' |] eqn:Hrow';
    try contradiction; [| split; [exact Hco1 | reflexivity]].
  rewrite (filled_fill _ _ Hn).
  destruct (fill_filename row) as [row1 | e |] eqn:Hfill; cbn [bind fst snd];
    try (split; [exact Hco1 | reflexivity]).
  split; [| reflexivity].
  destruct Hco1 as [Hdb Hcache]. split; [exact Hdb |]. cbn [page_cache].
  unfold cache_store. apply Forall_map.
  eapply Forall_impl; [| exact Hcache]. intros [k v] Hkv. cbn [fst].
  destruct (Z.eqb_spec k (docid / PAGE_SIZE)) as [-> | Hne]; [| exact Hkv].
  unfold entry_ok. cbn [fst snd]. rewrite Hpg. split; [exact Hint |].
  eapply Forall2_list_set; [exact Hentry | exact Hrow |].
  right. exact Hfill.
Qed.

Lemma reachable_coherent (d : database) (self : reader) :
  reachable d self -> coherent d self.
Proof.
  induction 1 as [| self docid Hreach IH].
  - split; [reflexivity | constructor].
  - apply get_doc_coherent. exact IH.
Qed.

Lemma get_doc_reachable (d : database) (self : reader) (docid : Z) :
  reachable d self -> snd (get_doc self docid) = get_doc_stored d docid.
Proof.
  intros H. apply get_doc_coherent, reachable_coherent, H.
Qed.
End ReaderFacts.

(** ** Reading the paged tables *)

Lemma find_rows_from (pages : list (list (Z * record))) :
  forall k0 k, k0 <= k ->
    find (fun row => pageid row =? k) (rows_from k0 pages)
    = option_map (fun pg => DocsRow k (map fst pg) (compress_data (map snd pg)))
        (nth_error pages (Z.to_nat (k - k0))).
Proof.
  induction pages as [| pg pages IH]; intros k0 k Hk.
  - destruct (Z.to_nat (k - k0)); reflexivity.
  - cbn [rows_from find pageid]. destruct (Z.eqb_spec k0 k) as [-> | Hne].
    + rewrite Z.sub_diag. reflexivity.
    + rewrite IH by lia.
      replace (Z.to_nat (k - k0)) with (S (Z.to_nat (k - (k0 + 1)))) by lia.
      reflexivity.
Qed.

Lemma find_rows_from_below (pages : list (list (Z * record))) :
  forall k0 k, k < k0 -> find (fun row => pageid row =? k) (rows_from k0 pages) = None.
Proof.
  induction pages as [| pg pages IH]; intros k0 k Hk; [reflexivity |].
  cbn [rows_from find pageid]. destruct (Z.eqb_spec k0 k); [lia |].
  apply IH. lia.
Qed.

Lemma select_page_rows (d : database) (pages : list (list (Z * record))) (k : Z) :
  docs d = rows_from 0 pages ->
  select_page d k
  = if k <? 0 then None else option_map (map snd) (nth_error pages (Z.to_nat k)).
Proof.
  intros Hdocs. unfold select_page. rewrite Hdocs.
  destruct (Z.ltb_spec k 0) as [Hneg | Hpos].
  - rewrite find_rows_from_below by exact Hneg. reflexivity.
  - rewrite find_rows_from by exact Hpos. rewrite Z.sub_0_r.
    destruct (nth_error pages (Z.to_nat k)); reflexivity.
Qed.

Lemma rows_from_above (pages : list (list (Z * record))) :
  forall k, Forall (fun row => k <= pageid row) (rows_from k pages).
Proof.
  induction pages as [| pg pages IH]; intros k; cbn [rows_from]; constructor.
  - cbn [pageid]. lia.
  - eapply Forall_impl; [| apply IH]. cbn beta. intros; lia.
Qed.

Lemma insert_sorted_least {A : Type} (leb : A -> A -> bool) (x : A) (l : list A) :
  match l with [] => True | y :: _ => leb x y = true end ->
  insert_sorted leb x l = x :: l.
Proof.
  destruct l as [| y l]; [reflexivity |]. simpl. intros ->. reflexivity.
Qed.

Lemma insert_sorted_last {A : Type} (leb : A -> A -> bool) (x : A) (l : list A) :
  Forall (fun y => leb x y = false) l -> insert_sorted leb x l = l ++ [x].
Proof.
  induction 1 as [| y l Hy Hall IH]; [reflexivity |].
  simpl. rewrite Hy, IH. reflexivity.
Qed.

(** [ORDER BY pageid] finds the rows in the order the build wrote them. *)
Lemma by_pageid_rows (pages : list (list (Z * record))) :
  forall k, sort (fun a b => pageid a <=? pageid b) (rows_from k pages)
            = rows_from k pages.
Proof.
  induction pages as [| pg pages IH]; intros k; [reflexivity |].
  cbn [rows_from sort]. rewrite IH. apply insert_sorted_least.
  destruct pages; [exact I |]. cbn [rows_from pageid]. apply Z.leb_le. lia.
Qed.

(** [ORDER BY pageid DESC] finds them in the reverse order. *)
Lemma by_pageid_desc_rows (pages : list (list (Z * record))) :
  forall k, sort (fun a b => pageid b <=? pageid a) (rows_from k pages)
            = rev (rows_from k pages).
Proof.
  induction pages as [| pg pages IH]; intros k; [reflexivity |].
  cbn [rows_from sort rev]. rewrite IH. apply insert_sorted_last.
  apply Forall_rev. eapply Forall_impl; [| apply (rows_from_above pages (k + 1))].
  cbn beta. intros row Hrow. cbn [pageid]. apply Z.leb_gt. lia.
Qed.

Lemma decompress_rows (pages : list (list (Z * record))) :
  forall k, flat_map (fun row => decompress_data (data row)) (rows_from k pages)
            = map snd (concat pages).
Proof.
  induction pages as [| pg pages IH]; intros k; [reflexivity |].
  cbn [rows_from flat_map concat data decompress_data compress_data unblob].
  rewrite IH, map_app. reflexivity.
Qed.

Lemma paginated_length (pages : list (list (Z * record))) :
  paginated pages ->
  forall pg, last pages [] = pg ->
  pages <> [] ->
  Z.of_nat (length (concat pages))
  = (Z.of_nat (length pages) - 1) * PAGE_SIZE + Z.of_nat (length pg) /\
  0 < Z.of_nat (length pg) <= PAGE_SIZE.
Proof.
  induction pages as [| pg0 pages IH]; intros Hpag pg Hlast Hne; [congruence |].
  destruct pages as [| pg1 pages].
  - cbn in Hlast. subst pg0. cbn [paginated] in Hpag. cbn [concat length].
    rewrite app_nil_r. split; [lia | exact Hpag].
  - destruct Hpag as [Hfull Hpag].
    destruct (IH Hpag pg Hlast) as [Hlen Hpg]; [discriminate |].
    split; [| exact Hpg].
    change (concat (pg0 :: pg1 :: pages)) with (pg0 ++ concat (pg1 :: pages)).
    rewrite length_app, Nat2Z.inj_add, Hlen, Hfull.
    change (length (pg0 :: pg1 :: pages)) with (S (length (pg1 :: pages))).
    rewrite Nat2Z.inj_succ. lia.
Qed.

(** A document id splits into the page and the offset of its record. *)
Lemma paginated_nth_error (pages : list (list (Z * record))) :
  paginated pages ->
  forall docid, 0 <= docid ->
    nth_error (concat pages) (Z.to_nat docid)
    = match nth_error pages (Z.to_nat (docid / PAGE_SIZE)) with
      | Some pg => nth_error pg (Z.to_nat (docid mod PAGE_SIZE))
      | None => None
      end.
Proof.
  induction pages as [| pg pages IH]; intros Hpag docid Hpos.
  - destruct (Z.to_nat docid), (Z.to_nat (docid / PAGE_SIZE)); reflexivity.
  - assert (Hlen : Z.of_nat (length pg) <= PAGE_SIZE /\
                   (pages <> [] -> Z.of_nat (length pg) = PAGE_SIZE /\ paginated pages)).
    { destruct pages; cbn [paginated] in Hpag.
      - split; [lia | congruence].
      - split; [lia | intros _; exact Hpag]. }
    destruct Hlen as [Hle Hrest].
    cbn [concat]. destruct (Z_lt_le_dec docid PAGE_SIZE) as [Hlow | Hhigh].
    + rewrite Z.div_small, Z.mod_small by lia. cbn [Z.to_nat nth_error].
      destruct (Nat.lt_ge_cases (Z.to_nat docid) (length pg)) as [Hin | Hout].
      * apply nth_error_app1. exact Hin.
      * rewrite (proj2 (nth_error_None pg _) Hout).
        apply nth_error_None. rewrite length_app.
        destruct pages as [| pg1 pages]; [cbn [concat length]; lia |].
        destruct Hrest as [Hfull _]; [discriminate | lia].
    + assert (Hdiv : docid / PAGE_SIZE = (docid - PAGE_SIZE) / PAGE_SIZE + 1 /\
                     docid mod PAGE_SIZE = (docid - PAGE_SIZE) mod PAGE_SIZE /\
                     0 <= (docid - PAGE_SIZE) / PAGE_SIZE).
      { unfold PAGE_SIZE in *. Z.div_mod_to_equations. lia. }
      destruct Hdiv as (Hq & Hr & Hq0).
      destruct pages as [| pg1 pages].
      * rewrite Hq. replace (Z.to_nat (_ + 1)) with (S (Z.to_nat ((docid - PAGE_SIZE) / PAGE_SIZE))) by lia.
        cbn [nth_error concat]. rewrite app_nil_r.
        destruct (Z.to_nat ((docid - PAGE_SIZE) / PAGE_SIZE)); cbn [nth_error];
          apply nth_error_None; lia.
      * destruct Hrest as [Hfull Hpag']; [discriminate |].
        rewrite nth_error_app2 by lia.
        replace (Z.to_nat docid - length pg)%nat with (Z.to_nat (docid - PAGE_SIZE)) by lia.
        rewrite (IH Hpag' (docid - PAGE_SIZE)) by lia.
        rewrite Hq, Hr.
        replace (Z.to_nat (_ + 1)) with (S (Z.to_nat ((docid - PAGE_SIZE) / PAGE_SIZE))) by lia.
        reflexivity.
Qed.

(** ** Reading a built index *)

Section BuiltFacts.
Context {P : Platform}.

Lemma len_rows (self : reader) (pages : list (list (Z * record))) :
  docs (db self) = rows_from 0 pages ->
  paginated pages ->
  pages <> [] ->
  len self = Returns (Z.of_nat (length (concat pages))).
Proof.
  intros Hdocs Hpag Hne. unfold len. rewrite Hdocs, by_pageid_desc_rows.
  destruct (exists_last Hne) as (pages' & pg & ->).
  destruct (paginated_length _ Hpag pg (last_last _ _ _)) as [Hlen _];
    [destruct pages'; discriminate |].
  rewrite rows_from_app. cbn [rows_from]. rewrite rev_app_distr. cbn [rev app].
  cbn [pageid data decompress_data compress_data unblob].
  rewrite Hlen, length_app, length_map. cbn [length]. f_equal. lia.
Qed.

Lemma values_rows (self : reader) (pages : list (list (Z * record))) :
  docs (db self) = rows_from 0 pages ->
  values self = map snd (concat pages).
Proof.
  intros Hdocs. unfold values, by_pageid.
  rewrite Hdocs, by_pageid_rows. apply decompress_rows.
Qed.

Lemma get_doc_stored_rows (d : database) (pages : list (list (Z * record)))
  (docid : Z) (item : Z * record) :
  docs d = rows_from 0 pages ->
  paginated pages ->
  Z.of_nat (length pages) <= 2 ^ 63 ->
  0 <= docid ->
  nth_error (concat pages) (Z.to_nat docid) = Some item ->
  get_doc_stored d docid = (row <- fill_filename (snd item) ;; Returns (Some row)).
Proof.
  intros Hdocs Hpag Hids Hpos Hnth. unfold get_doc_stored, read_page.
  rewrite (select_page_rows d pages _ Hdocs).
  assert (Hq : 0 <= docid / PAGE_SIZE) by (apply Z.div_pos; unfold PAGE_SIZE; lia).
  destruct (Z.ltb_spec (docid / PAGE_SIZE) 0) as [Hneg | _]; [lia |].
  rewrite (paginated_nth_error pages Hpag docid Hpos) in Hnth.
  destruct (nth_error pages (Z.to_nat (docid / PAGE_SIZE))) as [pg |] eqn:Hpg;
    [| discriminate].
  assert (Hint : sqlite_int (docid / PAGE_SIZE) = true).
  { apply sqlite_int_spec.
    assert (Z.to_nat (docid / PAGE_SIZE) < length pages)%nat
      by (apply nth_error_Some; congruence).
    lia. }
  rewrite Hint. cbn [bind option_map].
  pose proof (map_nth_error snd _ _ Hnth) as Hrow.
  destruct (map snd pg) as [| r rows] eqn:E.
  - destruct (Z.to_nat (docid mod PAGE_SIZE)); discriminate.
  - rewrite Hrow. reflexivity.
Qed.

Lemma normalize_shape (data data' : record) :
  normalize data = Returns data' ->
  exists filename title rest f,
    data = filename :: title :: rest /\
    to_filename title = Returns f /\
    data' = if value_eqb filename (VStr f) then VNone :: title :: rest else data.
Proof.
  destruct data as [| filename [| title rest]]; try discriminate.
  cbn [normalize]. intros H. bind_inv H.
  exists filename, title, rest, a. repeat split; [exact Ha |].
  destruct (value_eqb filename (VStr a)); injection H as <-; reflexivity.
Qed.

(** Every record the build stores has a filename or a title that gives
    one. *)
Lemma normalize_fillable (data data' : record) (page_score : Z) :
  normalize data = Returns data' ->
  exists row, fill_filename (data' ++ [VNum page_score]) = Returns row.
Proof.
  intros H. destruct (normalize_shape _ _ H) as (filename & title & rest & f & -> & Hf & ->).
  destruct (value_eqb filename (VStr f)).
  - cbn [app fill_filename]. rewrite Hf. cbn [bind]. eauto.
  - destruct filename; cbn [app fill_filename]; [rewrite Hf; cbn [bind] | |]; eauto.
Qed.

Lemma kept_fillable (source kept : list entry) :
  mapM normalize_entry source = Returns kept ->
  forall e, In e kept -> exists row, fill_filename (snd (stored e)) = Returns row.
Proof.
  intros Hkept e He.
  destruct (proj2 (mapM_in _ _ _ Hkept) e He) as ([[words s] data] & Hnorm & _).
  cbn [normalize_entry] in Hnorm. bind_inv Hnorm. injection Hnorm as <-.
  cbn [stored snd]. eapply normalize_fillable. exact Ha.
Qed.

(** What a reader finds in an index built from [source]: as many
    documents as the source has, each under its id on every reader. *)
Lemma built_index (source : list entry) (d : database) (indexed : Z) :
  create source = Returns (d, indexed) ->
  exists kept emitted,
    mapM normalize_entry source = Returns kept /\
    Permutation emitted kept /\
    length emitted = length source /\
    indexed = total_len (index_words [] 0 emitted) /\
    (forall self, reachable d self ->
       values self = map (fun e => snd (stored e)) emitted /\
       (source <> [] -> len self = Returns (Z.of_nat (length source))) /\
       (forall docid e,
          0 <= docid ->
          nth_error emitted (Z.to_nat docid) = Some e ->
          exists row,
            fill_filename (snd (stored e)) = Returns row /\
            snd (get_doc self docid) = Returns (Some row))).
Proof.
  intros H.
  destruct (create_spec _ _ _ H) as (kept & emitted & pages & Hkept & Hperm & Hdocs & Hpag & Hcat & Hidx & Hids).
  assert (Hlen : length emitted = length source).
  { rewrite (Permutation_length Hperm). eapply mapM_length. exact Hkept. }
  exists kept, emitted. repeat split; try assumption.
  - rewrite (values_rows self pages).
    + rewrite Hcat, map_map. reflexivity.
    + rewrite (proj1 (reachable_coherent _ _ H0)). exact Hdocs.
  - intros Hne. rewrite (len_rows self pages).
    + rewrite Hcat, length_map, Hlen. reflexivity.
    + rewrite (proj1 (reachable_coherent _ _ H0)). exact Hdocs.
    + exact Hpag.
    + intros ->. cbn [concat] in Hcat. destruct emitted; [| discriminate].
      destruct source; [congruence | discriminate].
  - intros docid e Hpos Hnth.
    destruct (kept_fillable _ _ Hkept e) as [row Hrow].
    { apply (Permutation_in _ Hperm). eapply nth_error_In. exact Hnth. }
    exists row. split; [exact Hrow |].
    rewrite (get_doc_reachable _ _ _ H0).
    rewrite (get_doc_stored_rows d pages docid (stored e) Hdocs Hpag Hids Hpos).
    + rewrite Hrow. reflexivity.
    + rewrite Hcat. apply map_nth_error. exact Hnth.
Qed.
End BuiltFacts.

(** ** The claims on the index *)

Section IndexClaims.
Context {P : Platform}.

(** C6. On every reader of an index built from a non-empty source,
    [random] draws its document id from the ids 0 to [len() - 1], each
    once among the equally likely draws, and every draw gives what
    [get_doc] gives for it, which is a record: no draw fails or comes
    back absent. *)
Theorem random_never_fails (source : list entry) (d : database) (indexed : Z)
  (self : reader) :
  create source = Returns (d, indexed) ->
  source <> [] ->
  reachable d self ->
  exists outcomes,
    len self = Returns (Z.of_nat (length source)) /\
    random self = Returns outcomes /\
    map fst outcomes = map Z.of_nat (seq 0 (length source)) /\
    Forall (fun o => snd o = snd (get_doc self (fst o)) /\
                     exists row, snd o = Returns (Some row)) outcomes.
Proof.
  intros Hcreate Hne Hreach.
  destruct (built_index _ _ _ Hcreate)
    as (kept & emitted & Hkept & Hperm & Hlen & _ & Hread).
  destruct (Hread self Hreach) as (_ & Hn & Hdoc). specialize (Hn Hne).
  set (n := Z.of_nat (length source)) in *.
  assert (Hpos : 0 < n) by (destruct source; [congruence | cbn [length] in n; lia]).
  exists (map (fun docid => (docid, snd (get_doc self docid)))
            (map Z.of_nat (seq 0 (length source)))).
  split; [exact Hn |]. split; [| split].
  - unfold random. rewrite Hn. cbn [bind]. unfold randint.
    destruct (Z.ltb_spec (n - 1) 0) as [Hlt | _]; [lia |]. cbn [bind].
    replace (Z.to_nat (n - 1 - 0 + 1)) with (length source) by lia.
    rewrite !map_map. reflexivity.
  - rewrite map_map. cbn [fst]. apply map_id.
  - apply Forall_map. apply Forall_map. apply Forall_forall. intros i Hi.
    cbn [fst snd]. split; [reflexivity |].
    apply in_seq in Hi.
    destruct (nth_error emitted i) as [e |] eqn:He.
    + destruct (Hdoc (Z.of_nat i) e) as (row & _ & Hrow);
        [lia | rewrite Nat2Z.id; exact He |].
      exists row. exact Hrow.
    + apply nth_error_None in He. lia.
Qed.

(** C10. A document of the source whose filename is the one its title
    gives is stored under some id with the filename [None]; on every
    reader, whatever [get_doc] calls came before, [values] yields it with
    [None] still in the filename field, and [get_doc] of the id returns it
    with the derived filename there. *)
Theorem values_never_back_fills (source : list entry) (d : database) (indexed : Z)
  (words : list string) (page_score : Z) (title : value) (rest : record)
  (f : string) :
  create source = Returns (d, indexed) ->
  In (words, page_score, VStr f :: title :: rest) source ->
  to_filename title = Returns f ->
  exists docid,
    0 <= docid < Z.of_nat (length source) /\
    forall self, reachable d self ->
      nth_error (values self) (Z.to_nat docid)
      = Some (VNone :: title :: rest ++ [VNum page_score]) /\
      snd (get_doc self docid)
      = Returns (Some (VStr f :: title :: rest ++ [VNum page_score])).
Proof.
  intros Hcreate Hin Hf.
  destruct (built_index _ _ _ Hcreate)
    as (kept & emitted & Hkept & Hperm & Hlen & _ & Hread).
  destruct (proj1 (mapM_in _ _ _ Hkept) _ Hin) as (e & He & Hkin).
  cbn [normalize_entry normalize] in He. rewrite Hf in He. cbn [bind value_eqb] in He.
  rewrite String.eqb_refl in He. cbn [bind] in He. injection He as <-.
  apply (Permutation_in _ (Permutation_sym Hperm)) in Hkin.
  apply In_nth_error in Hkin as [i Hi].
  assert (Hlt : (i < length emitted)%nat) by (apply nth_error_Some; congruence).
  exists (Z.of_nat i). split; [lia |]. intros self Hreach.
  destruct (Hread self Hreach) as (Hvalues & _ & Hdoc). rewrite Nat2Z.id. split.
  - rewrite Hvalues. rewrite (map_nth_error _ _ _ Hi). reflexivity.
  - destruct (Hdoc (Z.of_nat i) (words, page_score, VNone :: title :: rest)
                (Nat2Z.is_nonneg i)) as (row & Hrow & Hget);
      [rewrite Nat2Z.id; exact Hi |].
    rewrite Hget. cbn [stored snd app fill_filename] in Hrow.
    rewrite Hf in Hrow. cbn [bind] in Hrow. injection Hrow as <-. reflexivity.
Qed.
End IndexClaims.

Lemma two_pages (pages : list (list (Z * record))) :
  paginated pages ->
  Z.of_nat (length (concat pages)) = PAGE_SIZE + 1 ->
  exists page0 page1,
    pages = [page0; page1] /\
    Z.of_nat (length page0) = PAGE_SIZE /\ Z.of_nat (length page1) = 1.
Proof.
  intros Hpag Hlen.
  destruct pages as [| pg0 [| pg1 [| pg2 pages]]]; cbn [paginated concat] in *;
    unfold PAGE_SIZE in *.
  - cbn [length] in Hlen. lia.
  - rewrite app_nil_r in Hlen. lia.
  - rewrite app_nil_r, length_app, Nat2Z.inj_add in Hlen.
    exists pg0, pg1. repeat split; lia.
  - destruct Hpag as (H0 & H1 & _).
    rewrite !length_app, !Nat2Z.inj_add in Hlen. lia.
Qed.

Section Pagination.
Context {P : Platform}.

(** C4. An index built from exactly [PAGE_SIZE + 1] documents has the two
    pages 0 and 1; on every reader [len] is [PAGE_SIZE + 1],
    [get_doc(PAGE_SIZE - 1)] returns the record at offset [PAGE_SIZE - 1]
    of page 0 and [get_doc(PAGE_SIZE)] the record at offset 0 of page 1,
    each with its filename filled in. *)
Theorem pagination_boundary (source : list entry) (d : database) (indexed : Z)
  (self : reader) :
  create source = Returns (d, indexed) ->
  Z.of_nat (length source) = PAGE_SIZE + 1 ->
  reachable d self ->
  map pageid (docs d) = [0; 1] /\
  len self = Returns (PAGE_SIZE + 1) /\
  exists page0 page1 row0 row1 filled0 filled1,
    read_page d 0 = Returns (Some page0) /\
    read_page d 1 = Returns (Some page1) /\
    Z.of_nat (length page0) = PAGE_SIZE /\
    Z.of_nat (length page1) = 1 /\
    nth_error page0 (Z.to_nat (PAGE_SIZE - 1)) = Some row0 /\
    fill_filename row0 = Returns filled0 /\
    snd (get_doc self (PAGE_SIZE - 1)) = Returns (Some filled0) /\
    nth_error page1 0 = Some row1 /\
    fill_filename row1 = Returns filled1 /\
    snd (get_doc self PAGE_SIZE) = Returns (Some filled1).
Proof.
  intros Hcreate Hsize Hreach.
  destruct (create_spec _ _ _ Hcreate)
    as (kept & emitted & pages & Hkept & Hperm & Hdocs & Hpag & Hcat & _).
  assert (Hlen : length emitted = length source).
  { rewrite (Permutation_length Hperm). eapply mapM_length. exact Hkept. }
  assert (Htotal : Z.of_nat (length (concat pages)) = PAGE_SIZE + 1).
  { rewrite Hcat, length_map, Hlen. exact Hsize. }
  destruct (two_pages pages Hpag Htotal) as (pg0 & pg1 & -> & Hlen0 & Hlen1).
  assert (Hdb : docs (db self) = rows_from 0 [pg0; pg1]).
  { rewrite (proj1 (reachable_coherent _ _ Hreach)). exact Hdocs. }
  assert (Hfill : forall item, In item (concat [pg0; pg1]) ->
                               exists row, fill_filename (snd item) = Returns row).
  { intros item Hitem. rewrite Hcat in Hitem.
    apply in_map_iff in Hitem as (e & <- & He).
    apply (kept_fillable _ _ Hkept). apply (Permutation_in _ Hperm). exact He. }
  split; [rewrite Hdocs; reflexivity |].
  split; [rewrite (len_rows self _ Hdb Hpag), Htotal by discriminate; reflexivity |].
  destruct (nth_error pg0 (Z.to_nat (PAGE_SIZE - 1))) as [item0 |] eqn:H0;
    [| apply nth_error_None in H0; unfold PAGE_SIZE in *; lia].
  destruct pg1 as [| item1 [| ? ?]]; cbn [length] in Hlen1; try lia.
  destruct (Hfill item0) as [filled0 Hfilled0].
  { cbn [concat]. apply in_or_app. left. eapply nth_error_In. exact H0. }
  destruct (Hfill item1) as [filled1 Hfilled1].
  { cbn [concat]. apply in_or_app. right. left. reflexivity. }
  exists (map snd pg0), [snd item1], (snd item0), (snd item1), filled0, filled1.
  assert (Hids : Z.of_nat (length [pg0; [item1]]) <= 2 ^ 63) by (cbn [length]; lia).
  unfold read_page. change (sqlite_int 0) with true. change (sqlite_int 1) with true.
  cbv iota.
  rewrite !(select_page_rows d _ _ Hdocs). cbn [Z.ltb Z.compare Z.to_nat nth_error option_map map].
  rewrite length_map.
  rewrite !(get_doc_reachable _ _ _ Hreach).
  rewrite (get_doc_stored_rows d _ (PAGE_SIZE - 1) item0 Hdocs Hpag Hids).
  - rewrite (get_doc_stored_rows d _ PAGE_SIZE item1 Hdocs Hpag Hids).
    + rewrite Hfilled0, Hfilled1. cbn [bind].
      repeat split; try assumption; try reflexivity.
      apply map_nth_error. exact H0.
    + unfold PAGE_SIZE. lia.
    + cbn [concat]. rewrite nth_error_app2 by lia.
      replace (Z.to_nat PAGE_SIZE - length pg0)%nat with 0%nat by lia. reflexivity.
  - unfold PAGE_SIZE. lia.
  - cbn [concat]. rewrite nth_error_app1; [exact H0 | unfold PAGE_SIZE in *; lia].
Qed.
End Pagination.

Lemma boundary_built :
  exists indexed, @create sample_platform boundary_source = Returns (boundary_db, indexed).
Proof.
  exists 513. vm_compute. reflexivity.
Qed.

Lemma pagination_boundary_witness :
  @create sample_platform boundary_source = Returns (boundary_db, 513) /\
  map pageid (docs boundary_db) = [0; 1] /\
  len (open boundary_db) = Returns (PAGE_SIZE + 1) /\
  exists page0 page1 row0 row1 filled0 filled1,
    read_page boundary_db 0 = Returns (Some page0) /\
    read_page boundary_db 1 = Returns (Some page1) /\
    Z.of_nat (length page0) = PAGE_SIZE /\
    Z.of_nat (length page1) = 1 /\
    nth_error page0 (Z.to_nat (PAGE_SIZE - 1)) = Some row0 /\
    @fill_filename sample_platform row0 = Returns filled0 /\
    snd (@get_doc sample_platform (open boundary_db) (PAGE_SIZE - 1))
    = Returns (Some filled0) /\
    nth_error page1 0 = Some row1 /\
    @fill_filename sample_platform row1 = Returns filled1 /\
    snd (@get_doc sample_platform (open boundary_db) PAGE_SIZE) = Returns (Some filled1).
Proof.
  assert (Hbuilt : @create sample_platform boundary_source = Returns (boundary_db, 513))
    by (vm_compute; reflexivity).
  split; [exact Hbuilt |].
  apply (@pagination_boundary sample_platform boundary_source boundary_db 513
           (open boundary_db)).
  - exact Hbuilt.
  - reflexivity.
  - constructor.
Defined.

Lemma random_never_fails_witness :
  exists outcomes,
    len (open example_db) = Returns (Z.of_nat (length example_source)) /\
    @random sample_platform (open example_db) = Returns outcomes /\
    map fst outcomes = map Z.of_nat (seq 0 (length example_source)) /\
    Forall (fun o => snd o = snd (@get_doc sample_platform (open example_db) (fst o)) /\
                     exists row, snd o = Returns (Some row)) outcomes.
Proof.
  apply (@random_never_fails sample_platform example_source example_db 5
           (open example_db)).
  - vm_compute. reflexivity.
  - discriminate.
  - constructor.
Defined.

Lemma values_never_back_fills_witness :
  exists docid,
    0 <= docid < 2 /\
    forall self, @reachable sample_platform derived_db self ->
      nth_error (values self) (Z.to_nat docid)
      = Some ([VNone; VStr "Cat"; VStr "payload"] ++ [VNum 1]) /\
      snd (@get_doc sample_platform self docid)
      = Returns (Some ([VStr "C/Cat"; VStr "Cat"; VStr "payload"] ++ [VNum 1])).
Proof.
  apply (@values_never_back_fills sample_platform derived_source derived_db 2
           ["cat"%string] 1 (VStr "Cat") [VStr "payload"] "C/Cat").
  - vm_compute. reflexivity.
  - left. reflexivity.
  - reflexivity.
Defined.

(** The record of the other document keeps its own filename on both
    paths. *)
Example values_keeps_own_filename :
  values (open derived_db)
  = [ [VStr "elsewhere/Dog"; VStr "Dog"; VStr "payload"; VNum 2];
      [VNone; VStr "Cat"; VStr "payload"; VNum 1] ] /\
  snd (@get_doc sample_platform (open derived_db) 0)
  = Returns (Some [VStr "elsewhere/Dog"; VStr "Dog"; VStr "payload"; VNum 2]) /\
  values (fst (@get_doc sample_platform (open derived_db) 1))
  = values (open derived_db).
Proof. repeat split. Qed.

(** ** Lookups that find nothing *)

Section NotFound.
Context {P : Platform}.

(** A page id the table does not hold: [_get_page] returns [None], and
    so does [get_doc] for every document id of that page. *)
Lemma get_page_missing (d : database) (self : reader) (pageid' : Z) :
  reachable d self ->
  read_page d pageid' = Returns None ->
  snd (_get_page self pageid') = Returns None.
Proof.
  intros Hreach Hmiss.
  destruct (get_page_coherent d self pageid' (reachable_coherent _ _ Hreach))
    as [_ Hentry].
  unfold read_page in Hmiss.
  destruct (sqlite_int pageid'); [| discriminate]. injection Hmiss as Hmiss.
  destruct Hentry as (v & -> & _ & Hentry). cbn [fst snd] in Hentry.
  rewrite Hmiss in Hentry. destruct v; [contradiction | reflexivity].
Qed.

Lemma get_doc_missing_page (d : database) (self : reader) (docid : Z) :
  reachable d self ->
  read_page d (docid / PAGE_SIZE) = Returns None ->
  snd (get_doc self docid) = Returns None.
Proof.
  intros Hreach Hmiss. rewrite (get_doc_reachable _ _ _ Hreach).
  unfold get_doc_stored. rewrite Hmiss. reflexivity.
Qed.
End NotFound.

(** C2, where the code departs from it. In the index of one document the
    document id 1 does not exist; its page does, and [get_doc(1)] raises
    [IndexError] instead of returning [None]. A document id of a page that
    does not exist gives [None]. *)
Theorem get_doc_missing_document_raises :
  @create sample_platform single_source = Returns (single_db, 1) /\
  len (open single_db) = Returns 1 /\
  snd (@get_doc sample_platform (open single_db) 1) = Raises IndexError /\
  snd (@get_doc sample_platform (open single_db) PAGE_SIZE) = Returns None /\
  snd (_get_page (open single_db) 1) = Returns None.
Proof. repeat split. Qed.

(** ** The value [create] returns *)

Lemma filter_without {A : Type} (f : A -> bool) (l : list A) :
  (forall x, In x l -> f x = true) -> filter f l = l.
Proof.
  induction l as [| x l IH]; intros H; [reflexivity |].
  simpl. rewrite (H x) by (left; reflexivity). f_equal. apply IH.
  intros y Hy. apply H. right. exact Hy.
Qed.

Lemma filter_filter {A : Type} (f g : A -> bool) (l : list A) :
  filter f (filter g l) = filter (fun x => g x && f x) l.
Proof.
  induction l as [| x l IH]; [reflexivity |].
  cbn [filter]. destruct (g x); cbn [filter andb]; rewrite IH; reflexivity.
Qed.

Lemma nodup_without (w : string) (l : list string) :
  In w l ->
  length (nodup string_dec l)
  = S (length (nodup string_dec (filter (fun x => negb (String.eqb w x)) l))).
Proof.
  induction l as [| x l IH]; intros Hin; [destruct Hin |].
  cbn [filter nodup]. destruct (String.eqb_spec w x) as [<- | Hne]; cbn [negb].
  - destruct (in_dec string_dec w l) as [Hl | Hl]; [apply IH; exact Hl |].
    cbn [length]. rewrite filter_without; [reflexivity |].
    intros y Hy. destruct (String.eqb_spec w y); [congruence | reflexivity].
  - destruct Hin as [-> | Hin]; [congruence |]. cbn [nodup].
    destruct (in_dec string_dec x l) as [Hl | Hl],
             (in_dec string_dec x (filter (fun y => negb (String.eqb w y)) l))
               as [Hf | Hf].
    + apply IH. exact Hin.
    + exfalso. apply Hf. apply filter_In. split; [exact Hl |].
      destruct (String.eqb_spec w x); [congruence | reflexivity].
    + exfalso. apply Hl. apply filter_In in Hf. tauto.
    + cbn [length]. f_equal. apply IH. exact Hin.
Qed.

Lemma new_words_nodup (words : list string) :
  forall seen,
    new_words seen words
    = Z.of_nat (length (nodup string_dec
                          (filter (fun w => negb (existsb (String.eqb w) seen)) words))).
Proof.
  induction words as [| w words IH]; intros seen; [reflexivity |].
  cbn [new_words filter]. rewrite IH.
  destruct (existsb (String.eqb w) seen) eqn:Hseen; cbn [negb].
  - rewrite Z.add_0_l. do 3 f_equal. apply filter_ext_in. intros x Hx.
    cbn [existsb]. destruct (String.eqb_spec x w) as [-> | Hne];
      [rewrite Hseen |]; reflexivity.
  - set (L := filter (fun x => negb (existsb (String.eqb x) seen)) words).
    assert (HL : filter (fun x => negb (existsb (String.eqb x) (w :: seen))) words
                 = filter (fun x => negb (String.eqb w x)) L).
    { unfold L. rewrite filter_filter. apply filter_ext. intros x.
      cbn [existsb]. rewrite (String.eqb_sym x w).
      destruct (String.eqb w x), (existsb (String.eqb x) seen); reflexivity. }
    rewrite HL. cbn [nodup].
    destruct (in_dec string_dec w L) as [Hin | Hout].
    + rewrite (nodup_without w L Hin). lia.
    + cbn [length]. rewrite filter_without; [lia |].
      intros y Hy. destruct (String.eqb_spec w y); [congruence | reflexivity].
Qed.

Lemma docset_len_append (ds : DocSet.t) (docid idx : Z) :
  DocSet.len (DocSet.append ds docid idx)
  = DocSet.len ds + (if existsb (Z.eqb docid) (DocSet.docids ds) then 0 else 1).
Proof.
  unfold DocSet.len.
  rewrite <- !(length_map fst). fold (DocSet.docids (DocSet.append ds docid idx)).
  fold (DocSet.docids ds). rewrite DocSetAppends.docids_append.
  destruct (existsb (Z.eqb docid) (DocSet.docids ds)); [lia |].
  rewrite length_app. cbn [length]. lia.
Qed.

Lemma total_len_cons (w : string) (ds : DocSet.t) (rest : idx_dict_t) :
  total_len ((w, ds) :: rest) = DocSet.len ds + total_len rest.
Proof. reflexivity. Qed.

Lemma total_len_idx_append (idx_dict : idx_dict_t) (word : string) (docid idx : Z) :
  total_len (idx_append idx_dict word docid idx)
  = total_len idx_dict
    + (if existsb (Z.eqb docid) (DocSet.docids (idx_get idx_dict word)) then 0 else 1).
Proof.
  induction idx_dict as [| [w ds] rest IH]; [reflexivity |].
  cbn [idx_append idx_get]. destruct (String.eqb w word).
  - rewrite !total_len_cons, docset_len_append. lia.
  - rewrite !total_len_cons, IH. lia.
Qed.

Lemma idx_get_idx_append (idx_dict : idx_dict_t) (word word' : string) (docid idx : Z) :
  idx_get (idx_append idx_dict word docid idx) word'
  = if String.eqb word word' then DocSet.append (idx_get idx_dict word') docid idx
    else idx_get idx_dict word'.
Proof.
  induction idx_dict as [| [w ds] rest IH]; cbn [idx_append idx_get].
  - destruct (String.eqb word word'); reflexivity.
  - destruct (String.eqb_spec w word) as [-> | Hne]; cbn [idx_get].
    + destruct (String.eqb word word'); reflexivity.
    + rewrite IH.
      destruct (String.eqb_spec w word'), (String.eqb_spec word word');
        try reflexivity; congruence.
Qed.

Lemma existsb_docid (docid : Z) (l : list Z) :
  existsb (Z.eqb docid) l = true <-> In docid l.
Proof.
  rewrite existsb_exists. split.
  - intros (x & Hx & Heq). apply Z.eqb_eq in Heq. congruence.
  - intros H. exists docid. split; [exact H | apply Z.eqb_refl].
Qed.

(** One document: its id joins the posting list of each of its words, and
    the sum of the lengths grows by one for each word not met before. *)
Lemma add_words_spec (words : list string) :
  forall idx_dict docid idx seen,
    (forall w, existsb (Z.eqb docid) (DocSet.docids (idx_get idx_dict w))
               = existsb (String.eqb w) seen) ->
    total_len (add_words idx_dict docid idx words)
    = total_len idx_dict + new_words seen words /\
    (forall w d, In d (DocSet.docids (idx_get (add_words idx_dict docid idx words) w)) ->
                 In d (DocSet.docids (idx_get idx_dict w)) \/ d = docid).
Proof.
  induction words as [| word words IH]; intros idx_dict docid idx seen Hseen.
  - cbn [add_words new_words]. split; [lia | auto].
  - cbn [add_words new_words].
    destruct (IH (idx_append idx_dict word docid idx) docid (idx + 1) (word :: seen))
      as [Htotal Hin].
    + intros w. rewrite idx_get_idx_append. cbn [existsb].
      rewrite (String.eqb_sym w word).
      destruct (String.eqb word w); [| apply Hseen].
      cbn [orb]. apply existsb_docid. apply DocSetAppends.in_docids_append. auto.
    + split.
      * rewrite Htotal, total_len_idx_append, Hseen. lia.
      * intros w d Hd. apply Hin in Hd as [Hd | ->]; [| auto].
        rewrite idx_get_idx_append in Hd. destruct (String.eqb word w); [| auto].
        apply DocSetAppends.in_docids_append in Hd. exact Hd.
Qed.

Lemma index_words_total (source : list entry) :
  forall idx_dict docid,
    (forall w, Forall (fun d => d < docid) (DocSet.docids (idx_get idx_dict w))) ->
    total_len (index_words idx_dict docid source)
    = total_len idx_dict + pairs_indexed source.
Proof.
  induction source as [| [[words page_score] data] source IH];
    intros idx_dict docid Hfresh.
  - cbn [index_words pairs_indexed fold_right]. lia.
  - cbn [index_words pairs_indexed fold_right fst].
    destruct (add_words_spec words idx_dict docid 0 []) as [Htotal Hin].
    + intros w. cbn [existsb].
      destruct (existsb _ _) eqn:E; [| reflexivity].
      apply existsb_docid in E. specialize (Hfresh w).
      rewrite Forall_forall in Hfresh. specialize (Hfresh docid E). lia.
    + rewrite IH.
      * rewrite Htotal, new_words_nodup. cbn [existsb negb].
        rewrite filter_without by reflexivity.
        fold (pairs_indexed source). lia.
      * intros w. apply Forall_forall. intros d Hd.
        apply Hin in Hd as [Hd | ->]; [| lia].
        specialize (Hfresh w). rewrite Forall_forall in Hfresh.
        specialize (Hfresh d Hd). lia.
Qed.

Lemma pairs_indexed_cons (e : entry) (l : list entry) :
  pairs_indexed (e :: l)
  = Z.of_nat (length (nodup string_dec (fst (fst e)))) + pairs_indexed l.
Proof. reflexivity. Qed.

Lemma pairs_indexed_perm (l l' : list entry) :
  Permutation l l' -> pairs_indexed l = pairs_indexed l'.
Proof.
  induction 1; rewrite ?pairs_indexed_cons; lia.
Qed.

Section Returned.
Context {P : Platform}.

Lemma kept_pairs_indexed (source : list entry) :
  forall kept, mapM normalize_entry source = Returns kept ->
               pairs_indexed kept = pairs_indexed source.
Proof.
  induction source as [| [[words page_score] data] source IH]; intros kept H.
  - injection H as <-. reflexivity.
  - cbn [mapM normalize_entry] in H. bind_inv H. bind_inv H. injection H as <-.
    bind_inv Ha. injection Ha as <-.
    rewrite !pairs_indexed_cons. cbn [fst]. f_equal. apply IH. exact Ha0.
Qed.

(** C8, amended. The value [create] returns is the number of (word,
    document) pairs of the source, a word counting once for a document
    however often it occurs in the word list of that document. *)
Theorem create_returns_pairs_indexed (source : list entry) (d : database)
  (indexed : Z) :
  create source = Returns (d, indexed) ->
  indexed = pairs_indexed source.
Proof.
  intros Hcreate.
  destruct (create_spec _ _ _ Hcreate)
    as (kept & emitted & pages & Hkept & Hperm & _ & _ & _ & -> & _).
  rewrite index_words_total by (intros w; constructor).
  cbn [total_len fold_right].
  rewrite (pairs_indexed_perm _ _ Hperm). apply kept_pairs_indexed. exact Hkept.
Qed.
End Returned.

Lemma create_returns_pairs_indexed_witness :
  @create sample_platform example_source = Returns (example_db, 5) /\
  5 = pairs_indexed example_source.
Proof.
  assert (H : @create sample_platform example_source = Returns (example_db, 5))
    by (vm_compute; reflexivity).
  split; [exact H |].
  exact (@create_returns_pairs_indexed sample_platform example_source example_db 5 H).
Defined.

(** C8 as stated fails: a word that occurs twice in the word list of one
    document is two occurrences and one unit of the returned value. *)
Lemma create_does_not_count_occurrences :
  ~ (forall (source : list entry) (d : database) (indexed : Z),
       @create sample_platform source = Returns (d, indexed) ->
       indexed = occurrences source).
Proof.
  intros H.
  specialize (H repeated_source
                (database_of (@create sample_platform repeated_source)) 1 eq_refl).
  discriminate H.
Qed.

Lemma pairs_indexed_occurrences (source : list entry) :
  Forall (fun e => NoDup (fst (fst e))) source ->
  pairs_indexed source = occurrences source.
Proof.
  induction 1 as [| e source He Hall IH]; [reflexivity |].
  rewrite pairs_indexed_cons, IH, (nodup_fixed_point string_dec He). reflexivity.
Qed.

(** ** The end-to-end example *)

Section EndToEnd.
Context {P : Platform}.

Lemma example_order_source :
  order_source example_source
  = (_ <- to_filename (VStr "Cat") ;;
     _ <- to_filename (VStr "Dog") ;;
     _ <- to_filename (VStr "Cat2") ;;
     Returns ([ (10, [(["cat"; "dog"]%string, 10, [VNone; VStr "Cat"])]);
                (5,  [(["dog"; "bird"]%string, 5, [VNone; VStr "Dog"])]);
                (20, [(["cat"]%string, 20, [VNone; VStr "Cat2"])]) ], 2)).
Proof.
  unfold order_source, example_source. cbn [order_source_from normalize].
  destruct (to_filename (VStr "Cat")); cbn [bind value_eqb]; try reflexivity.
  destruct (to_filename (VStr "Dog")); cbn [bind value_eqb]; try reflexivity.
  destruct (to_filename (VStr "Cat2")); cbn [bind value_eqb]; reflexivity.
Qed.

(** C5. The build of the three documents of the example stores them by
    descending score, Cat2 under document id 0, Cat under 1 and Dog under
    2; afterwards the keys are cat, dog and bird, [get_doc(0)] has the
    title Cat2, and the posting list stored for cat decodes to
    [{0: [0], 1: [0]}]. *)
Theorem end_to_end_example (d : database) (indexed : Z) (self : reader) :
  create example_source = Returns (d, indexed) ->
  reachable d self ->
  values self = [ [VNone; VStr "Cat2"; VNum 20];
                  [VNone; VStr "Cat"; VNum 10];
                  [VNone; VStr "Dog"; VNum 5] ] /\
  (forall w, In w (keys self) <-> In w ["cat"; "dog"; "bird"]%string) /\
  (exists filename,
     snd (get_doc self 0) = Returns (Some [VStr filename; VStr "Cat2"; VNum 20])) /\
  (exists filename,
     snd (get_doc self 1) = Returns (Some [VStr filename; VStr "Cat"; VNum 10])) /\
  (exists filename,
     snd (get_doc self 2) = Returns (Some [VStr filename; VStr "Dog"; VNum 5])) /\
  items self = Returns [ ("cat"%string,  Some [(0, [0]); (1, [0])]);
                         ("dog"%string,  Some [(1, [1]); (2, [0])]);
                         ("bird"%string, Some [(2, [1])]) ].
Proof.
  intros Hcreate Hreach. unfold create in Hcreate.
  rewrite example_order_source in Hcreate.
  destruct (to_filename (VStr "Cat")) as [f1 | |] eqn:H1; try discriminate.
  destruct (to_filename (VStr "Dog")) as [f2 | |] eqn:H2; try discriminate.
  destruct (to_filename (VStr "Cat2")) as [f0 | |] eqn:H0; try discriminate.
  cbn [bind] in Hcreate. vm_compute in Hcreate. injection Hcreate as <- <-.
  pose proof (proj1 (reachable_coherent _ _ Hreach)) as Hdb.
  unfold values, keys, items. rewrite !(get_doc_reachable _ _ _ Hreach), Hdb.
  split; [reflexivity |].
  split.
  { intros w.
    change (sort String.leb _) with ["bird"; "cat"; "dog"]%string.
    cbn [In]. tauto. }
  unfold get_doc_stored.
  split; [exists f0 | split; [exists f1 | split; [exists f2 | reflexivity]]].
  - change (read_page _ (0 / PAGE_SIZE)) with
      (Returns (Some [[VNone; VStr "Cat2"; VNum 20]; [VNone; VStr "Cat"; VNum 10];
                      [VNone; VStr "Dog"; VNum 5]])).
    change (Z.to_nat (0 mod PAGE_SIZE)) with 0%nat.
    cbn [bind nth_error fill_filename]. rewrite H0. reflexivity.
  - change (read_page _ (1 / PAGE_SIZE)) with
      (Returns (Some [[VNone; VStr "Cat2"; VNum 20]; [VNone; VStr "Cat"; VNum 10];
                      [VNone; VStr "Dog"; VNum 5]])).
    change (Z.to_nat (1 mod PAGE_SIZE)) with 1%nat.
    cbn [bind nth_error fill_filename]. rewrite H1. reflexivity.
  - change (read_page _ (2 / PAGE_SIZE)) with
      (Returns (Some [[VNone; VStr "Cat2"; VNum 20]; [VNone; VStr "Cat"; VNum 10];
                      [VNone; VStr "Dog"; VNum 5]])).
    change (Z.to_nat (2 mod PAGE_SIZE)) with 2%nat.
    cbn [bind nth_error fill_filename]. rewrite H2. reflexivity.
Qed.
End EndToEnd.

Lemma end_to_end_example_witness :
  @create sample_platform example_source = Returns (example_db, 5) /\
  values (open example_db) = [ [VNone; VStr "Cat2"; VNum 20];
                               [VNone; VStr "Cat"; VNum 10];
                               [VNone; VStr "Dog"; VNum 5] ] /\
  (forall w, In w (keys (open example_db)) <-> In w ["cat"; "dog"; "bird"]%string) /\
  (exists filename,
     snd (@get_doc sample_platform (open example_db) 0)
     = Returns (Some [VStr filename; VStr "Cat2"; VNum 20])) /\
  (exists filename,
     snd (@get_doc sample_platform (open example_db) 1)
     = Returns (Some [VStr filename; VStr "Cat"; VNum 10])) /\
  (exists filename,
     snd (@get_doc sample_platform (open example_db) 2)
     = Returns (Some [VStr filename; VStr "Dog"; VNum 5])) /\
  items (open example_db)
  = Returns [ ("cat"%string,  Some [(0, [0]); (1, [0])]);
              ("dog"%string,  Some [(1, [1]); (2, [0])]);
              ("bird"%string, Some [(2, [1])]) ].
Proof.
  assert (H : @create sample_platform example_source = Returns (example_db, 5))
    by (vm_compute; reflexivity).
  split; [exact H |].
  apply (@end_to_end_example sample_platform example_db 5 (open example_db) H).
  constructor.
Defined.

(** * Further properties *)

(** ** Sorted lists *)

Section SortedUnique.
Context {A : Type} (leb : A -> A -> bool).
Hypothesis leb_total : forall a b, leb a b = true \/ leb b a = true.
Hypothesis leb_trans : forall a b c, leb a b = true -> leb b c = true -> leb a c = true.
Hypothesis leb_antisym : forall a b, leb a b = true -> leb b a = true -> a = b.

Let le (a b : A) : Prop := leb a b = true.

Lemma leb_refl (a : A) : leb a a = true.
Proof. destruct (leb_total a a); assumption. Qed.

Lemma sorted_perm_unique (l : list A) :
  forall l', StronglySorted le l -> StronglySorted le l' -> Permutation l l' -> l = l'.
Proof.
  induction l as [| a l IH]; intros l' Hs Hs' Hp.
  - apply Permutation_nil in Hp. congruence.
  - destruct l' as [| b l']; [apply Permutation_sym, Permutation_nil in Hp; discriminate |].
    inversion Hs as [| ? ? Hs1 Ha]; subst. inversion Hs' as [| ? ? Hs1' Hb]; subst.
    assert (Hab : a = b).
    { rewrite Forall_forall in Ha, Hb.
      assert (Hin : In b (a :: l)) by (apply (Permutation_in _ (Permutation_sym Hp)); left; reflexivity).
      assert (Hin' : In a (b :: l')) by (apply (Permutation_in _ Hp); left; reflexivity).
      destruct Hin as [-> | Hin]; [reflexivity |].
      destruct Hin' as [-> | Hin']; [reflexivity |].
      apply leb_antisym; [apply Ha; exact Hin | apply Hb; exact Hin']. }
    subst b. f_equal. apply IH; try assumption.
    eapply Permutation_cons_inv. exact Hp.
Qed.

Lemma sort_of_sorted (l : list A) : StronglySorted le l -> sort leb l = l.
Proof.
  intros Hs. apply sorted_perm_unique; [| exact Hs | apply sort_perm].
  apply sort_sorted; assumption.
Qed.

Lemma sort_of_perm (l l' : list A) : Permutation l l' -> sort leb l = sort leb l'.
Proof.
  intros Hp. apply sorted_perm_unique; try (apply sort_sorted; assumption).
  rewrite !sort_perm. exact Hp.
Qed.
End SortedUnique.

Lemma pair_leb_antisym (a b : Z * Z) :
  DocSet.pair_leb a b = true -> DocSet.pair_leb b a = true -> a = b.
Proof.
  destruct a as [a1 a2], b as [b1 b2]. unfold DocSet.pair_leb. cbn [fst snd].
  destruct (Z.ltb_spec a1 b1), (Z.ltb_spec b1 a1), (Z.eqb_spec a1 b1),
    (Z.eqb_spec b1 a1), (Z.leb_spec a2 b2), (Z.leb_spec b2 a2);
    cbn; intros; try discriminate; try lia; f_equal; lia.
Qed.

Lemma sort_pairs_of_perm (l l' : list (Z * Z)) :
  Permutation l l' -> sort DocSet.pair_leb l = sort DocSet.pair_leb l'.
Proof.
  apply sort_of_perm;
    [apply DocSetAppends.pair_leb_total | apply DocSetAppends.pair_leb_trans
     | apply pair_leb_antisym].
Qed.

Lemma sort_pairs_of_sorted (l : list (Z * Z)) :
  StronglySorted pair_le l -> sort DocSet.pair_leb l = l.
Proof.
  apply sort_of_sorted;
    [apply DocSetAppends.pair_leb_total | apply DocSetAppends.pair_leb_trans
     | apply pair_leb_antisym].
Qed.

(** ** More on the codec *)

Lemma sorted_pairs_of_perm (items items' : list (Z * Z)) :
  Permutation items items' -> sorted_pairs items = sorted_pairs items'.
Proof.
  intros Hp. unfold sorted_pairs. apply sort_pairs_of_perm.
  rewrite !DocSetAppends.pairs_appends. exact Hp.
Qed.

Lemma encode_nonempty (self : DocSet.t) :
  self <> [] ->
  DocSet.encode self
  = (let docs_list := sort DocSet.pair_leb (DocSet.pairs self) in
     docs_enc <- DocSet.delta_encode (map fst docs_list) ;;
     if existsb (fun x => DocSet.SEPARATOR <=? x) (map snd docs_list)
     then Raises ValueError
     else if forallb is_byte (map snd docs_list ++ [DocSet.SEPARATOR])
          then Returns (DocSet.Bytes ((map snd docs_list ++ [DocSet.SEPARATOR]) ++ docs_enc))
          else Raises OverflowError).
Proof.
  destruct self; [congruence | reflexivity].
Qed.

(** X3. [encode] does not depend on the order of the appends: two runs of
    the same pairs give the same outcome, bytes or error. *)
Theorem encode_order_insensitive (items items' : list (Z * Z)) :
  Permutation items items' ->
  DocSet.encode (DocSet.appends DocSet.empty items)
  = DocSet.encode (DocSet.appends DocSet.empty items').
Proof.
  intros Hp. destruct items as [| dp items].
  - apply Permutation_nil in Hp. subst. reflexivity.
  - destruct items' as [| dp' items'];
      [apply Permutation_sym, Permutation_nil in Hp; discriminate |].
    rewrite !encode_nonempty by (apply DocSetAppends.appends_nonempty; discriminate).
    fold (sorted_pairs (dp :: items)). fold (sorted_pairs (dp' :: items')).
    rewrite (sorted_pairs_of_perm _ _ Hp). reflexivity.
Qed.

Lemma encode_order_insensitive_witness :
  DocSet.encode (DocSet.appends DocSet.empty [(7, 2); (1, 4); (7, 0)])
  = DocSet.encode (DocSet.appends DocSet.empty [(7, 0); (7, 2); (1, 4)]).
Proof.
  apply (encode_order_insensitive [(7, 2); (1, 4); (7, 0)] [(7, 0); (7, 2); (1, 4)]).
  apply Permutation_sym.
  apply (Permutation_cons_app [(7, 2); (1, 4)] [] (7, 0)). reflexivity.
Defined.

(** [decode] after [encode], as a DocSet rebuilt from the sorted pairs. *)
Lemma decode_encode_appends (items : list (Z * Z)) :
  natural_pairs items ->
  Forall (fun dp => snd dp < 255) items ->
  exists bs,
    DocSet.encode (DocSet.appends DocSet.empty items) = Returns bs /\
    DocSet.decode bs = Returns (DocSet.appends DocSet.empty (sorted_pairs items)).
Proof.
  intros Hnat Hall. destruct items as [| dp items].
  { exists (DocSet.Str EmptyString). split; reflexivity. }
  set (items' := dp :: items) in *.
  assert (Hne : items' <> []) by discriminate.
  pose proof (DocSetCodec.sorted_pairs_perm items') as Hperm.
  assert (Hlt : Forall (fun x => x < DocSet.SEPARATOR) (map snd (sorted_pairs items'))).
  { apply Forall_map.
    eapply Permutation_Forall; [symmetry; exact Hperm | exact Hall]. }
  destruct (DocSetCodec.encode_appends items' Hnat Hne) as (enc & _ & Hdec & Henc).
  assert (Hsmall : existsb (fun x => DocSet.SEPARATOR <=? x)
                     (map snd (sorted_pairs items')) = false).
  { destruct (existsb _ _) eqn:Hbig; [| reflexivity].
    apply existsb_exists in Hbig as (p & Hp & Hle). apply Z.leb_le in Hle.
    rewrite Forall_forall in Hlt. specialize (Hlt p Hp). lia. }
  rewrite Hsmall in Henc.
  exists (DocSet.Bytes (map snd (sorted_pairs items') ++ [DocSet.SEPARATOR] ++ enc)).
  split; [exact Henc |].
  apply DocSetCodec.decode_encoded; [| exact Hlt | exact Hdec].
  intros H0. rewrite H0 in Hperm. apply Permutation_nil in Hperm. congruence.
Qed.

Lemma filter_perm {A : Type} (f : A -> bool) (l l' : list A) :
  Permutation l l' -> Permutation (filter f l) (filter f l').
Proof.
  induction 1; simpl;
    repeat match goal with |- context [if f ?a then _ else _] => destruct (f a) end;
    eauto using Permutation.
Qed.

Lemma positions_of_sorted_pairs (items : list (Z * Z)) (d : Z) :
  Permutation (DocSet.positions_of (DocSet.appends DocSet.empty (sorted_pairs items)) d)
    (DocSet.positions_of (DocSet.appends DocSet.empty items) d) /\
  StronglySorted Z.le
    (DocSet.positions_of (DocSet.appends DocSet.empty (sorted_pairs items)) d).
Proof.
  rewrite !DocSetAppends.positions_of_appends. cbn [DocSet.positions_of app]. split.
  - apply Permutation_map, filter_perm, DocSetCodec.sorted_pairs_perm.
  - apply (StronglySorted_map (fun a b => pair_le a b /\ fst a = fst b)).
    { intros a b [Hab Heq]. apply DocSetAppends.pair_le_snd; assumption. }
    pose proof (DocSetAppends.sort_pairs_sorted
                  (DocSet.pairs (DocSet.appends DocSet.empty items))) as HS.
    fold (sorted_pairs items) in HS.
    induction HS as [| a l Hl IH Ha]; simpl; [constructor |].
    destruct (Z.eqb_spec (fst a) d) as [Hd | Hd]; [| exact IH].
    constructor; [exact IH |].
    apply Forall_forall. intros b Hb. apply filter_In in Hb as [Hb Hbd].
    apply Z.eqb_eq in Hbd. rewrite Forall_forall in Ha. split; [auto | congruence].
Qed.

Lemma docids_append_nodup (self : DocSet.t) (d p : Z) :
  NoDup (DocSet.docids self) -> NoDup (DocSet.docids (DocSet.append self d p)).
Proof.
  intros Hnd. rewrite DocSetAppends.docids_append.
  destruct (existsb (Z.eqb d) (DocSet.docids self)) eqn:E; [exact Hnd |].
  apply NoDup_app; [exact Hnd | repeat constructor; simpl; tauto |].
  intros x Hx [<- | []].
  assert (existsb (Z.eqb d) (DocSet.docids self) = true); [| congruence].
  apply existsb_exists. exists d. split; [exact Hx | apply Z.eqb_refl].
Qed.

Lemma docids_appends_nodup (items : list (Z * Z)) :
  forall self, NoDup (DocSet.docids self) ->
               NoDup (DocSet.docids (DocSet.appends self items)).
Proof.
  induction items as [| [d p] items IH]; intros self Hnd; [exact Hnd |].
  unfold DocSet.appends in *. cbn [fold_left fst snd].
  apply IH, docids_append_nodup, Hnd.
Qed.

Lemma lookup_positions_of (self : DocSet.t) (k : Z) :
  DocSet.lookup self k
  = if existsb (Z.eqb k) (DocSet.docids self)
    then Some (DocSet.positions_of self k) else None.
Proof.
  induction self as [| [k' vs] rest IH]; [reflexivity |].
  cbn [DocSet.lookup DocSet.positions_of DocSet.docids map fst existsb].
  rewrite (Z.eqb_sym k k'). destruct (k' =? k); [reflexivity |]. exact IH.
Qed.

Lemma positions_of_in (self : DocSet.t) (kv : Z * list Z) :
  NoDup (DocSet.docids self) -> In kv self ->
  DocSet.positions_of self (fst kv) = snd kv.
Proof.
  induction self as [| [k vs] rest IH]; intros Hnd Hin; [destruct Hin |].
  cbn [DocSet.docids map fst] in Hnd. inversion Hnd as [| ? ? Hk Hnd']; subst.
  cbn [DocSet.positions_of]. destruct Hin as [<- | Hin].
  - cbn [fst snd]. rewrite Z.eqb_refl. reflexivity.
  - destruct (Z.eqb_spec k (fst kv)) as [-> | Hne]; [| apply IH; assumption].
    exfalso. apply Hk. apply in_map. exact Hin.
Qed.

Lemma docset_eq_intro (y x : DocSet.t) :
  NoDup (DocSet.docids y) -> NoDup (DocSet.docids x) ->
  (forall d, In d (DocSet.docids y) <-> In d (DocSet.docids x)) ->
  (forall d, DocSet.positions_of y d = DocSet.positions_of x d) ->
  DocSet.eq y x = true.
Proof.
  intros Hy Hx Hkeys Hpos. unfold DocSet.eq. apply andb_true_intro. split.
  - apply Nat.eqb_eq.
    rewrite <- (length_map fst y), <- (length_map fst x).
    apply Permutation_length, NoDup_Permutation; assumption.
  - apply forallb_forall. intros kv Hkv.
    rewrite lookup_positions_of.
    assert (Hin : In (fst kv) (DocSet.docids x)) by (apply Hkeys, in_map, Hkv).
    apply existsb_docid in Hin. rewrite Hin.
    rewrite <- Hpos, (positions_of_in y kv Hy Hkv).
    destruct (list_eq_dec Z.eq_dec (snd kv) (snd kv)); congruence.
Qed.

Lemma sorted_Z_unique (l l' : list Z) :
  StronglySorted Z.le l -> StronglySorted Z.le l' -> Permutation l l' -> l = l'.
Proof.
  intros Hs Hs' Hp. apply (sorted_perm_unique Z.leb); try assumption.
  - intros a b Hab Hba. apply Z.leb_le in Hab, Hba. lia.
  - rewrite <- (map_id l). apply (StronglySorted_map Z.le); [| exact Hs].
    intros a b Hab. apply Z.leb_le. exact Hab.
  - rewrite <- (map_id l'). apply (StronglySorted_map Z.le); [| exact Hs'].
    intros a b Hab. apply Z.leb_le. exact Hab.
Qed.

(** A DocSet whose positions were appended in ascending order under every
    docid is equal to the one rebuilt from its sorted pairs. *)
Lemma sorted_pairs_eq (items : list (Z * Z)) :
  (forall d, Sorted Z.le (DocSet.positions_of (DocSet.appends DocSet.empty items) d)) ->
  DocSet.eq (DocSet.appends DocSet.empty (sorted_pairs items))
    (DocSet.appends DocSet.empty items) = true /\
  DocSet.eq (DocSet.appends DocSet.empty items)
    (DocSet.appends DocSet.empty (sorted_pairs items)) = true.
Proof.
  intros Hsorted.
  assert (Hy : NoDup (DocSet.docids (DocSet.appends DocSet.empty (sorted_pairs items))))
    by (apply docids_appends_nodup; constructor).
  assert (Hx : NoDup (DocSet.docids (DocSet.appends DocSet.empty items)))
    by (apply docids_appends_nodup; constructor).
  assert (Hkeys : forall d,
             In d (DocSet.docids (DocSet.appends DocSet.empty (sorted_pairs items)))
             <-> In d (DocSet.docids (DocSet.appends DocSet.empty items))).
  { intros d. rewrite !DocSetAppends.in_docids_appends.
    pose proof (DocSetCodec.sorted_pairs_perm items) as Hperm.
    split; (intros [H | H]; [left; exact H | right]).
    - apply (Permutation_in _ (Permutation_map fst Hperm)). exact H.
    - apply (Permutation_in _ (Permutation_map fst (Permutation_sym Hperm))). exact H. }
  assert (Hpos : forall d,
             DocSet.positions_of (DocSet.appends DocSet.empty (sorted_pairs items)) d
             = DocSet.positions_of (DocSet.appends DocSet.empty items) d).
  { intros d. destruct (positions_of_sorted_pairs items d) as [Hperm Hs].
    apply sorted_Z_unique; [exact Hs | | exact Hperm].
    apply Sorted_StronglySorted; [intros a b c; apply Z.le_trans | apply Hsorted]. }
  split; apply docset_eq_intro; try assumption.
  - intros d. symmetry. apply Hkeys.
  - intros d. symmetry. apply Hpos.
Qed.

(** X4. The round trip under [__eq__]: when the positions of every docid
    were appended in ascending order (non-negative docids and positions,
    positions below 255), [decode(encode(x)) == x], whatever the order the
    docids came in. *)
Theorem docset_eq_round_trip (items : list (Z * Z)) :
  natural_pairs items ->
  Forall (fun dp => snd dp < 255) items ->
  (forall d, Sorted Z.le (DocSet.positions_of (DocSet.appends DocSet.empty items) d)) ->
  exists bs y,
    DocSet.encode (DocSet.appends DocSet.empty items) = Returns bs /\
    DocSet.decode bs = Returns y /\
    DocSet.eq y (DocSet.appends DocSet.empty items) = true /\
    DocSet.eq (DocSet.appends DocSet.empty items) y = true.
Proof.
  intros Hnat Hall Hsorted.
  destruct (decode_encode_appends items Hnat Hall) as (bs & Henc & Hdec).
  exists bs, (DocSet.appends DocSet.empty (sorted_pairs items)).
  split; [exact Henc |]. split; [exact Hdec |].
  apply sorted_pairs_eq. exact Hsorted.
Qed.

Lemma docset_eq_round_trip_witness :
  exists bs y,
    DocSet.encode (DocSet.appends DocSet.empty [(7, 0); (1, 4); (7, 2); (1, 4)])
    = Returns bs /\
    DocSet.decode bs = Returns y /\
    DocSet.eq y (DocSet.appends DocSet.empty [(7, 0); (1, 4); (7, 2); (1, 4)]) = true /\
    DocSet.eq (DocSet.appends DocSet.empty [(7, 0); (1, 4); (7, 2); (1, 4)]) y = true.
Proof.
  apply (docset_eq_round_trip [(7, 0); (1, 4); (7, 2); (1, 4)]).
  - repeat constructor; simpl; lia.
  - repeat constructor; simpl; lia.
  - intros d. rewrite DocSetAppends.positions_of_appends.
    cbn [DocSet.positions_of DocSet.empty app filter map fst snd].
    destruct (Z.eqb_spec 7 d), (Z.eqb_spec 1 d); try lia; cbn [map snd];
      repeat first [apply Sorted_nil | apply Sorted_cons | apply HdRel_nil
                   | apply HdRel_cons | lia].
Defined.

(** Positions appended out of order under one docid come back sorted, and
    the round trip is then not an equality. *)
Example docset_eq_needs_sorted_positions :
  (bs <- DocSet.encode (DocSet.appends DocSet.empty [(7, 2); (7, 0)]) ;;
   y <- DocSet.decode bs ;;
   Returns (DocSet.eq y (DocSet.appends DocSet.empty [(7, 2); (7, 0)])))
  = Returns false.
Proof. reflexivity. Qed.

(** ** Decoding arbitrary bytes *)

Lemma flag_clear_below_128 (b : Z) : 0 <= b < 128 -> Z.land b 0x80 = 0.
Proof.
  intros Hb. apply Z.bits_inj'. intros n Hn. rewrite Z.land_spec, Z.bits_0.
  destruct (Z.eq_dec n 7) as [-> | Hne].
  - replace (Z.testbit b 7) with false; [reflexivity |].
    symmetry. apply Z.bits_above_log2; [lia |].
    destruct (Z.eq_dec b 0) as [-> | Hb0]; [reflexivity |].
    apply Z.log2_lt_pow2; lia.
  - replace (Z.testbit 0x80 n) with false; [apply andb_false_r |].
    change 0x80 with (2 ^ 7). symmetry. apply Z.pow2_bits_false. lia.
Qed.

Lemma flag_test (b : Z) :
  0 <= b <= 255 -> (Z.land b 0x80 =? 0) = (b <? 128).
Proof.
  intros Hb. destruct (Z.ltb_spec b 128) as [Hlow | Hhigh].
  - rewrite flag_clear_below_128 by lia. reflexivity.
  - assert (Hsplit : b = Z.lor (b - 128) 0x80).
    { rewrite <- Z.lxor_lor by (apply flag_clear_below_128; lia).
      rewrite <- Z.add_nocarry_lxor by (apply flag_clear_below_128; lia). lia. }
    rewrite Hsplit, flag_of_flagged by lia. reflexivity.
Qed.

Lemma sorted_le_snoc (l : list Z) (x : Z) :
  StronglySorted Z.le l -> Forall (fun y => y <= x) l -> StronglySorted Z.le (l ++ [x]).
Proof.
  induction 1 as [| y l Hs IH Hall]; intros Hle; simpl.
  - constructor; constructor.
  - inversion Hle; subst. constructor; [apply IH; assumption |].
    apply Forall_app. split; [exact Hall | constructor; [assumption | constructor]].
Qed.

Lemma delta_decode_step_byte (s : DocSet.dstate) (b : Z) :
  0 <= b <= 255 ->
  DocSet.delta_decode_step s b
  = let doc := Z.lor (DocSet.doc s) (Z.shiftl (Z.land b 0x7F) (DocSet.shift s)) in
    if b <? 128
    then DocSet.DState (DocSet.prev_doc s + doc) 0 0
           (DocSet.result s ++ [DocSet.prev_doc s + doc])
    else DocSet.DState (DocSet.prev_doc s) doc (DocSet.shift s + 7) (DocSet.result s).
Proof.
  intros Hb. unfold DocSet.delta_decode_step. rewrite (flag_test b Hb). reflexivity.
Qed.

Lemma delta_decode_fold (ordered : bytes) :
  forall s,
    Forall (fun b => 0 <= b <= 255) ordered ->
    0 <= DocSet.doc s -> 0 <= DocSet.shift s ->
    StronglySorted Z.le (DocSet.result s) ->
    Forall (fun x => 0 <= x <= DocSet.prev_doc s) (DocSet.result s) ->
    0 <= DocSet.prev_doc s ->
    StronglySorted Z.le (DocSet.result (fold_left DocSet.delta_decode_step ordered s)) /\
    Forall (fun x => 0 <= x)
      (DocSet.result (fold_left DocSet.delta_decode_step ordered s)) /\
    length (DocSet.result (fold_left DocSet.delta_decode_step ordered s))
    = (length (DocSet.result s)
       + length (filter (fun b => (b <? 128)%Z) ordered))%nat.
Proof.
  induction ordered as [| b ordered IH]; intros s Hbytes Hdoc Hshift Hs Hall Hprev.
  - cbn. repeat split; [exact Hs | | lia].
    eapply Forall_impl; [| exact Hall]. cbn beta. intros; lia.
  - inversion Hbytes as [| ? ? Hb Hbytes']; subst. cbn [fold_left filter].
    assert (Hnew : 0 <= Z.lor (DocSet.doc s)
                          (Z.shiftl (Z.land b 0x7F) (DocSet.shift s))).
    { apply Z.lor_nonneg. split; [exact Hdoc |].
      apply Z.shiftl_nonneg. apply low7_range. }
    rewrite (delta_decode_step_byte s b Hb). cbv zeta.
    set (doc' := Z.lor (DocSet.doc s) (Z.shiftl (Z.land b 0x7F) (DocSet.shift s))) in *.
    destruct (b <? 128).
    + destruct (IH (DocSet.DState (DocSet.prev_doc s + doc') 0 0
                      (DocSet.result s ++ [DocSet.prev_doc s + doc'])))
        as (H1 & H2 & H3); cbn [DocSet.doc DocSet.shift DocSet.result DocSet.prev_doc];
        try lia; try assumption.
      * apply sorted_le_snoc; [exact Hs |].
        eapply Forall_impl; [| exact Hall]. cbn beta. intros; lia.
      * apply Forall_app. split.
        -- eapply Forall_impl; [| exact Hall]. cbn beta. intros; lia.
        -- constructor; [lia | constructor].
      * split; [exact H1 |]. split; [exact H2 |].
        rewrite H3. cbn [DocSet.result]. rewrite length_app. cbn [length]. lia.
    + destruct (IH (DocSet.DState (DocSet.prev_doc s) doc' (DocSet.shift s + 7)
                      (DocSet.result s)))
        as (H1 & H2 & H3); cbn [DocSet.doc DocSet.shift DocSet.result DocSet.prev_doc];
        try lia; try assumption.
      split; [exact H1 |]. split; [exact H2 | exact H3].
Qed.

Lemma delta_decode_tail (tail : bytes) :
  forall s,
    Forall (fun b => 128 <= b <= 255) tail ->
    DocSet.result (fold_left DocSet.delta_decode_step tail s) = DocSet.result s.
Proof.
  induction tail as [| b tail IH]; intros s Htail; [reflexivity |].
  inversion Htail as [| ? ? Hb Htail']; subst. cbn [fold_left].
  rewrite IH by exact Htail'. rewrite delta_decode_step_byte by lia. cbv zeta.
  destruct (Z.ltb_spec b 128); [lia | reflexivity].
Qed.

(** X1. On any bytes [delta_decode] returns a non-decreasing list of
    non-negative numbers, one for every byte with the high bit clear; bytes
    with the high bit set that no such byte ends are dropped. *)
Theorem delta_decode_any_bytes (ordered tail : bytes) :
  Forall (fun b => 0 <= b <= 255) ordered ->
  Forall (fun b => 128 <= b <= 255) tail ->
  StronglySorted Z.le (DocSet.delta_decode ordered) /\
  Forall (fun x => 0 <= x) (DocSet.delta_decode ordered) /\
  length (DocSet.delta_decode ordered) = length (filter (fun b => b <? 128) ordered) /\
  DocSet.delta_decode (ordered ++ tail) = DocSet.delta_decode ordered.
Proof.
  intros Hbytes Htail. unfold DocSet.delta_decode.
  assert (H : StronglySorted Z.le (@nil Z) /\ Forall (fun x => 0 <= x <= 0) (@nil Z))
    by (split; constructor).
  destruct (delta_decode_fold ordered (DocSet.DState 0 0 0 []) Hbytes
              (Z.le_refl 0) (Z.le_refl 0) (proj1 H) (proj2 H) (Z.le_refl 0))
    as (H1 & H2 & H3).
  refine (conj H1 (conj H2 (conj H3 _))).
  rewrite fold_left_app. apply delta_decode_tail. exact Htail.
Qed.

Lemma delta_decode_any_bytes_witness :
  StronglySorted Z.le (DocSet.delta_decode [3; 0; 172; 2]) /\
  Forall (fun x => 0 <= x) (DocSet.delta_decode [3; 0; 172; 2]) /\
  length (DocSet.delta_decode [3; 0; 172; 2])
  = length (filter (fun b => b <? 128) [3; 0; 172; 2]) /\
  DocSet.delta_decode ([3; 0; 172; 2] ++ [200; 129])
  = DocSet.delta_decode [3; 0; 172; 2].
Proof.
  apply (delta_decode_any_bytes [3; 0; 172; 2] [200; 129]).
  - repeat constructor; lia.
  - repeat constructor; lia.
Defined.

Lemma index_outcome (x : Z) (l : bytes) :
  (In x l -> exists i, DocSet.index x l = Returns i) /\
  (~ In x l -> DocSet.index x l = Raises ValueError).
Proof.
  induction l as [| y l [IH1 IH2]]; cbn [DocSet.index In].
  - split; [intros [] | reflexivity].
  - destruct (Z.eqb_spec y x) as [-> | Hne].
    + split; [eauto | tauto].
    + split.
      * intros [H | H]; [congruence |]. destruct (IH1 H) as [i ->]. cbn. eauto.
      * intros H. rewrite IH2 by tauto. reflexivity.
Qed.

(** X2. On a [bytes] object [decode] raises, with the [ValueError] of
    [index], exactly on the inputs of two bytes or more that hold no
    separator; on every other one it returns a DocSet. *)
Theorem decode_outcome (encoded : bytes) :
  (DocSet.decode (DocSet.Bytes encoded) = Raises ValueError
   <-> (2 <= length encoded)%nat /\ ~ In DocSet.SEPARATOR encoded) /\
  ((exists docset, DocSet.decode (DocSet.Bytes encoded) = Returns docset)
   <-> (length encoded <= 1)%nat \/ In DocSet.SEPARATOR encoded).
Proof.
  unfold DocSet.decode.
  destruct (Z.ltb_spec 1 (Z.of_nat (length encoded))) as [Hlong | Hshort].
  - destruct (in_dec Z.eq_dec DocSet.SEPARATOR encoded) as [Hin | Hout].
    + destruct (proj1 (index_outcome _ _) Hin) as [i ->]. cbn [bind]. split.
      * split; [discriminate | tauto].
      * split; [auto | eauto].
    + rewrite (proj2 (index_outcome _ _) Hout). cbn [bind]. split.
      * split; [intros _; split; [lia | exact Hout] | reflexivity].
      * split; [intros [? H]; discriminate | intros [H | H]; [lia | tauto]].
  - split.
    + split; [discriminate | intros [H _]; lia].
    + split; [intros _; left; lia | eauto].
Qed.

(** ** The order pass, in full *)

Lemma StronglySorted_app {A : Type} (R : A -> A -> Prop) (l1 l2 : list A) :
  StronglySorted R l1 -> StronglySorted R l2 ->
  (forall a b, In a l1 -> In b l2 -> R a b) ->
  StronglySorted R (l1 ++ l2).
Proof.
  induction 1 as [| x l1 Hs IH Hall]; intros Hs2 Hcross; [exact Hs2 |].
  cbn [app]. constructor.
  - apply IH; [exact Hs2 |]. intros a b Ha Hb. apply Hcross; [right; exact Ha | exact Hb].
  - apply Forall_app. split; [exact Hall |].
    apply Forall_forall. intros b Hb. apply Hcross; [left; reflexivity | exact Hb].
Qed.

Lemma filter_none {A : Type} (f : A -> bool) (l : list A) :
  (forall x, In x l -> f x = false) -> filter f l = [].
Proof.
  induction l as [| x l IH]; intros H; [reflexivity |].
  cbn [filter]. rewrite (H x) by (left; reflexivity). apply IH.
  intros y Hy. apply H. right. exact Hy.
Qed.

Lemma ordered_get_append (os : ordered_source_t) (k k' : Z) (v : entry) :
  ordered_get (ordered_append os k v) k'
  = if k =? k' then ordered_get os k' ++ [v] else ordered_get os k'.
Proof.
  induction os as [| [k0 vs] os IH]; cbn [ordered_append ordered_get].
  - destruct (k =? k'); reflexivity.
  - destruct (Z.eqb_spec k0 k) as [-> | Hne]; cbn [ordered_get].
    + destruct (k =? k'); reflexivity.
    + rewrite IH. destruct (Z.eqb_spec k0 k'), (Z.eqb_spec k k'); try reflexivity.
      congruence.
Qed.

Section OrderPass.
Context {P : Platform}.

Lemma ordered_get_fill (kept : list entry) (score : Z) :
  forall os,
    ordered_get (ordered_fill os kept) score
    = ordered_get os score ++ filter (fun e : entry => snd (fst e) =? score) kept.
Proof.
  induction kept as [| e kept IH]; intros os.
  - rewrite app_nil_r. reflexivity.
  - unfold ordered_fill in *. cbn [fold_left filter].
    rewrite IH, ordered_get_append.
    destruct (snd (fst e) =? score); [rewrite <- app_assoc |]; reflexivity.
Qed.

Lemma ordered_fill_keys (kept : list entry) (k : Z) :
  forall os,
    In k (map fst (ordered_fill os kept))
    <-> In k (map fst os) \/ In k (map (fun e => snd (fst e)) kept).
Proof.
  induction kept as [| e kept IH]; intros os.
  - cbn. tauto.
  - unfold ordered_fill in *. cbn [fold_left map In]. rewrite IH.
    rewrite ordered_append_keys.
    destruct (existsb (Z.eqb (snd (fst e))) (map fst os)) eqn:E.
    + apply existsb_docid in E. intuition congruence.
    + rewrite in_app_iff. cbn [In]. intuition congruence.
Qed.

Lemma order_source_from_eq (source : list entry) :
  forall os quant next,
    order_source_from os quant next source
    = (kept <- mapM normalize_entry source ;;
       Returns (ordered_fill os kept,
                match source with
                | [] => quant
                | _ => next + Z.of_nat (length source) - 1
                end)).
Proof.
  induction source as [| [[words page_score] data] source IH]; intros os quant next.
  - reflexivity.
  - cbn [order_source_from mapM normalize_entry].
    destruct (normalize data) as [data' | e |]; cbn [bind]; try reflexivity.
    rewrite IH. destruct (mapM normalize_entry source) as [kept | e |];
      cbn [bind]; try reflexivity.
    do 2 f_equal. destruct source; cbn [length]; lia.
Qed.

Lemma gen_ordered_scores (os : ordered_source_t) :
  (forall k e, In e (ordered_get os k) -> snd (fst e) = k) ->
  forall keys,
    StronglySorted (fun a b => a >= b) keys ->
    StronglySorted (fun a b => snd (fst a) >= snd (fst b))
      (flat_map (ordered_get os) keys).
Proof.
  intros Hbucket keys Hs. induction Hs as [| k keys Hs IH Hall]; [constructor |].
  cbn [flat_map]. apply StronglySorted_app; [| exact IH |].
  - assert (Hk : forall e, In e (ordered_get os k) -> snd (fst e) = k)
      by (intros; eapply Hbucket; eassumption).
    induction (ordered_get os k) as [| e l IHl]; constructor.
    + apply IHl. intros e' He'. apply Hk. right. exact He'.
    + apply Forall_forall. intros e' He'.
      rewrite (Hk e) by (left; reflexivity). rewrite (Hk e') by (right; exact He'). lia.
  - intros a b Ha Hb. apply in_flat_map in Hb as (k' & Hk' & Hb).
    rewrite (Hbucket _ _ Ha), (Hbucket _ _ Hb).
    rewrite Forall_forall in Hall. apply Hall. exact Hk'.
Qed.

Lemma gen_ordered_filter (os : ordered_source_t) (score : Z) :
  (forall k e, In e (ordered_get os k) -> snd (fst e) = k) ->
  forall keys,
    NoDup keys ->
    filter (fun e : entry => snd (fst e) =? score) (flat_map (ordered_get os) keys)
    = if existsb (Z.eqb score) keys then ordered_get os score else [].
Proof.
  intros Hbucket keys Hnd. induction Hnd as [| k keys Hk Hnd IH]; [reflexivity |].
  cbn [flat_map existsb]. rewrite filter_app, IH.
  destruct (Z.eqb_spec score k) as [-> | Hne]; cbn [orb].
  - assert (Hout : existsb (Z.eqb k) keys = false).
    { destruct (existsb (Z.eqb k) keys) eqn:E; [| reflexivity].
      apply existsb_docid in E. contradiction. }
    rewrite Hout, app_nil_r. apply filter_without.
    intros e He. apply Z.eqb_eq. eapply Hbucket. exact He.
  - replace (filter (fun e : entry => snd (fst e) =? score) (ordered_get os k)) with (@nil entry);
      [reflexivity |].
    symmetry. apply filter_none. intros e He.
    apply Z.eqb_neq. rewrite (Hbucket _ _ He). congruence.
Qed.

(** The documents [gen_ordered] emits for the entries the order pass kept:
    by descending score, the entries of one score in the order they were
    kept. *)
Lemma emitted_descending_stable (kept : list entry) :
  StronglySorted (fun a b => snd (fst a) >= snd (fst b))
    (gen_ordered (ordered_fill [] kept)) /\
  (forall score,
     filter (fun e : entry => snd (fst e) =? score) (gen_ordered (ordered_fill [] kept))
     = filter (fun e : entry => snd (fst e) =? score) kept).
Proof.
  assert (Hbucket : forall k e, In e (ordered_get (ordered_fill [] kept) k) ->
                                snd (fst e) = k).
  { intros k e He. rewrite ordered_get_fill in He. cbn [ordered_get app] in He.
    apply filter_In in He as [_ He]. apply Z.eqb_eq. exact He. }
  destruct (ordered_fill_buckets kept [] (NoDup_nil _)) as [Hnd _].
  assert (Hsorted : StronglySorted (fun x y => x >= y)
                      (sort Z.geb (map fst (ordered_fill [] kept)))).
  { rewrite <- (map_id (sort Z.geb (map fst (ordered_fill [] kept)))).
    apply (StronglySorted_map (fun x y => Z.geb x y = true)).
    - intros x y Hxy. apply Z.geb_le in Hxy. lia.
    - apply sort_sorted.
      + intros x y. rewrite !Z.geb_le. lia.
      + intros x y z. rewrite !Z.geb_le. lia. }
  split; [apply gen_ordered_scores; assumption |].
  intros score. unfold gen_ordered. rewrite gen_ordered_filter.
  - rewrite ordered_get_fill. cbn [ordered_get app].
    destruct (existsb (Z.eqb score) (sort Z.geb (map fst (ordered_fill [] kept))))
      eqn:E; [reflexivity |].
    symmetry. apply filter_none. intros e He.
    apply Z.eqb_neq. intros Heq.
    assert (existsb (Z.eqb score) (sort Z.geb (map fst (ordered_fill [] kept))) = true);
      [| congruence].
    apply existsb_docid.
    apply (Permutation_in _ (Permutation_sym (sort_perm Z.geb _))).
    apply ordered_fill_keys. right. apply in_map_iff. exists e. split; assumption.
  - exact Hbucket.
  - eapply Permutation_NoDup; [symmetry; apply sort_perm | exact Hnd].
Qed.

(** X6. The order pass hands the documents over by descending score, the
    documents of one score in the order of the source; the quantity it
    returns is the index of the last document, 0 for an empty source. *)
Theorem order_pass_descending_stable (source : list entry)
  (os : ordered_source_t) (quant : Z) :
  order_source source = Returns (os, quant) ->
  exists kept,
    mapM normalize_entry source = Returns kept /\
    StronglySorted (fun a b => snd (fst a) >= snd (fst b)) (gen_ordered os) /\
    (forall score,
       filter (fun e : entry => snd (fst e) =? score) (gen_ordered os)
       = filter (fun e : entry => snd (fst e) =? score) kept) /\
    quant = Z.max 0 (Z.of_nat (length source) - 1).
Proof.
  unfold order_source. rewrite order_source_from_eq. intros H. bind_inv H.
  injection H as <- <-. exists a. split; [exact Ha |].
  destruct (emitted_descending_stable a) as [Hs Hstable].
  split; [exact Hs |]. split; [exact Hstable |].
  destruct source; cbn [length]; lia.
Qed.
End OrderPass.

Lemma order_pass_descending_stable_witness :
  exists kept,
    mapM (@normalize_entry sample_platform) example_source = Returns kept /\
    StronglySorted (fun a b => snd (fst a) >= snd (fst b))
      (gen_ordered (ordered_fill [] example_source)) /\
    (forall score,
       filter (fun e : entry => snd (fst e) =? score)
         (gen_ordered (ordered_fill [] example_source))
       = filter (fun e : entry => snd (fst e) =? score) kept) /\
    2 = Z.max 0 (Z.of_nat (length example_source) - 1).
Proof.
  apply (@order_pass_descending_stable sample_platform example_source
           (ordered_fill [] example_source) 2).
  reflexivity.
Defined.

(** ** The tokens table *)

Lemma mapM_app {A B : Type} (f : A -> outcome B) (l l' : list A) :
  mapM f (l ++ l')
  = (ys <- mapM f l ;; ys' <- mapM f l' ;; Returns (ys ++ ys')).
Proof.
  induction l as [| x l IH]; cbn [app mapM bind].
  - destruct (mapM f l'); reflexivity.
  - destruct (f x); cbn [bind]; try reflexivity.
    rewrite IH. destruct (mapM f l); cbn [bind]; try reflexivity.
    destruct (mapM f l'); reflexivity.
Qed.

Lemma tokens_persist_eq (self : sqlmany (string * DocSet.t)) (db : database) :
  tokens_persist self db
  = (rows <- mapM encode_row (buffer self) ;;
     Returns (Database (tokens db ++ rows) (docs db))).
Proof. reflexivity. Qed.

Section TokensFacts.
Context {P : Platform}.

Lemma add_tokens_loop_eq (items : idx_dict_t) :
  forall indexed token_store db,
    ('(indexed, token_store, db) <- add_tokens_loop indexed token_store db items ;;
     db <- sqlmany_finish tokens_persist token_store db ;;
     Returns (indexed, db))
    = (rows <- mapM encode_row (buffer token_store ++ items) ;;
       Returns (indexed + total_len items, Database (tokens db ++ rows) (docs db))).
Proof.
  induction items as [| [word docs_list] items IH]; intros indexed token_store db.
  - cbn [add_tokens_loop bind]. rewrite app_nil_r. unfold sqlmany_finish.
    destruct (buffer token_store) as [| x b] eqn:Hbuf.
    + cbn [bind mapM]. destruct db. cbn [tokens docs].
      rewrite app_nil_r, Z.add_0_r. reflexivity.
    + rewrite tokens_persist_eq, Hbuf.
      destruct (mapM encode_row (x :: b)); cbn [bind]; try reflexivity.
      rewrite Z.add_0_r. reflexivity.
  - cbn [add_tokens_loop]. unfold sqlmany_append. cbn [count buffer].
    destruct ((count token_store + 1) mod PAGE_SIZE =? 0).
    + rewrite tokens_persist_eq. cbn [buffer].
      replace (buffer token_store ++ (word, docs_list) :: items)
        with ((buffer token_store ++ [(word, docs_list)]) ++ items)
        by (rewrite <- app_assoc; reflexivity).
      set (flushed := buffer token_store ++ [(word, docs_list)]).
      rewrite mapM_app.
      destruct (mapM encode_row flushed) as [rows1 | e |]; cbn [bind];
        try reflexivity.
      rewrite IH. cbn [buffer app tokens docs].
      destruct (mapM encode_row items); cbn [bind]; try reflexivity.
      rewrite total_len_cons, <- app_assoc. do 2 f_equal. lia.
    + cbn [bind]. rewrite IH. cbn [buffer].
      rewrite <- app_assoc. cbn [app].
      destruct (mapM encode_row _); cbn [bind]; try reflexivity.
      rewrite total_len_cons. do 2 f_equal. lia.
Qed.

Lemma add_tokens_to_db_eq (idx_dict : idx_dict_t) (db : database) :
  add_tokens_to_db idx_dict db
  = (rows <- mapM encode_row idx_dict ;;
     Returns (total_len idx_dict, Database (tokens db ++ rows) (docs db))).
Proof.
  unfold add_tokens_to_db. rewrite add_tokens_loop_eq. reflexivity.
Qed.

(** X7. Writing the tokens in batches of [PAGE_SIZE] changes nothing:
    [add_tokens_to_db] encodes the posting lists in the order of
    [idx_dict], stops at the first one that fails with its error, and
    otherwise leaves one row for each after the rows that were there, and
    returns the sum of their lengths. *)
Theorem add_tokens_to_db_rows (idx_dict : idx_dict_t) (db : database) :
  add_tokens_to_db idx_dict db
  = (rows <- mapM encode_row idx_dict ;;
     Returns (total_len idx_dict, Database (tokens db ++ rows) (docs db))).
Proof.
  apply add_tokens_to_db_eq.
Qed.
End TokensFacts.

(** ** When the document store fails *)

Lemma rows_from_fresh (pages : list (list (Z * record))) :
  forall k k', k + Z.of_nat (length pages) <= k' ->
    existsb (fun row => pageid row =? k') (rows_from k pages) = false.
Proof.
  induction pages as [| pg pages IH]; intros k k' Hk; [reflexivity |].
  cbn [rows_from existsb pageid length] in *.
  destruct (Z.eqb_spec k k'); [lia |]. cbn [orb]. apply IH. lia.
Qed.

Lemma compressed_persist_outcome pages buf docs_table db :
  buffer docs_table = buf ->
  docs db = rows_from 0 pages ->
  (count docs_table - 1) / PAGE_SIZE = Z.of_nat (length pages) ->
  compressed_persist docs_table db
  = if forallb is_byte (map fst buf) && (Z.of_nat (length pages) <? 2 ^ 63)
    then Returns (Database (tokens db)
                    (docs db ++ [DocsRow (Z.of_nat (length pages)) (map fst buf)
                                   (compress_data (map snd buf))]))
    else Raises OverflowError.
Proof.
  intros Hbuffer Hdocs Hid.
  unfold compressed_persist, array_B. rewrite Hbuffer, Hid.
  destruct (forallb is_byte (map fst buf)); [| reflexivity].
  cbn [bind andb]. unfold insert_docs. cbn [pageid].
  assert (Hint : sqlite_int (Z.of_nat (length pages))
                 = (Z.of_nat (length pages) <? 2 ^ 63)).
  { unfold sqlite_int.
    destruct (Z.leb_spec (- 2 ^ 63) (Z.of_nat (length pages))); [reflexivity | lia]. }
  rewrite Hint. destruct (Z.of_nat (length pages) <? 2 ^ 63); cbn [negb];
    [| reflexivity].
  rewrite Hdocs, rows_from_fresh by lia. reflexivity.
Qed.

Section StoreOutcome.
Context {P : Platform}.

Lemma add_docs_keys_loop_outcome (source : list entry) :
  forall idx_dict docs_table db pages buf,
    paged pages buf docs_table db ->
    exists result,
      ('(idx_dict, docs_table, db) <-
         add_docs_keys_loop idx_dict docs_table db source ;;
       db <- sqlmany_finish compressed_persist docs_table db ;;
       Returns (idx_dict, db))
      = if forallb is_byte (map fst (buf ++ map stored source))
           && (count docs_table + Z.of_nat (length source) <=? 2 ^ 72)
        then Returns result
        else Raises OverflowError.
Proof.
  induction source as [| [[words page_score] data] source IH];
    intros idx_dict docs_table db pages buf Hpaged.
  - cbn [add_docs_keys_loop bind map length]. rewrite app_nil_r.
    unfold sqlmany_finish.
    pose proof Hpaged as (Hfull & Hbuf & Hcount & Hbuffer & Hdocs & Hids).
    rewrite Hbuffer. destruct buf as [| x buf].
    + exists (idx_dict, db). cbn [map forallb andb].
      destruct (Z.leb_spec (count docs_table + Z.of_nat 0) (2 ^ 72));
        [reflexivity |].
      unfold PAGE_SIZE in *. cbn [length] in *. lia.
    + rewrite (compressed_persist_outcome pages (x :: buf) docs_table db
                 Hbuffer Hdocs).
      * assert (Hsame : (Z.of_nat (length pages) <? 2 ^ 63)
                        = (count docs_table + Z.of_nat 0 <=? 2 ^ 72)).
        { unfold PAGE_SIZE in *. cbn [length] in *.
          destruct (Z.ltb_spec (Z.of_nat (length pages)) (2 ^ 63)),
                   (Z.leb_spec (count docs_table + Z.of_nat 0) (2 ^ 72));
            try reflexivity; lia. }
        rewrite Hsame.
        destruct (forallb is_byte (map fst (x :: buf))
                  && (count docs_table + Z.of_nat 0 <=? 2 ^ 72));
          [eexists (idx_dict, _) | exists (idx_dict, db)]; reflexivity.
      * unfold PAGE_SIZE in *. rewrite Hcount. cbn [length] in *.
        pose proof (Nat2Z.is_nonneg (length pages)).
        Z.div_mod_to_equations. lia.
  - cbn [add_docs_keys_loop map length].
    set (item := (Z.of_nat (length words), data ++ [VNum page_score]) : Z * record).
    change (stored (words, page_score, data)) with item.
    assert (Hsplit : forallb is_byte
                       (map (@fst Z record) (buf ++ item :: map stored source))
                     = forallb is_byte (map (@fst Z record) (buf ++ [item]))
                       && forallb is_byte (map (@fst Z record) (map stored source))).
    { rewrite <- forallb_app, <- map_app, <- app_assoc. reflexivity. }
    assert (Hcnt : count docs_table + Z.of_nat (S (length source))
                   = count docs_table + 1 + Z.of_nat (length source)) by lia.
    rewrite Hsplit, Hcnt.
    pose proof Hpaged as (Hfull & Hbuf & Hcount & Hbuffer & Hdocs & Hids).
    assert (Hflush : (count docs_table + 1) mod PAGE_SIZE = 0 ->
                     compressed_persist
                       (SQLmany (count docs_table + 1) (buffer docs_table ++ [item])) db
                     = if forallb is_byte (map fst (buf ++ [item]))
                          && (Z.of_nat (length pages) <? 2 ^ 63)
                       then Returns (Database (tokens db)
                                       (docs db ++ [DocsRow (Z.of_nat (length pages))
                                                      (map fst (buf ++ [item]))
                                                      (compress_data (map snd (buf ++ [item])))]))
                       else Raises OverflowError).
    { intros Hmod. apply compressed_persist_outcome.
      - cbn [buffer]. rewrite Hbuffer. reflexivity.
      - exact Hdocs.
      - cbn [count]. unfold PAGE_SIZE in *. rewrite Hcount in *.
        pose proof (Nat2Z.is_nonneg (length pages)).
        pose proof (Nat2Z.is_nonneg (length buf)).
        Z.div_mod_to_equations. lia. }
    destruct (sqlmany_append compressed_persist docs_table db item)
      as [[[t1 db1] docid] | e |] eqn:Happ.
    + destruct (compressed_append_paged _ _ _ _ _ _ _ _ Hpaged Happ)
        as (_ & Hcount1 & _ & pages1 & buf1 & Hpaged1 & Hcat1).
      cbn [bind].
      destruct (IH (add_words idx_dict docid 0 words) t1 db1 pages1 buf1 Hpaged1)
        as [result Hres].
      exists result. rewrite Hres, Hcount1.
      replace (forallb is_byte (map fst (buf1 ++ map stored source)))
        with (forallb is_byte (map fst (buf ++ [item]))
              && forallb is_byte (map fst (map stored source)));
        [reflexivity |].
      destruct Hpaged1 as (_ & _ & _ & Hbuffer1 & _).
      unfold sqlmany_append in Happ. cbn [count buffer] in Happ.
      destruct ((count docs_table + 1) mod PAGE_SIZE =? 0) eqn:Hmod.
      * apply Z.eqb_eq in Hmod. rewrite (Hflush Hmod) in Happ.
        destruct (forallb is_byte (map fst (buf ++ [item]))) eqn:Hok;
          [| discriminate].
        cbn [andb] in Happ.
        destruct (Z.of_nat (length pages) <? 2 ^ 63); [| discriminate].
        cbn [bind] in Happ. injection Happ as <- <- _.
        cbn [buffer] in Hbuffer1. subst buf1. reflexivity.
      * cbn [bind] in Happ. injection Happ as <- <- _.
        cbn [buffer] in Hbuffer1. subst buf1. rewrite Hbuffer.
        rewrite <- forallb_app, <- map_app. reflexivity.
    + cbn [bind]. exists (idx_dict, db).
      unfold sqlmany_append in Happ. cbn [count buffer] in Happ.
      destruct ((count docs_table + 1) mod PAGE_SIZE =? 0) eqn:Hmod;
        [| discriminate].
      apply Z.eqb_eq in Hmod. rewrite (Hflush Hmod) in Happ.
      destruct (forallb is_byte (map fst (buf ++ [item])));
        cbn [andb] in *; [| injection Happ as <-; reflexivity].
      destruct (Z.ltb_spec (Z.of_nat (length pages)) (2 ^ 63)) as [Hlt | Hge];
        [discriminate |].
      cbn [bind] in Happ. injection Happ as <-.
      assert (Hbig : (count docs_table + 1 + Z.of_nat (length source) <=? 2 ^ 72)
                     = false).
      { apply Z.leb_gt. unfold PAGE_SIZE in *. rewrite Hcount in *.
        pose proof (Nat2Z.is_nonneg (length buf)).
        pose proof (Nat2Z.is_nonneg (length source)).
        Z.div_mod_to_equations. lia. }
      rewrite Hbig, andb_false_r. reflexivity.
    + exfalso.
      unfold sqlmany_append in Happ. cbn [count buffer] in Happ.
      destruct ((count docs_table + 1) mod PAGE_SIZE =? 0) eqn:Hmod;
        [| discriminate].
      apply Z.eqb_eq in Hmod. rewrite (Hflush Hmod) in Happ.
      destruct (forallb is_byte (map fst (buf ++ [item]))
                && (Z.of_nat (length pages) <? 2 ^ 63)); discriminate.
Qed.

(** The store takes any run of at most [2 ^ 72] documents of at most 255
    words each, the last page id a signed 64-bit integer still binds, and
    fails with [OverflowError] on any other. *)
Lemma add_docs_keys_outcome (source : list entry) (db : database) :
  docs db = [] ->
  exists result,
    add_docs_keys source db
    = if forallb is_byte (map (fun e => fst (stored e)) source)
         && (Z.of_nat (length source) <=? 2 ^ 72)
      then Returns result
      else Raises OverflowError.
Proof.
  intros Hdb. unfold add_docs_keys.
  destruct (add_docs_keys_loop_outcome source [] (SQLmany 0 []) db [] []
              (paged_start db Hdb)) as [result Hres].
  exists result. rewrite Hres. cbn [app count]. rewrite map_map, Z.add_0_l.
  reflexivity.
Qed.
End StoreOutcome.

(** ** The posting lists of the build *)

Lemma StronglySorted_snoc {A : Type} (R : A -> A -> Prop) (l : list A) (x : A) :
  StronglySorted R l -> Forall (fun y => R y x) l -> StronglySorted R (l ++ [x]).
Proof.
  induction 1 as [| y l Hs IH Hall]; intros Hle; simpl.
  - constructor; constructor.
  - inversion Hle; subst. constructor; [apply IH; assumption |].
    apply Forall_app. split; [exact Hall | constructor; [assumption | constructor]].
Qed.

Lemma below_pair_le (docid idx : Z) (dp : Z * Z) :
  below docid idx dp -> pair_le dp (docid, idx).
Proof.
  unfold below, pair_le, DocSet.pair_leb. cbn [fst snd]. intros [H | [H1 H2]].
  - apply Z.ltb_lt in H. rewrite H. reflexivity.
  - rewrite H1, Z.eqb_refl. apply orb_true_iff. right.
    apply Z.leb_le. lia.
Qed.

Lemma appends_snoc (items : list (Z * Z)) (d p : Z) :
  DocSet.appends DocSet.empty (items ++ [(d, p)])
  = DocSet.append (DocSet.appends DocSet.empty items) d p.
Proof.
  unfold DocSet.appends. rewrite fold_left_app. reflexivity.
Qed.

Lemma built_docset_weaken (docid idx docid' idx' : Z) (ds : DocSet.t) :
  (forall dp, below docid idx dp -> below docid' idx' dp) ->
  built_docset docid idx ds -> built_docset docid' idx' ds.
Proof.
  intros Hw (items & Hds & Hne & Hs & Hall).
  exists items. repeat split; try assumption.
  eapply Forall_impl; [| exact Hall]. cbn beta. intros dp (H1 & H2 & H3). auto.
Qed.

Lemma built_docset_append (docid idx : Z) (ds : DocSet.t) :
  0 <= docid -> 0 <= idx < 255 ->
  built_docset docid idx ds ->
  built_docset docid (idx + 1) (DocSet.append ds docid idx).
Proof.
  intros Hd Hi (items & -> & Hne & Hs & Hall).
  exists (items ++ [(docid, idx)]). split; [symmetry; apply appends_snoc |].
  split; [destruct items; discriminate |]. split.
  - apply StronglySorted_snoc; [exact Hs |].
    eapply Forall_impl; [| exact Hall]. cbn beta. intros dp (_ & _ & H).
    apply below_pair_le. exact H.
  - apply Forall_app. split.
    + eapply Forall_impl; [| exact Hall]. cbn beta. intros dp (H1 & H2 & H3).
      unfold below in *. refine (conj _ (conj _ _)); lia.
    + constructor; [| constructor]. unfold below. cbn [fst snd].
      refine (conj _ (conj _ _)); lia.
Qed.

Lemma built_docset_first (docid idx : Z) :
  0 <= docid -> 0 <= idx < 255 ->
  built_docset docid (idx + 1) (DocSet.append DocSet.empty docid idx).
Proof.
  intros Hd Hi. exists [(docid, idx)]. split; [reflexivity |].
  split; [discriminate |]. split; [repeat constructor |].
  constructor; [| constructor]. unfold below. cbn [fst snd].
  refine (conj _ (conj _ _)); lia.
Qed.

Lemma idx_append_built (idx_dict : idx_dict_t) (word : string) (docid idx : Z) :
  0 <= docid -> 0 <= idx < 255 ->
  Forall (fun wd => built_docset docid idx (snd wd)) idx_dict ->
  Forall (fun wd => built_docset docid (idx + 1) (snd wd))
    (idx_append idx_dict word docid idx).
Proof.
  intros Hd Hi. induction 1 as [| [w ds] rest Hds Hall IH]; cbn [idx_append].
  - constructor; [| constructor]. apply built_docset_first; assumption.
  - cbn [snd] in Hds. destruct (String.eqb w word).
    + constructor; [apply built_docset_append; assumption |].
      eapply Forall_impl; [| exact Hall]. cbn beta. intros wd.
      apply built_docset_weaken. intros dp [H | [H1 H2]]; [left; exact H | right; lia].
    + constructor; [| exact IH]. cbn [snd].
      eapply built_docset_weaken; [| exact Hds].
      intros dp [H | [H1 H2]]; [left; exact H | right; lia].
Qed.

Lemma add_words_built (words : list string) :
  forall idx_dict docid idx,
    0 <= docid -> 0 <= idx ->
    idx + Z.of_nat (length words) <= 255 ->
    Forall (fun wd => built_docset docid idx (snd wd)) idx_dict ->
    Forall (fun wd => built_docset docid (idx + Z.of_nat (length words)) (snd wd))
      (add_words idx_dict docid idx words).
Proof.
  induction words as [| word words IH]; intros idx_dict docid idx Hd Hi Hlen Hall.
  - cbn [add_words length]. rewrite Z.add_0_r. exact Hall.
  - cbn [add_words length] in *.
    replace (idx + Z.of_nat (S (length words)))
      with (idx + 1 + Z.of_nat (length words)) by lia.
    apply IH; try lia. apply idx_append_built; try lia. exact Hall.
Qed.

Lemma index_words_built (source : list entry) :
  forall idx_dict docid,
    0 <= docid ->
    Forall (fun e => (length (fst (fst e)) <= 255)%nat) source ->
    Forall (fun wd => built_docset docid 0 (snd wd)) idx_dict ->
    Forall (fun wd => built_docset (docid + Z.of_nat (length source)) 0 (snd wd))
      (index_words idx_dict docid source).
Proof.
  induction source as [| [[words page_score] data] source IH];
    intros idx_dict docid Hd Hlen Hall.
  - cbn [index_words length]. rewrite Z.add_0_r. exact Hall.
  - inversion Hlen as [| ? ? Hw Hlen']; subst. cbn [fst] in Hw.
    cbn [index_words length].
    replace (docid + Z.of_nat (S (length source)))
      with (docid + 1 + Z.of_nat (length source)) by lia.
    apply IH; [lia | exact Hlen' |].
    pose proof (add_words_built words idx_dict docid 0 Hd (Z.le_refl 0)) as H.
    eapply Forall_impl; [| apply H; [lia | exact Hall]].
    cbn beta. intros wd. apply built_docset_weaken.
    intros dp [H1 | [H1 H2]]; left; lia.
Qed.

(** What [encode] returns for a DocSet that holds something is a [bytes]
    object of one byte at least. *)
Lemma encode_bytes (self : DocSet.t) (enc : DocSet.encoding) :
  self <> DocSet.empty ->
  DocSet.encode self = Returns enc ->
  exists bs, enc = DocSet.Bytes bs /\ bs <> [].
Proof.
  intros Hne H. destruct self as [| kv self]; [exfalso; apply Hne; reflexivity |].
  unfold DocSet.encode in H.
  destruct (DocSet.delta_encode _) as [docs_enc | e |]; cbn [bind] in H;
    try discriminate.
  destruct (existsb _ _); [discriminate |].
  destruct (forallb _ _); [| discriminate].
  injection H as <-. eexists. split; [reflexivity |].
  intros H. apply app_eq_nil in H as [H _]. apply app_eq_nil in H as [_ H].
  discriminate.
Qed.

(** A posting list of the build survives the adapter and the converter
    unchanged. *)
Lemma built_docset_codec (docid idx : Z) (ds : DocSet.t) :
  built_docset docid idx ds ->
  exists enc, DocSet.encode ds = Returns enc /\ read_docset enc = Returns (Some ds).
Proof.
  intros (items & -> & Hne & Hs & Hall).
  destruct (decode_encode_appends items) as (enc & Henc & Hdec).
  - eapply Forall_impl; [| exact Hall]. cbn beta. intros dp (H1 & H2 & _). lia.
  - eapply Forall_impl; [| exact Hall]. cbn beta. intros dp (H1 & H2 & _). lia.
  - exists enc. split; [exact Henc |].
    destruct (encode_bytes _ _ (DocSetAppends.appends_nonempty items DocSet.empty Hne)
                Henc) as (bs & -> & Hbs).
    unfold read_docset, convert_docset. cbn [column_bytes].
    destruct bs as [| b bs]; [congruence |].
    rewrite Hdec. cbn [bind]. do 3 f_equal.
    apply (sorted_perm_unique DocSet.pair_leb).
    + apply pair_leb_antisym.
    + apply DocSetAppends.sort_pairs_sorted.
    + exact Hs.
    + apply DocSetCodec.sorted_pairs_perm.
Qed.

Lemma built_rows (idx_dict : idx_dict_t) (docid idx : Z) :
  Forall (fun wd => built_docset docid idx (snd wd)) idx_dict ->
  exists rows,
    mapM encode_row idx_dict = Returns rows /\
    mapM decode_row rows = Returns (as_items idx_dict) /\
    map fst rows = map fst idx_dict.
Proof.
  induction 1 as [| [w ds] rest Hds Hall (rows & Henc & Hdec & Hkeys)].
  - exists []. repeat split.
  - cbn [snd] in Hds. destruct (built_docset_codec _ _ _ Hds) as (bs & Hbs & Hback).
    exists ((w, bs) :: rows). unfold as_items. cbn [mapM map fst snd].
    unfold encode_row at 1, decode_row at 1. cbn [fst snd].
    rewrite Hbs. cbn [bind]. rewrite Henc. cbn [bind].
    rewrite Hback. cbn [bind]. rewrite Hdec. cbn [bind]. rewrite Hkeys.
    repeat split.
Qed.

Lemma add_words_positions (words : list string) (word : string) (docid docid' : Z) :
  forall idx_dict idx,
    DocSet.positions_of (idx_get (add_words idx_dict docid idx words) word) docid'
    = DocSet.positions_of (idx_get idx_dict word) docid'
      ++ (if docid =? docid' then indices_from idx word words else []).
Proof.
  induction words as [| w words IH]; intros idx_dict idx.
  - cbn [add_words indices_from]. destruct (docid =? docid'); rewrite app_nil_r; reflexivity.
  - cbn [add_words indices_from]. rewrite IH, idx_get_idx_append.
    destruct (String.eqb w word).
    + rewrite DocSetAppends.positions_of_append.
      destruct (docid =? docid'); [rewrite <- app_assoc |]; reflexivity.
    + reflexivity.
Qed.

Lemma index_words_positions (source : list entry) (word : string) (docid' : Z) :
  forall idx_dict docid,
    DocSet.positions_of (idx_get (index_words idx_dict docid source) word) docid'
    = DocSet.positions_of (idx_get idx_dict word) docid'
      ++ (if docid <=? docid'
          then match nth_error source (Z.to_nat (docid' - docid)) with
               | Some e => indices_from 0 word (fst (fst e))
               | None => []
               end
          else []).
Proof.
  induction source as [| [[words page_score] data] source IH]; intros idx_dict docid.
  - cbn [index_words]. destruct (docid <=? docid'), (Z.to_nat (docid' - docid));
      rewrite app_nil_r; reflexivity.
  - cbn [index_words]. rewrite IH, add_words_positions, <- app_assoc. f_equal.
    destruct (Z.eqb_spec docid docid') as [<- | Hne].
    + rewrite Z.sub_diag. cbn [Z.to_nat nth_error fst].
      destruct (Z.leb_spec (docid + 1) docid); [lia |].
      destruct (Z.leb_spec docid docid); [| lia]. rewrite app_nil_r. reflexivity.
    + cbn [app].
      destruct (Z.leb_spec (docid + 1) docid'), (Z.leb_spec docid docid');
        try lia; [| reflexivity].
      replace (Z.to_nat (docid' - docid)) with (S (Z.to_nat (docid' - (docid + 1))))
        by lia.
      reflexivity.
Qed.

Lemma existsb_word (word : string) (l : list string) :
  existsb (String.eqb word) l = true <-> In word l.
Proof.
  rewrite existsb_exists. split.
  - intros (x & Hx & Heq). apply String.eqb_eq in Heq. congruence.
  - intros H. exists word. split; [exact H | apply String.eqb_refl].
Qed.

Lemma idx_append_keys (idx_dict : idx_dict_t) (word : string) (docid idx : Z) :
  map fst (idx_append idx_dict word docid idx)
  = if existsb (String.eqb word) (map fst idx_dict) then map fst idx_dict
    else map fst idx_dict ++ [word].
Proof.
  induction idx_dict as [| [w ds] rest IH]; [reflexivity |].
  cbn [idx_append map fst existsb]. rewrite (String.eqb_sym word w).
  destruct (String.eqb w word); [reflexivity |]. cbn [map fst orb]. rewrite IH.
  destruct (existsb (String.eqb word) (map fst rest)); reflexivity.
Qed.

Lemma idx_append_keys_spec (idx_dict : idx_dict_t) (word : string) (docid idx : Z) :
  (NoDup (map fst idx_dict) -> NoDup (map fst (idx_append idx_dict word docid idx))) /\
  (forall w, In w (map fst (idx_append idx_dict word docid idx))
             <-> In w (map fst idx_dict) \/ w = word).
Proof.
  rewrite idx_append_keys.
  destruct (existsb (String.eqb word) (map fst idx_dict)) eqn:E.
  - apply existsb_word in E. split; [auto |]. intros w. split; [auto |].
    intros [H | ->]; assumption.
  - split.
    + intros Hnd. apply NoDup_app; [exact Hnd | repeat constructor; simpl; tauto |].
      intros x Hx [<- | []]. apply existsb_word in Hx. congruence.
    + intros w. rewrite in_app_iff. cbn [In]. intuition congruence.
Qed.

Lemma add_words_keys (words : list string) :
  forall idx_dict docid idx,
    (NoDup (map fst idx_dict) -> NoDup (map fst (add_words idx_dict docid idx words))) /\
    (forall w, In w (map fst (add_words idx_dict docid idx words))
               <-> In w (map fst idx_dict) \/ In w words).
Proof.
  induction words as [| word words IH]; intros idx_dict docid idx.
  - cbn [add_words In]. split; [auto | intros; tauto].
  - cbn [add_words In].
    destruct (IH (idx_append idx_dict word docid idx) docid (idx + 1)) as [IH1 IH2].
    destruct (idx_append_keys_spec idx_dict word docid idx) as [H1 H2].
    split; [auto |]. intros w. rewrite IH2, H2. intuition congruence.
Qed.

Lemma index_words_keys (source : list entry) :
  forall idx_dict docid,
    (NoDup (map fst idx_dict) -> NoDup (map fst (index_words idx_dict docid source))) /\
    (forall w, In w (map fst (index_words idx_dict docid source))
               <-> In w (map fst idx_dict)
                   \/ exists e, In e source /\ In w (fst (fst e))).
Proof.
  induction source as [| [[words page_score] data] source IH]; intros idx_dict docid.
  - cbn [index_words]. split; [auto |]. intros w. split; [auto |].
    intros [H | (e & [] & _)]. exact H.
  - cbn [index_words].
    destruct (IH (add_words idx_dict docid 0 words) (docid + 1)) as [IH1 IH2].
    destruct (add_words_keys words idx_dict docid 0) as [H1 H2].
    split; [auto |]. intros w. rewrite IH2, H2. split.
    + intros [[H | H] | (e & He & Hw)]; [left; exact H | right | right].
      * exists (words, page_score, data). split; [left; reflexivity | exact H].
      * exists e. split; [right; exact He | exact Hw].
    + intros [H | (e & [<- | He] & Hw)]; [left; left; exact H | left; right; exact Hw |].
      right. exists e. split; assumption.
Qed.

(** ** The build, stage by stage *)

Section CreateStages.
Context {P : Platform}.

Lemma normalize_entry_keeps (source : list entry) :
  forall kept, mapM normalize_entry source = Returns kept ->
               map fst kept = map fst source.
Proof.
  induction source as [| [[words page_score] data] source IH]; intros kept H.
  - injection H as <-. reflexivity.
  - cbn [mapM normalize_entry] in H. bind_inv H. bind_inv H. injection H as <-.
    bind_inv Ha. injection Ha as <-. cbn [map fst]. f_equal. apply IH. exact Ha0.
Qed.

Lemma order_source_eq (source : list entry) :
  order_source source
  = (kept <- mapM normalize_entry source ;;
     Returns (ordered_fill [] kept, Z.max 0 (Z.of_nat (length source) - 1))).
Proof.
  unfold order_source. rewrite order_source_from_eq.
  destruct (mapM normalize_entry source); cbn [bind]; try reflexivity.
  do 2 f_equal. destruct source; cbn [length]; lia.
Qed.

Lemma emitted_perm (kept : list entry) :
  Permutation (gen_ordered (ordered_fill [] kept)) kept.
Proof.
  destruct (ordered_fill_buckets kept [] (NoDup_nil _)) as [Hnd Hperm].
  rewrite (gen_ordered_perm _ Hnd). exact Hperm.
Qed.

Lemma is_byte_length (words : list string) :
  is_byte (Z.of_nat (length words)) = (length words <=? 255)%nat.
Proof.
  unfold is_byte. destruct (Nat.leb_spec (length words) 255).
  - apply andb_true_intro. split; apply Z.leb_le; lia.
  - apply andb_false_iff. right. apply Z.leb_gt. lia.
Qed.

Lemma forallb_perm {A : Type} (f : A -> bool) (l l' : list A) :
  Permutation l l' -> forallb f l = forallb f l'.
Proof.
  induction 1; cbn [forallb]; try congruence.
  destruct (f x), (f y); reflexivity.
Qed.

Lemma word_quants_fit (source kept : list entry) :
  mapM normalize_entry source = Returns kept ->
  forallb is_byte (map (fun e => fst (stored e)) (gen_ordered (ordered_fill [] kept)))
  = forallb (fun e : entry => (length (fst (fst e)) <=? 255)%nat) source.
Proof.
  intros Hkept.
  assert (Hf : forall l : list entry,
             forallb is_byte (map (fun e => fst (stored e)) l)
             = forallb (fun p => (length (fst p) <=? 255)%nat) (map fst l)).
  { induction l as [| [[words s] data] l IH]; [reflexivity |].
    cbn [map forallb stored fst]. rewrite IH, is_byte_length. reflexivity. }
  rewrite Hf, (forallb_perm _ _ _ (Permutation_map fst (emitted_perm kept))).
  rewrite (normalize_entry_keeps _ _ Hkept).
  clear. induction source as [| e l IH]; [reflexivity |].
  cbn [map forallb]. rewrite IH. reflexivity.
Qed.

(** The database [create] leaves and the value it returns, in terms of the
    documents in the order [gen_ordered] emits them. *)
Lemma create_stages (source : list entry) (d : database) (indexed : Z) :
  create source = Returns (d, indexed) ->
  exists kept pages rows,
    mapM normalize_entry source = Returns kept /\
    Forall (fun e => (length (fst (fst e)) <= 255)%nat) source /\
    docs d = rows_from 0 pages /\
    paginated pages /\
    concat pages = map stored (gen_ordered (ordered_fill [] kept)) /\
    mapM encode_row (index_words [] 0 (gen_ordered (ordered_fill [] kept)))
    = Returns rows /\
    tokens d = rows /\
    indexed = total_len (index_words [] 0 (gen_ordered (ordered_fill [] kept))) /\
    Z.of_nat (length pages) <= 2 ^ 63.
Proof.
  unfold create. rewrite order_source_eq. intros H. bind_inv H. bind_inv Ha.
  injection Ha as <-. bind_inv H. destruct a as [idx_dict db1].
  assert (Hfit : Forall (fun e => (length (fst (fst e)) <= 255)%nat) source).
  { destruct (add_docs_keys_outcome (gen_ordered (ordered_fill [] a0))
                create_database eq_refl) as [result Hres].
    rewrite Ha, (word_quants_fit _ _ Ha0) in Hres.
    destruct (forallb (fun e : entry => (length (fst (fst e)) <=? 255)%nat) source)
      eqn:E; [| discriminate].
    apply Forall_forall. intros e He.
    rewrite forallb_forall in E. apply Nat.leb_le. apply E. exact He. }
  destruct (add_docs_keys_spec _ create_database _ _ eq_refl Ha)
    as (-> & Htok & pages & Hdocs & Hpag & Hcat & Hids).
  rewrite add_tokens_to_db_eq in H. bind_inv H.
  apply bind_returns in Ha1 as (rows & Hrows & Ha1).
  injection Ha1 as <-. injection H as <- <-.
  exists a0, pages, rows. cbn [tokens docs]. rewrite Htok.
  cbn [create_database tokens app]. auto 10.
Qed.

Lemma emitted_built (source kept : list entry) :
  mapM normalize_entry source = Returns kept ->
  Forall (fun e => (length (fst (fst e)) <= 255)%nat) source ->
  Forall (fun wd => built_docset
                      (0 + Z.of_nat (length (gen_ordered (ordered_fill [] kept)))) 0
                      (snd wd))
    (index_words [] 0 (gen_ordered (ordered_fill [] kept))).
Proof.
  intros Hkept Hfit. apply index_words_built; [lia | | constructor].
  apply Forall_forall. intros e He.
  apply (Permutation_in _ (emitted_perm kept)) in He.
  apply (in_map fst) in He. rewrite (normalize_entry_keeps _ _ Hkept) in He.
  apply in_map_iff in He as (e' & Heq & He').
  rewrite Forall_forall in Hfit. rewrite <- Heq. apply Hfit. exact He'.
Qed.

(** X8. What [create] does is decided by the order pass, the word counts
    and the number of documents alone: an error of the order pass is the
    error of the build; otherwise the build raises [OverflowError] when a
    document has more than 255 words, which the byte array of the word
    counts refuses, or when there are more than [2 ^ 72] documents, whose
    last page id is no signed 64-bit integer; every other build returns, so
    that the position limit of [encode] is never what stops a build. *)
Theorem create_outcome (source : list entry) :
  match mapM normalize_entry source with
  | Returns _ =>
      if forallb (fun e : entry => (length (fst (fst e)) <=? 255)%nat) source
         && (Z.of_nat (length source) <=? 2 ^ 72)
      then exists d indexed, create source = Returns (d, indexed)
      else create source = Raises OverflowError
  | Raises e => create source = Raises e
  | Diverges => create source = Diverges
  end.
Proof.
  unfold create. rewrite order_source_eq.
  destruct (mapM normalize_entry source) as [kept | e |] eqn:Hkept;
    cbn [bind]; try reflexivity.
  destruct (add_docs_keys_outcome (gen_ordered (ordered_fill [] kept))
              create_database eq_refl) as [[idx_dict db1] Hres].
  rewrite (word_quants_fit _ _ Hkept) in Hres.
  rewrite (Permutation_length (emitted_perm kept)), (mapM_length _ _ _ Hkept) in Hres.
  rewrite Hres.
  destruct (forallb (fun e : entry => (length (fst (fst e)) <=? 255)%nat) source)
    eqn:E; [| reflexivity].
  cbn [andb] in *.
  destruct (Z.of_nat (length source) <=? 2 ^ 72); [| reflexivity].
  cbn [bind]. rewrite add_tokens_to_db_eq.
  destruct (add_docs_keys_spec _ create_database _ _ eq_refl Hres) as (-> & _).
  destruct (built_rows _ _ _ (emitted_built source kept Hkept
              ltac:(apply Forall_forall; intros e He; rewrite forallb_forall in E;
                    apply Nat.leb_le; apply E; exact He)))
    as (rows & Hrows & _).
  rewrite Hrows. cbn [bind]. eauto.
Qed.
End CreateStages.

(** A title of 256 words is refused by the byte array of the word counts,
    not by the position limit. *)
Example create_long_title :
  @create sample_platform [ (repeat "w"%string 256, 1, [VNone; VStr "T"]) ]
  = Raises OverflowError.
Proof. vm_compute. reflexivity. Qed.
(** ** What the tokens table answers *)

Section Postings.
Context {P : Platform}.

Lemma built_tokens (source : list entry) (d : database) (indexed : Z) :
  create source = Returns (d, indexed) ->
  exists kept pages,
    mapM normalize_entry source = Returns kept /\
    docs d = rows_from 0 pages /\
    paginated pages /\
    concat pages = map stored (gen_ordered (ordered_fill [] kept)) /\
    mapM decode_row (tokens d)
    = Returns (as_items (index_words [] 0 (gen_ordered (ordered_fill [] kept)))) /\
    map fst (tokens d)
    = map fst (index_words [] 0 (gen_ordered (ordered_fill [] kept))).
Proof.
  intros Hcreate.
  destruct (create_stages _ _ _ Hcreate)
    as (kept & pages & rows & Hkept & Hfit & Hdocs & Hpag & Hcat & Hrows & Htok & _).
  destruct (built_rows _ _ _ (emitted_built source kept Hkept Hfit))
    as (rows' & Hrows' & Hdec & Hkeys).
  assert (rows' = rows) by congruence. subst rows'.
  exists kept, pages. rewrite Htok. auto 10.
Qed.

(** X9. In an index that was built, [items] returns for every word its
    posting list as the build had it. The documents are the entries the
    order pass kept, by descending score and, within one score, in the
    order of the source; [values] lists their records in that order; and
    the posting list of a word holds, under the place of a document in that
    order, the positions of the word in the word list of that very
    document, in ascending order, and nothing under any other id. *)
Theorem items_are_postings (source : list entry) (d : database) (indexed : Z)
  (self : reader) :
  create source = Returns (d, indexed) ->
  reachable d self ->
  exists kept emitted postings,
    mapM normalize_entry source = Returns kept /\
    Permutation emitted kept /\
    StronglySorted (fun a b => snd (fst a) >= snd (fst b)) emitted /\
    (forall score,
       filter (fun e : entry => snd (fst e) =? score) emitted
       = filter (fun e : entry => snd (fst e) =? score) kept) /\
    values self = map (fun e : entry => snd e ++ [VNum (snd (fst e))]) emitted /\
    items self = Returns (map (fun wd => (fst wd, Some (snd wd))) postings) /\
    forall word docid,
      DocSet.positions_of (idx_get postings word) docid
      = if 0 <=? docid
        then match nth_error emitted (Z.to_nat docid) with
             | Some e => indices_from 0 word (fst (fst e))
             | None => []
             end
        else [].
Proof.
  intros Hcreate Hreach.
  destruct (built_tokens _ _ _ Hcreate)
    as (kept & pages & Hkept & Hdocs & Hpag & Hcat & Hdec & _).
  pose proof (proj1 (reachable_coherent _ _ Hreach)) as Hdb.
  destruct (emitted_descending_stable kept) as [Hsorted Hstable].
  exists kept, (gen_ordered (ordered_fill [] kept)),
    (index_words [] 0 (gen_ordered (ordered_fill [] kept))).
  split; [exact Hkept |]. split; [apply emitted_perm |].
  split; [exact Hsorted |]. split; [exact Hstable |].
  split; [| split].
  - rewrite (values_rows self pages) by (rewrite Hdb; exact Hdocs).
    rewrite Hcat, map_map. apply map_ext. intros [[words score] data]. reflexivity.
  - unfold items. rewrite Hdb. exact Hdec.
  - intros word docid. rewrite index_words_positions.
    cbn [idx_get DocSet.positions_of DocSet.empty app].
    rewrite Z.sub_0_r. reflexivity.
Qed.

(** X10. The keys of a built index are the words of the word lists of the
    source, each once, and [__contains__] answers for exactly these. *)
Theorem keys_are_source_words (source : list entry) (d : database) (indexed : Z)
  (self : reader) :
  create source = Returns (d, indexed) ->
  reachable d self ->
  NoDup (keys self) /\
  forall word,
    (In word (keys self) <-> exists e, In e source /\ In word (fst (fst e))) /\
    (contains self word = true <-> In word (keys self)).
Proof.
  intros Hcreate Hreach.
  destruct (built_tokens _ _ _ Hcreate)
    as (kept & pages & Hkept & _ & _ & _ & _ & Hkeys).
  pose proof (proj1 (reachable_coherent _ _ Hreach)) as Hdb.
  destruct (index_words_keys (gen_ordered (ordered_fill [] kept)) [] 0) as [Hnd Hin].
  unfold keys. rewrite Hdb.
  pose proof (sort_perm String.leb (map fst (tokens d))) as Hsort.
  split.
  { apply (Permutation_NoDup (Permutation_sym Hsort)).
    rewrite Hkeys. apply Hnd. constructor. }
  intros word.
  assert (Hword : In word (sort String.leb (map fst (tokens d)))
                  <-> In word (map fst (tokens d))).
  { split; apply Permutation_in; [exact Hsort | symmetry; exact Hsort]. }
  rewrite Hword. clear Hword Hsort. rewrite Hkeys. split.
  - rewrite Hin. cbn [map In]. split.
    + intros [[] | (e & He & Hw)].
      apply (Permutation_in _ (emitted_perm kept)) in He.
      apply (in_map fst) in He. rewrite (normalize_entry_keeps _ _ Hkept) in He.
      apply in_map_iff in He as (e' & Heq & He').
      exists e'. split; [exact He' |]. rewrite Heq. exact Hw.
    + intros (e & He & Hw). right.
      apply (in_map fst) in He. rewrite <- (normalize_entry_keeps _ _ Hkept) in He.
      apply (Permutation_in _ (Permutation_map fst (Permutation_sym (emitted_perm kept))))
        in He.
      apply in_map_iff in He as (e' & Heq & He').
      exists e'. split; [exact He' |]. rewrite Heq. exact Hw.
  - rewrite <- Hkeys. unfold contains. rewrite Hdb, existsb_exists. split.
    + intros (row & Hrow & Heq). apply String.eqb_eq in Heq. subst word.
      apply in_map. exact Hrow.
    + intros H. apply in_map_iff in H as (row & <- & Hrow).
      exists row. split; [exact Hrow | apply String.eqb_refl].
Qed.
End Postings.

Lemma items_are_postings_witness :
  exists kept emitted postings,
    mapM (@normalize_entry sample_platform) example_source = Returns kept /\
    Permutation emitted kept /\
    StronglySorted (fun a b => snd (fst a) >= snd (fst b)) emitted /\
    (forall score,
       filter (fun e : entry => snd (fst e) =? score) emitted
       = filter (fun e : entry => snd (fst e) =? score) kept) /\
    values (open example_db)
    = map (fun e : entry => snd e ++ [VNum (snd (fst e))]) emitted /\
    items (open example_db)
    = Returns (map (fun wd => (fst wd, Some (snd wd))) postings) /\
    forall word docid,
      DocSet.positions_of (idx_get postings word) docid
      = if 0 <=? docid
        then match nth_error emitted (Z.to_nat docid) with
             | Some e => indices_from 0 word (fst (fst e))
             | None => []
             end
        else [].
Proof.
  apply (@items_are_postings sample_platform example_source example_db 5
           (open example_db)).
  - vm_compute. reflexivity.
  - constructor.
Defined.

Lemma keys_are_source_words_witness :
  NoDup (keys (open example_db)) /\
  forall word,
    (In word (keys (open example_db))
     <-> exists e, In e example_source /\ In word (fst (fst e))) /\
    (contains (open example_db) word = true <-> In word (keys (open example_db))).
Proof.
  apply (@keys_are_source_words sample_platform example_source example_db 5
           (open example_db)).
  - vm_compute. reflexivity.
  - constructor.
Defined.

(** ** More on reading a built index *)

Lemma paginated_pages_nonempty (pages : list (list (Z * record))) :
  paginated pages -> Forall (fun pg => pg <> []) pages.
Proof.
  induction pages as [| pg pages IH]; intros Hpag; constructor.
  - destruct pages; cbn [paginated] in Hpag; intros ->; cbn in Hpag;
      unfold PAGE_SIZE in *; lia.
  - destruct pages; [constructor |]. apply IH. apply Hpag.
Qed.

Lemma paginated_count (pages : list (list (Z * record))) :
  paginated pages ->
  Z.of_nat (length pages)
  = (Z.of_nat (length (concat pages)) + PAGE_SIZE - 1) / PAGE_SIZE.
Proof.
  intros Hpag. destruct pages as [| pg0 pages'] eqn:E; [reflexivity |].
  rewrite <- E in *.
  destruct (paginated_length pages Hpag (last pages []) eq_refl) as [Hlen Hlast];
    [rewrite E; discriminate |].
  rewrite Hlen. unfold PAGE_SIZE in *.
  pose proof (Nat2Z.is_nonneg (length pages)).
  Z.div_mod_to_equations. lia.
Qed.

Section ReadingMore.
Context {P : Platform}.

Lemma get_doc_stored_pages (d : database) (pages : list (list (Z * record)))
  (docid : Z) :
  docs d = rows_from 0 pages ->
  paginated pages ->
  get_doc_stored d docid
  = if sqlite_int (docid / PAGE_SIZE)
    then if docid <? 0 then Returns None
         else match nth_error pages (Z.to_nat (docid / PAGE_SIZE)) with
              | None => Returns None
              | Some pg =>
                  match nth_error pg (Z.to_nat (docid mod PAGE_SIZE)) with
                  | None => Raises IndexError
                  | Some item => row <- fill_filename (snd item) ;; Returns (Some row)
                  end
              end
    else Raises OverflowError.
Proof.
  intros Hdocs Hpag. unfold get_doc_stored, read_page.
  destruct (sqlite_int (docid / PAGE_SIZE)); [| reflexivity]. cbn [bind].
  rewrite (select_page_rows d pages _ Hdocs).
  destruct (Z.ltb_spec docid 0) as [Hneg | Hpos].
  - destruct (Z.ltb_spec (docid / PAGE_SIZE) 0) as [_ | Hq]; [reflexivity |].
    unfold PAGE_SIZE in *. Z.div_mod_to_equations. lia.
  - destruct (Z.ltb_spec (docid / PAGE_SIZE) 0) as [Hq | _].
    { unfold PAGE_SIZE in *. Z.div_mod_to_equations. lia. }
    destruct (nth_error pages (Z.to_nat (docid / PAGE_SIZE))) as [pg |] eqn:Hpg;
      [| reflexivity].
    cbn [option_map].
    assert (Hne : pg <> []).
    { pose proof (paginated_pages_nonempty pages Hpag) as Hall.
      rewrite Forall_forall in Hall. apply Hall. eapply nth_error_In. exact Hpg. }
    destruct pg as [| item pg]; [congruence |]. cbn [map].
    change (snd item :: map snd pg) with (map snd (item :: pg)).
    rewrite nth_error_map.
    destruct (nth_error (item :: pg) (Z.to_nat (docid mod PAGE_SIZE)));
      reflexivity.
Qed.

(** The document ids whose page id is a signed 64-bit integer. *)
Lemma sqlite_int_page (docid : Z) :
  sqlite_int (docid / PAGE_SIZE) = true <-> - 2 ^ 72 <= docid < 2 ^ 72.
Proof.
  rewrite sqlite_int_spec. unfold PAGE_SIZE.
  split; intros H; Z.div_mod_to_equations; lia.
Qed.

(** X11. [get_doc] on an index of [n] documents, for every integer: a
    record for the ids from 0 to [n - 1], the one [values] yields there
    with its filename filled in; [IndexError] for the ids from [n] to the end
    of the last page; [None] for a negative id and for an id past the last
    page, as long as the page id is one [sqlite3] binds, that is for the ids
    from [- 2 ^ 72] to [2 ^ 72 - 1]; and [OverflowError] for every other
    integer. *)
Theorem get_doc_by_range (source : list entry) (d : database) (indexed : Z)
  (self : reader) (docid : Z) :
  create source = Returns (d, indexed) ->
  reachable d self ->
  let n := Z.of_nat (length source) in
  let last := PAGE_SIZE * ((n + PAGE_SIZE - 1) / PAGE_SIZE) in
  (0 <= docid < n ->
   exists row filled,
     nth_error (values self) (Z.to_nat docid) = Some row /\
     fill_filename row = Returns filled /\
     snd (get_doc self docid) = Returns (Some filled)) /\
  (n <= docid < last -> snd (get_doc self docid) = Raises IndexError) /\
  (- 2 ^ 72 <= docid < 0 \/ last <= docid < 2 ^ 72 ->
   snd (get_doc self docid) = Returns None) /\
  (docid < - 2 ^ 72 \/ 2 ^ 72 <= docid ->
   snd (get_doc self docid) = Raises OverflowError).
Proof.
  intros Hcreate Hreach n last.
  destruct (create_spec _ _ _ Hcreate)
    as (kept & emitted & pages & Hkept & Hperm & Hdocs & Hpag & Hcat & _ & Hids).
  assert (Hlen : Z.of_nat (length (concat pages)) = n).
  { rewrite Hcat, length_map, (Permutation_length Hperm).
    rewrite (mapM_length _ _ _ Hkept). reflexivity. }
  pose proof (paginated_count pages Hpag) as Hcount. rewrite Hlen in Hcount.
  pose proof (proj1 (reachable_coherent _ _ Hreach)) as Hdb.
  assert (Hlast : 0 <= n <= last /\ last <= 2 ^ 72).
  { unfold last, PAGE_SIZE in *. split; [| lia].
    unfold n. Z.div_mod_to_equations. lia. }
  rewrite (get_doc_reachable _ _ _ Hreach).
  rewrite (get_doc_stored_pages d pages docid Hdocs Hpag).
  assert (Hnth : 0 <= docid ->
                 match nth_error pages (Z.to_nat (docid / PAGE_SIZE)) with
                 | Some pg => nth_error pg (Z.to_nat (docid mod PAGE_SIZE))
                 | None => None
                 end = nth_error (concat pages) (Z.to_nat docid)).
  { intros Hpos. symmetry. apply paginated_nth_error; assumption. }
  assert (Hbound : - 2 ^ 72 <= docid < 2 ^ 72 -> sqlite_int (docid / PAGE_SIZE) = true)
    by apply sqlite_int_page.
  split; [| split; [| split]].
  - intros Hin. rewrite Hbound by lia. destruct (Z.ltb_spec docid 0); [lia |].
    specialize (Hnth ltac:(lia)).
    assert (Hitem : nth_error (concat pages) (Z.to_nat docid)
                    = Some (stored (nth (Z.to_nat docid) emitted ([], 0, [])))).
    { rewrite Hcat. rewrite (nth_error_nth' _ (stored ([], 0, [])))
        by (rewrite <- Hcat; lia).
      rewrite map_nth. reflexivity. }
    rewrite Hitem in Hnth.
    destruct (nth_error pages (Z.to_nat (docid / PAGE_SIZE))) as [pg |];
      [| discriminate].
    rewrite Hnth.
    destruct (kept_fillable _ _ Hkept (nth (Z.to_nat docid) emitted ([], 0, [])))
      as [filled Hfilled].
    { apply (Permutation_in _ Hperm). apply nth_In.
      rewrite <- (length_map stored), <- Hcat. lia. }
    exists (snd (stored (nth (Z.to_nat docid) emitted ([], 0, [])))), filled.
    rewrite Hfilled. cbn [bind]. split; [| split; reflexivity].
    rewrite (values_rows self pages) by (rewrite Hdb; exact Hdocs).
    apply map_nth_error. exact Hitem.
  - intros Hin. rewrite Hbound by lia.
    destruct (Z.ltb_spec docid 0); [unfold n in *; lia |].
    specialize (Hnth ltac:(lia)).
    assert (Hq : (Z.to_nat (docid / PAGE_SIZE) < length pages)%nat).
    { unfold last, PAGE_SIZE in *. Z.div_mod_to_equations. lia. }
    assert (Hout : nth_error (concat pages) (Z.to_nat docid) = None)
      by (apply nth_error_None; lia).
    rewrite Hout in Hnth.
    destruct (nth_error pages (Z.to_nat (docid / PAGE_SIZE))) as [pg |] eqn:Hpg;
      [| apply nth_error_None in Hpg; lia].
    rewrite Hnth. reflexivity.
  - intros [Hneg | Hpast]; rewrite Hbound by lia.
    + destruct (Z.ltb_spec docid 0); [reflexivity | lia].
    + destruct (Z.ltb_spec docid 0); [lia |].
      assert (Hnone : nth_error pages (Z.to_nat (docid / PAGE_SIZE)) = None).
      { apply nth_error_None.
        unfold last, PAGE_SIZE in *. Z.div_mod_to_equations. lia. }
      rewrite Hnone. reflexivity.
  - intros Hout.
    destruct (sqlite_int (docid / PAGE_SIZE)) eqn:Hint; [| reflexivity].
    apply sqlite_int_page in Hint. lia.
Qed.
End ReadingMore.

Lemma get_doc_by_range_witness :
  (exists row filled,
     nth_error (values (open example_db)) (Z.to_nat 2) = Some row /\
     @fill_filename sample_platform row = Returns filled /\
     snd (@get_doc sample_platform (open example_db) 2) = Returns (Some filled)) /\
  snd (@get_doc sample_platform (open example_db) 3) = Raises IndexError /\
  snd (@get_doc sample_platform (open example_db) (-1)) = Returns None /\
  snd (@get_doc sample_platform (open example_db) 512) = Returns None /\
  snd (@get_doc sample_platform (open example_db) (2 ^ 72)) = Raises OverflowError /\
  snd (@get_doc sample_platform (open example_db) (- 2 ^ 72 - 1))
  = Raises OverflowError.
Proof.
  assert (Hbuilt : @create sample_platform example_source = Returns (example_db, 5))
    by (vm_compute; reflexivity).
  assert (Hopen : @reachable sample_platform example_db (open example_db))
    by constructor.
  pose proof (fun docid =>
                @get_doc_by_range sample_platform example_source example_db 5
                  (open example_db) docid Hbuilt Hopen) as H.
  cbv zeta in H. unfold example_source, PAGE_SIZE in H. cbn [length] in H.
  change ((Z.of_nat 3 + 512 - 1) / 512) with 1 in H.
  refine (conj _ (conj _ (conj _ (conj _ (conj _ _))))).
  - apply (proj1 (H 2)). lia.
  - apply (proj1 (proj2 (H 3))). lia.
  - apply (proj1 (proj2 (proj2 (H (-1))))). lia.
  - apply (proj1 (proj2 (proj2 (H 512)))). lia.
  - apply (proj2 (proj2 (proj2 (H (2 ^ 72))))). lia.
  - apply (proj2 (proj2 (proj2 (H (- 2 ^ 72 - 1))))). lia.
Defined.

(** ** The state of a reader *)

Lemma NoDup_firstn {A : Type} (n : nat) (l : list A) :
  NoDup l -> NoDup (firstn n l).
Proof.
  intros H. revert n. induction H as [| x l Hx Hnd IH]; intros [| n]; cbn [firstn];
    try constructor.
  - intros Hin. apply Hx. revert Hin. clear. revert n.
    induction l as [| y l IHl]; intros [| n]; cbn [firstn In]; try tauto.
    intros [H | H]; [left; exact H | right; eapply IHl; exact H].
  - apply IH.
Qed.

Lemma firstn_map_fst {A B : Type} (n : nat) (l : list (A * B)) :
  map fst (firstn n l) = firstn n (map fst l).
Proof.
  revert n. induction l as [| x l IH]; intros [| n]; cbn [firstn map]; try reflexivity.
  rewrite IH. reflexivity.
Qed.

Section ReaderState.
Context {P : Platform}.

Lemma cache_find_none (k : Z) (cache : list (Z * option page)) :
  cache_find k cache = None -> ~ In k (map fst cache).
Proof.
  induction cache as [| [k' v] cache IH]; cbn [cache_find map fst In]; [tauto |].
  destruct (Z.eqb_spec k' k); [discriminate |]. intros H [Heq | Hin]; [congruence |].
  exact (IH H Hin).
Qed.

Lemma cache_remove_keys (k : Z) (cache : list (Z * option page)) :
  map fst (cache_remove k cache) = filter (fun k' => negb (k' =? k)) (map fst cache).
Proof.
  unfold cache_remove. induction cache as [| [k' v] cache IH]; [reflexivity |].
  cbn [filter map fst]. destruct (negb (k' =? k)); cbn [map fst]; rewrite IH; reflexivity.
Qed.

Lemma cache_remove_shorter (k : Z) (v : option page) (cache : list (Z * option page)) :
  cache_find k cache = Some v ->
  (length (cache_remove k cache) < length cache)%nat.
Proof.
  unfold cache_remove.
  induction cache as [| [k' v'] cache IH]; cbn [cache_find filter fst length];
    [discriminate |].
  destruct (Z.eqb_spec k' k) as [-> | Hne]; cbn [negb length].
  - intros _. pose proof (filter_length_le (fun kv => negb (fst kv =? k)) cache). lia.
  - intros H. specialize (IH H). lia.
Qed.

Lemma cache_store_keys (k : Z) (data : page) (cache : list (Z * option page)) :
  map fst (cache_store k data cache) = map fst cache.
Proof.
  unfold cache_store. rewrite map_map. apply map_ext. intros [k' v]. cbn [fst].
  destruct (k' =? k); reflexivity.
Qed.

Lemma get_page_keys (self : reader) (k : Z) :
  (length (page_cache self) <= CACHE_SIZE)%nat ->
  NoDup (map fst (page_cache self)) ->
  (length (page_cache (fst (_get_page self k))) <= CACHE_SIZE)%nat /\
  NoDup (map fst (page_cache (fst (_get_page self k)))) /\
  (sqlite_int k = true ->
   hd_error (map fst (page_cache (fst (_get_page self k)))) = Some k).
Proof.
  intros Hlen Hnd. unfold _get_page.
  destruct (cache_find k (page_cache self)) as [hit |] eqn:E; cbn [fst page_cache].
  - pose proof (cache_remove_shorter k hit _ E). cbn [length map fst hd_error].
    split; [lia |]. split; [| reflexivity].
    constructor.
    + rewrite cache_remove_keys. intros Hin. apply filter_In in Hin as [_ Hin].
      rewrite Z.eqb_refl in Hin. discriminate.
    + rewrite cache_remove_keys. apply NoDup_filter. exact Hnd.
  - unfold read_page. destruct (sqlite_int k); cbn [fst page_cache].
    + split; [apply firstn_le_length |]. split.
      * rewrite firstn_map_fst. apply NoDup_firstn. cbn [map fst].
        constructor; [apply cache_find_none; exact E | exact Hnd].
      * reflexivity.
    + split; [exact Hlen |]. split; [exact Hnd | discriminate].
Qed.

Lemma get_doc_keys (self : reader) (docid : Z) :
  map fst (page_cache (fst (get_doc self docid)))
  = map fst (page_cache (fst (_get_page self (docid / PAGE_SIZE)))).
Proof.
  unfold get_doc. destruct (_get_page self (docid / PAGE_SIZE)) as [self1 data].
  cbn [fst]. destruct data as [[[| r data] |] | e |]; try reflexivity.
  destruct (nth_error (r :: data) _); [| reflexivity].
  destruct (fill_filename _); try reflexivity.
  cbn [fst page_cache]. apply cache_store_keys.
Qed.

Lemma reachable_cache (d : database) (self : reader) :
  reachable d self ->
  (length (page_cache self) <= CACHE_SIZE)%nat /\ NoDup (map fst (page_cache self)).
Proof.
  induction 1 as [| self docid Hreach [IH1 IH2]].
  - cbn. split; [unfold CACHE_SIZE; lia | constructor].
  - destruct (get_page_keys self (docid / PAGE_SIZE) IH1 IH2) as (H1 & H2 & _).
    rewrite <- (length_map fst), get_doc_keys, length_map. split; assumption.
Qed.

(** The cache holds no page id that [sqlite3] does not bind. *)
Lemma reachable_cache_bound (d : database) (self : reader) :
  reachable d self ->
  Forall (fun k => - 2 ^ 63 <= k < 2 ^ 63) (map fst (page_cache self)).
Proof.
  intros Hreach. destruct (reachable_coherent _ _ Hreach) as [_ Hcache].
  apply Forall_map. eapply Forall_impl; [| exact Hcache].
  intros kv [Hint _]. apply sqlite_int_spec. exact Hint.
Qed.

(** [get_doc] of a document id whose page id is not bound raises and
    leaves the reader as it was. *)
Lemma get_doc_unbound (d : database) (self : reader) (docid : Z) :
  reachable d self ->
  sqlite_int (docid / PAGE_SIZE) = false ->
  get_doc self docid = (self, Raises OverflowError).
Proof.
  intros Hreach Hint. unfold get_doc, _get_page.
  destruct (cache_find (docid / PAGE_SIZE) (page_cache self)) as [hit |] eqn:E.
  - exfalso. apply cache_find_in in E.
    pose proof (reachable_cache_bound _ _ Hreach) as Hb.
    rewrite Forall_forall in Hb.
    specialize (Hb _ (in_map fst _ _ E)). cbn [fst] in Hb.
    apply sqlite_int_spec in Hb. congruence.
  - unfold read_page. rewrite Hint. reflexivity.
Qed.

(** X13. The page cache of a reader never holds more than 1000 pages, nor
    two entries for one page id, nor a page id that is no signed 64-bit
    integer. After [get_doc] of a document id from [- 2 ^ 72] to
    [2 ^ 72 - 1] the page of the document is the most recent entry; for
    every other integer [get_doc] raises [OverflowError] and leaves the
    cache as it was. *)
Theorem page_cache_bounded (d : database) (self : reader) (docid : Z) :
  reachable d self ->
  (length (page_cache self) <= 1000)%nat /\
  NoDup (map fst (page_cache self)) /\
  Forall (fun k => - 2 ^ 63 <= k < 2 ^ 63) (map fst (page_cache self)) /\
  (- 2 ^ 72 <= docid < 2 ^ 72 ->
   hd_error (map fst (page_cache (fst (get_doc self docid))))
   = Some (docid / PAGE_SIZE)) /\
  (docid < - 2 ^ 72 \/ 2 ^ 72 <= docid ->
   get_doc self docid = (self, Raises OverflowError)).
Proof.
  intros Hreach. destruct (reachable_cache d self Hreach) as [H1 H2].
  split; [exact H1 |]. split; [exact H2 |].
  split; [exact (reachable_cache_bound d self Hreach) |]. split.
  - intros Hin. rewrite get_doc_keys.
    apply get_page_keys; try assumption. apply sqlite_int_page. exact Hin.
  - intros Hout. apply (get_doc_unbound d); [exact Hreach |].
    destruct (sqlite_int (docid / PAGE_SIZE)) eqn:Hint; [| reflexivity].
    apply sqlite_int_page in Hint. lia.
Qed.

(** X12. A call of [get_doc] changes no answer: after it, on the reader it
    leaves, [get_doc] of every document id and [values], [len], [keys],
    [items] and [__contains__] give what they gave before. *)
Theorem get_doc_changes_no_answer (d : database) (self : reader) (earlier docid : Z)
  (word : string) :
  reachable d self ->
  let self' := fst (get_doc self earlier) in
  snd (get_doc self' docid) = snd (get_doc self docid) /\
  values self' = values self /\
  len self' = len self /\
  keys self' = keys self /\
  items self' = items self /\
  contains self' word = contains self word.
Proof.
  intros Hreach self'.
  assert (Hreach' : reachable d self') by (constructor; exact Hreach).
  pose proof (proj1 (reachable_coherent _ _ Hreach)) as Hdb.
  pose proof (proj1 (reachable_coherent _ _ Hreach')) as Hdb'.
  rewrite !(get_doc_reachable d) by assumption.
  unfold values, len, keys, items, contains. rewrite Hdb, Hdb'.
  repeat split.
Qed.
End ReaderState.

Lemma page_cache_bounded_witness :
  let self := fst (@get_doc sample_platform (open example_db) 1) in
  (length (page_cache self) <= 1000)%nat /\
  NoDup (map fst (page_cache self)) /\
  Forall (fun k => - 2 ^ 63 <= k < 2 ^ 63) (map fst (page_cache self)) /\
  hd_error (map fst (page_cache (fst (@get_doc sample_platform self 700))))
  = Some (700 / PAGE_SIZE) /\
  @get_doc sample_platform self (2 ^ 72) = (self, Raises OverflowError).
Proof.
  intros self.
  assert (Hreach : @reachable sample_platform example_db self)
    by (constructor; constructor).
  destruct (@page_cache_bounded sample_platform example_db self 700 Hreach)
    as (H1 & H2 & H3 & H4 & _).
  destruct (@page_cache_bounded sample_platform example_db self (2 ^ 72) Hreach)
    as (_ & _ & _ & _ & H5).
  refine (conj H1 (conj H2 (conj H3 (conj (H4 _) (H5 _))))); lia.
Defined.

Lemma get_doc_changes_no_answer_witness :
  let self' := fst (@get_doc sample_platform (open example_db) 1) in
  snd (@get_doc sample_platform self' 1)
  = snd (@get_doc sample_platform (open example_db) 1) /\
  values self' = values (open example_db) /\
  len self' = len (open example_db) /\
  keys self' = keys (open example_db) /\
  items self' = items (open example_db) /\
  contains self' "cat" = contains (open example_db) "cat".
Proof.
  apply (@get_doc_changes_no_answer sample_platform example_db (open example_db) 1 1
           "cat").
  constructor.
Defined.

(** ** Documents in and out *)

Section InAndOut.
Context {P : Platform}.

(** X14. The filename mark loses nothing: a document of the source whose
    filename is a string, be it the one its title gives or another, comes
    back from [get_doc], under some id, as it went in, with its score
    appended. *)
Theorem get_doc_returns_source_record (source : list entry) (d : database)
  (indexed : Z) (words : list string) (page_score : Z) (f : string)
  (title : value) (rest : record) :
  create source = Returns (d, indexed) ->
  In (words, page_score, VStr f :: title :: rest) source ->
  exists docid,
    0 <= docid < Z.of_nat (length source) /\
    forall self, reachable d self ->
      snd (get_doc self docid)
      = Returns (Some (VStr f :: title :: rest ++ [VNum page_score])).
Proof.
  intros Hcreate Hin.
  destruct (built_index _ _ _ Hcreate)
    as (kept & emitted & Hkept & Hperm & Hlen & _ & Hread).
  destruct (proj1 (mapM_in _ _ _ Hkept) _ Hin) as (e & He & Hkin).
  cbn [normalize_entry] in He. bind_inv He. injection He as <-.
  destruct (normalize_shape _ _ Ha) as (filename & title' & rest' & f' & Heq & Hf' & Hdata).
  injection Heq as <- <- <-.
  apply (Permutation_in _ (Permutation_sym Hperm)) in Hkin.
  apply In_nth_error in Hkin as [i Hi].
  assert (Hlt : (i < length emitted)%nat) by (apply nth_error_Some; congruence).
  exists (Z.of_nat i). split; [lia |]. intros self Hreach.
  destruct (Hread self Hreach) as (_ & _ & Hdoc).
  destruct (Hdoc (Z.of_nat i) (words, page_score, a) (Nat2Z.is_nonneg i))
    as (row & Hrow & Hget); [rewrite Nat2Z.id; exact Hi |].
  rewrite Hget. do 2 f_equal. cbn [stored snd] in Hrow. subst a.
  cbn [value_eqb] in Hrow. destruct (String.eqb_spec f f') as [-> | Hne].
  - cbn [app fill_filename] in Hrow. rewrite Hf' in Hrow. cbn [bind] in Hrow.
    injection Hrow as <-. reflexivity.
  - cbn [app fill_filename] in Hrow. injection Hrow as <-. reflexivity.
Qed.

(** X15. [values] yields one record for every document of the source, the
    data the order pass kept with the score appended, by descending score
    and, within one score, in the order of the source; for a source that is
    not empty [len] is their number. *)
Theorem values_by_descending_score (source : list entry) (d : database)
  (indexed : Z) (self : reader) :
  create source = Returns (d, indexed) ->
  reachable d self ->
  exists kept emitted,
    mapM normalize_entry source = Returns kept /\
    values self = map (fun e : entry => snd e ++ [VNum (snd (fst e))]) emitted /\
    Permutation emitted kept /\
    StronglySorted (fun a b => snd (fst a) >= snd (fst b)) emitted /\
    (forall score,
       filter (fun e : entry => snd (fst e) =? score) emitted
       = filter (fun e : entry => snd (fst e) =? score) kept) /\
    (source <> [] -> len self = Returns (Z.of_nat (length (values self)))).
Proof.
  intros Hcreate Hreach.
  destruct (create_stages _ _ _ Hcreate)
    as (kept & pages & rows & Hkept & _ & Hdocs & Hpag & Hcat & _).
  pose proof (proj1 (reachable_coherent _ _ Hreach)) as Hdb.
  destruct (emitted_descending_stable kept) as [Hsorted Hstable].
  assert (Hvalues : values self
                    = map (fun e : entry => snd e ++ [VNum (snd (fst e))])
                        (gen_ordered (ordered_fill [] kept))).
  { rewrite (values_rows self pages) by (rewrite Hdb; exact Hdocs).
    rewrite Hcat, map_map. apply map_ext. intros [[w s] data]. reflexivity. }
  exists kept, (gen_ordered (ordered_fill [] kept)).
  split; [exact Hkept |]. split; [exact Hvalues |].
  split; [apply emitted_perm |]. split; [exact Hsorted |]. split; [exact Hstable |].
  intros Hne. rewrite Hvalues, length_map.
  rewrite (len_rows self pages).
  - rewrite Hcat, length_map. reflexivity.
  - rewrite Hdb. exact Hdocs.
  - exact Hpag.
  - intros ->. cbn [concat] in Hcat.
    destruct (gen_ordered (ordered_fill [] kept)) eqn:E; [| discriminate].
    pose proof (Permutation_length (emitted_perm kept)) as Hl. rewrite E in Hl.
    destruct kept; [| discriminate].
    destruct source as [| [[w s] data] source]; [congruence |].
    cbn [mapM normalize_entry] in Hkept. bind_inv Hkept. bind_inv Hkept.
    discriminate.
Qed.

(** X16. A database without a page, as the build of an empty source leaves
    it: [len] and [random] raise [TypeError]; [get_doc] returns [None] for
    every document id from [- 2 ^ 72] to [2 ^ 72 - 1], those whose page id
    [sqlite3] binds, and raises [OverflowError] for every other integer;
    [values], [keys] and [items] are empty. *)
Theorem empty_index (self : reader) (docid : Z) :
  reachable create_database self ->
  create [] = Returns (create_database, 0) /\
  len self = Raises TypeError /\
  random self = Raises TypeError /\
  (- 2 ^ 72 <= docid < 2 ^ 72 -> snd (get_doc self docid) = Returns None) /\
  (docid < - 2 ^ 72 \/ 2 ^ 72 <= docid ->
   snd (get_doc self docid) = Raises OverflowError) /\
  values self = [] /\
  keys self = [] /\
  items self = Returns [].
Proof.
  intros Hreach.
  pose proof (proj1 (reachable_coherent _ _ Hreach)) as Hdb.
  split; [reflexivity |].
  assert (Hlen : len self = Raises TypeError) by (unfold len; rewrite Hdb; reflexivity).
  split; [exact Hlen |].
  split; [unfold random; rewrite Hlen; reflexivity |].
  rewrite (get_doc_reachable _ _ _ Hreach). unfold get_doc_stored, read_page.
  split; [| split].
  - intros Hin. rewrite (proj2 (sqlite_int_page docid) Hin). reflexivity.
  - intros Hout. destruct (sqlite_int (docid / PAGE_SIZE)) eqn:Hint; [| reflexivity].
    apply sqlite_int_page in Hint. lia.
  - unfold values, keys, items. rewrite Hdb. repeat split.
Qed.
End InAndOut.

Lemma get_doc_returns_source_record_witness :
  exists docid,
    0 <= docid < 2 /\
    forall self, @reachable sample_platform derived_db self ->
      snd (@get_doc sample_platform self docid)
      = Returns (Some ([VStr "elsewhere/Dog"; VStr "Dog"; VStr "payload"] ++ [VNum 2])).
Proof.
  apply (@get_doc_returns_source_record sample_platform derived_source derived_db 2
           ["dog"%string] 2 "elsewhere/Dog" (VStr "Dog") [VStr "payload"]).
  - vm_compute. reflexivity.
  - right. left. reflexivity.
Defined.

Lemma values_by_descending_score_witness :
  exists kept emitted,
    mapM (@normalize_entry sample_platform) example_source = Returns kept /\
    values (open example_db)
    = map (fun e : entry => snd e ++ [VNum (snd (fst e))]) emitted /\
    Permutation emitted kept /\
    StronglySorted (fun a b => snd (fst a) >= snd (fst b)) emitted /\
    (forall score,
       filter (fun e : entry => snd (fst e) =? score) emitted
       = filter (fun e : entry => snd (fst e) =? score) kept) /\
    (example_source <> [] ->
     len (open example_db) = Returns (Z.of_nat (length (values (open example_db))))).
Proof.
  apply (@values_by_descending_score sample_platform example_source example_db 5
           (open example_db)).
  - vm_compute. reflexivity.
  - constructor.
Defined.

Lemma empty_index_witness :
  @create sample_platform [] = Returns (create_database, 0) /\
  len (open create_database) = Raises TypeError /\
  @random sample_platform (open create_database) = Raises TypeError /\
  snd (@get_doc sample_platform (open create_database) 0) = Returns None /\
  snd (@get_doc sample_platform (open create_database) (2 ^ 72))
  = Raises OverflowError /\
  values (open create_database) = [] /\
  keys (open create_database) = [] /\
  items (open create_database) = Returns [].
Proof.
  assert (Hopen : @reachable sample_platform create_database (open create_database))
    by constructor.
  destruct (@empty_index sample_platform (open create_database) 0 Hopen)
    as (H1 & H2 & H3 & H4 & _ & H6 & H7 & H8).
  destruct (@empty_index sample_platform (open create_database) (2 ^ 72) Hopen)
    as (_ & _ & _ & _ & H5 & _).
  refine (conj H1 (conj H2 (conj H3 (conj (H4 _) (conj (H5 _) (conj H6 (conj H7 H8)))))));
    lia.
Defined.

(** ** More on [delta_encode], [__len__] and the pages *)

Lemma delta_encode_from_outcome (seq : list Z) :
  forall prev,
    (Sorted Z.le (prev :: seq) -> exists bs, DocSet.delta_encode_from prev seq = Returns bs) /\
    (~ Sorted Z.le (prev :: seq) -> DocSet.delta_encode_from prev seq = Diverges).
Proof.
  induction seq as [| x seq IH]; intros prev.
  - split; [intros _; exists []; reflexivity |].
    intros H. exfalso. apply H. repeat constructor.
  - cbn [DocSet.delta_encode_from]. destruct (IH x) as [IH1 IH2]. split.
    + intros Hs. inversion Hs as [| ? ? Hs' Hhd]; subst.
      inversion Hhd as [| ? ? Hle]; subst.
      destruct (DocSetFacts.varint_returns (x - prev)) as [bs ->]; [lia |].
      destruct (IH1 Hs') as [more ->]. cbn [bind]. eauto.
    + intros Hns. destruct (Z_lt_le_dec x prev) as [Hlt | Hle].
      * rewrite DocSetFacts.varint_negative by lia. reflexivity.
      * destruct (DocSetFacts.varint_returns (x - prev)) as [bs ->]; [lia |].
        cbn [bind]. rewrite IH2; [reflexivity |].
        intros Hs'. apply Hns. constructor; [exact Hs' | constructor; exact Hle].
Qed.

(** X5. [delta_encode] never raises: it returns bytes on the sequences
    that start at 0 or above and never decrease, and on every other
    sequence its inner loop does not terminate. *)
Theorem delta_encode_outcome (seq : list Z) :
  (Sorted Z.le (0 :: seq) -> exists bs, DocSet.delta_encode seq = Returns bs) /\
  (~ Sorted Z.le (0 :: seq) -> DocSet.delta_encode seq = Diverges).
Proof.
  apply delta_encode_from_outcome.
Qed.

(** X18. [__len__] of a DocSet is the number of distinct docids that were
    appended, however many positions each has. *)
Theorem docset_len_distinct_docids (items : list (Z * Z)) :
  DocSet.len (DocSet.appends DocSet.empty items)
  = Z.of_nat (length (nodup Z.eq_dec (map fst items))).
Proof.
  unfold DocSet.len. f_equal.
  rewrite <- (length_map fst). fold (DocSet.docids (DocSet.appends DocSet.empty items)).
  apply Permutation_length, NoDup_Permutation.
  - apply docids_appends_nodup. constructor.
  - apply NoDup_nodup.
  - intros d. rewrite DocSetAppends.in_docids_appends, nodup_In.
    cbn [DocSet.docids DocSet.empty map In]. tauto.
Qed.

Section Pages.
Context {P : Platform}.

Lemma rows_from_pageids (pages : list (list (Z * record))) :
  forall k, map pageid (rows_from k pages)
            = map (fun i => k + Z.of_nat i) (seq 0 (length pages)).
Proof.
  induction pages as [| pg pages IH]; intros k; [reflexivity |].
  cbn [rows_from map pageid length seq]. rewrite IH, <- seq_shift, map_map.
  f_equal; [lia |]. apply map_ext. intros i. lia.
Qed.

Lemma rows_from_shape (pages : list (list (Z * record))) :
  paginated pages ->
  forall k,
    Forall (fun row =>
              length (word_quants row) = length (decompress_data (data row)) /\
              0 < Z.of_nat (length (decompress_data (data row))) <= PAGE_SIZE /\
              (pageid row < k + Z.of_nat (length pages) - 1 ->
               Z.of_nat (length (decompress_data (data row))) = PAGE_SIZE))
      (rows_from k pages).
Proof.
  induction pages as [| pg pages IH]; intros Hpag k; [constructor |].
  cbn [rows_from]. constructor.
  - cbn [word_quants data pageid decompress_data compress_data unblob length].
    rewrite !length_map. split; [reflexivity |].
    destruct pages as [| pg' pages]; cbn [paginated] in Hpag.
    + split; [exact Hpag |]. cbn [length]. lia.
    + destruct Hpag as [Hfull _]. unfold PAGE_SIZE in *. split; [lia |]. intros _. lia.
  - assert (Hpag' : paginated pages) by (destruct pages; [exact I | apply Hpag]).
    eapply Forall_impl; [| apply (IH Hpag' (k + 1))].
    cbn beta. intros row (H1 & H2 & H3). split; [exact H1 |]. split; [exact H2 |].
    intros Hlt. apply H3. cbn [length] in Hlt. lia.
Qed.

(** X17. The docs table of a build of [n] documents: the page ids are
    0, 1, ... up to the last page; every row has one word count for each of
    its records; every page but the last holds [PAGE_SIZE] records and the
    last one between one and [PAGE_SIZE]. *)
Theorem docs_table_is_paged (source : list entry) (d : database) (indexed : Z) :
  create source = Returns (d, indexed) ->
  let n := Z.of_nat (length source) in
  let page_count := (n + PAGE_SIZE - 1) / PAGE_SIZE in
  map pageid (docs d) = map Z.of_nat (seq 0 (Z.to_nat page_count)) /\
  Forall (fun row =>
            length (word_quants row) = length (decompress_data (data row)) /\
            0 < Z.of_nat (length (decompress_data (data row))) <= PAGE_SIZE /\
            (pageid row < page_count - 1 ->
             Z.of_nat (length (decompress_data (data row))) = PAGE_SIZE))
    (docs d).
Proof.
  intros Hcreate n page_count.
  destruct (create_spec _ _ _ Hcreate)
    as (kept & emitted & pages & Hkept & Hperm & Hdocs & Hpag & Hcat & _).
  assert (Hlen : Z.of_nat (length (concat pages)) = n).
  { rewrite Hcat, length_map, (Permutation_length Hperm).
    rewrite (mapM_length _ _ _ Hkept). reflexivity. }
  pose proof (paginated_count pages Hpag) as Hcount. rewrite Hlen in Hcount.
  fold page_count in Hcount. rewrite Hdocs. split.
  - rewrite rows_from_pageids, <- Hcount, Nat2Z.id. reflexivity.
  - pose proof (rows_from_shape pages Hpag 0) as Hshape.
    rewrite Hcount in Hshape. exact Hshape.
Qed.
End Pages.

Lemma docs_table_is_paged_witness :
  map pageid (docs boundary_db) = map Z.of_nat (seq 0 (Z.to_nat 2)) /\
  Forall (fun row =>
            length (word_quants row) = length (decompress_data (data row)) /\
            0 < Z.of_nat (length (decompress_data (data row))) <= PAGE_SIZE /\
            (pageid row < 2 - 1 ->
             Z.of_nat (length (decompress_data (data row))) = PAGE_SIZE))
    (docs boundary_db).
Proof.
  apply (@docs_table_is_paged sample_platform boundary_source boundary_db 513).
  vm_compute. reflexivity.
Defined.

(** ** The further properties on concrete inputs *)

Lemma decode_outcome_witness :
  DocSet.decode (DocSet.Bytes [1; 2; 3]) = Raises ValueError /\
  exists docset, DocSet.decode (DocSet.Bytes [0; 0; 255; 0; 1]) = Returns docset.
Proof.
  split.
  - apply (proj1 (decode_outcome [1; 2; 3])). split.
    + cbn [length]. lia.
    + cbn [In]. unfold DocSet.SEPARATOR. intros [H | [H | [H | []]]]; discriminate H.
  - apply (proj2 (decode_outcome [0; 0; 255; 0; 1])). right.
    right. right. left. reflexivity.
Defined.

Lemma delta_encode_outcome_witness :
  (exists bs, DocSet.delta_encode [3; 3; 303] = Returns bs) /\
  DocSet.delta_encode [3; 2] = Diverges.
Proof.
  split.
  - apply (proj1 (delta_encode_outcome [3; 3; 303])).
    repeat first [apply Sorted_nil | apply Sorted_cons | apply HdRel_nil
                 | apply HdRel_cons | lia].
  - apply (proj2 (delta_encode_outcome [3; 2])). intros H.
    inversion H as [| ? ? H1 _]; subst. inversion H1 as [| ? ? _ H2]; subst.
    inversion H2; subst. lia.
Defined.

Lemma create_outcome_witness :
  (exists d indexed, @create sample_platform example_source = Returns (d, indexed)) /\
  @create sample_platform [ (repeat "w"%string 256, 1, [VNone; VStr "T"]) ]
  = Raises OverflowError /\
  @create sample_platform [ (["w"%string], 1, [VNone; VStr EmptyString]) ] = Raises ValueError.
Proof.
  split; [| split].
  - exact (@create_outcome sample_platform example_source).
  - exact (@create_outcome sample_platform
             [ (repeat "w"%string 256, 1, [VNone; VStr "T"]) ]).
  - exact (@create_outcome sample_platform [ (["w"%string], 1, [VNone; VStr EmptyString]) ]).
Defined.

(** ** The order of the keys *)

Lemma ascii_compare_refl (c : ascii) : Ascii.compare c c = Eq.
Proof.
  unfold Ascii.compare. apply N.compare_refl.
Qed.

Lemma ascii_compare_lt_trans (a b c : ascii) :
  Ascii.compare a b = Lt -> Ascii.compare b c = Lt -> Ascii.compare a c = Lt.
Proof.
  unfold Ascii.compare. rewrite !N.compare_lt_iff. apply N.lt_trans.
Qed.

Lemma string_leb_trans (a b c : string) :
  String.leb a b = true -> String.leb b c = true -> String.leb a c = true.
Proof.
  unfold String.leb. revert b c.
  induction a as [| x a IH]; intros [| y b] [| z c]; cbn [String.compare];
    try discriminate; try reflexivity.
  destruct (Ascii.compare x y) eqn:Hxy; try discriminate;
    destruct (Ascii.compare y z) eqn:Hyz; try discriminate.
  - apply Ascii.compare_eq_iff in Hxy, Hyz. subst.
    rewrite ascii_compare_refl. apply IH.
  - apply Ascii.compare_eq_iff in Hxy. subst. rewrite Hyz. reflexivity.
  - apply Ascii.compare_eq_iff in Hyz. subst. rewrite Hxy. reflexivity.
  - rewrite (ascii_compare_lt_trans _ _ _ Hxy Hyz). reflexivity.
Qed.

Lemma string_leb_ltb (a b : string) :
  String.leb a b = true -> a <> b -> String.ltb a b = true.
Proof.
  unfold String.leb, String.ltb. destruct (String.compare a b) eqn:E;
    try discriminate; try reflexivity.
  intros _ Hne. apply String.compare_eq_iff in E. contradiction.
Qed.

Lemma sorted_strict (l : list string) :
  StronglySorted (fun a b => String.leb a b = true) l ->
  NoDup l ->
  StronglySorted (fun a b => String.ltb a b = true) l.
Proof.
  induction 1 as [| a l Hs IH Ha]; intros Hnd; constructor.
  - apply IH. inversion Hnd; assumption.
  - inversion Hnd as [| ? ? Hout _]; subst.
    rewrite Forall_forall in *. intros b Hb.
    apply string_leb_ltb; [apply Ha; exact Hb |].
    intros ->. contradiction.
Qed.

Section KeysOrder.
Context {P : Platform}.

(** X19. [keys] lists the words of a built index in strictly ascending
    order, character by character; they are the words of [items], which
    come in the order the build met them. *)
Theorem keys_in_word_order (source : list entry) (d : database) (indexed : Z)
  (self : reader) :
  create source = Returns (d, indexed) ->
  reachable d self ->
  StronglySorted (fun a b => String.ltb a b = true) (keys self) /\
  exists kept postings,
    mapM normalize_entry source = Returns kept /\
    items self = Returns postings /\
    Permutation (keys self) (map fst postings) /\
    map fst postings = map fst (index_words [] 0 (gen_ordered (ordered_fill [] kept))).
Proof.
  intros Hcreate Hreach.
  destruct (built_tokens _ _ _ Hcreate)
    as (kept & pages & Hkept & _ & _ & _ & Hdec & Hkeys).
  pose proof (proj1 (reachable_coherent _ _ Hreach)) as Hdb.
  destruct (index_words_keys (gen_ordered (ordered_fill [] kept)) [] 0) as [Hnd _].
  pose proof (sort_perm String.leb (map fst (tokens d))) as Hsort.
  unfold keys, items. rewrite Hdb. split.
  - apply sorted_strict.
    + apply (sort_sorted String.leb String.leb_total string_leb_trans).
    + apply (Permutation_NoDup (Permutation_sym Hsort)).
      rewrite Hkeys. apply Hnd. constructor.
  - exists kept, (as_items (index_words [] 0 (gen_ordered (ordered_fill [] kept)))).
    split; [exact Hkept |]. split; [exact Hdec |].
    assert (Hwords : map fst (as_items (index_words [] 0
                                          (gen_ordered (ordered_fill [] kept))))
                     = map fst (index_words [] 0 (gen_ordered (ordered_fill [] kept)))).
    { unfold as_items. rewrite map_map. reflexivity. }
    rewrite Hwords, <- Hkeys. split; [exact Hsort | reflexivity].
Qed.
End KeysOrder.

Lemma keys_in_word_order_witness :
  StronglySorted (fun a b => String.ltb a b = true) (keys (open example_db)) /\
  exists kept postings,
    mapM (@normalize_entry sample_platform) example_source = Returns kept /\
    items (open example_db) = Returns postings /\
    Permutation (keys (open example_db)) (map fst postings) /\
    map fst postings = map fst (index_words [] 0 (gen_ordered (ordered_fill [] kept))).
Proof.
  apply (@keys_in_word_order sample_platform example_source example_db 5
           (open example_db)).
  - vm_compute. reflexivity.
  - constructor.
Defined.

Example keys_of_example :
  keys (open example_db) = ["bird"; "cat"; "dog"]%string /\
  map fst (tokens example_db) = ["cat"; "dog"; "bird"]%string.
Proof. split; vm_compute; reflexivity. Qed.

(** ** A DocSet through the [docsets] column *)

(** X20. A DocSet of the data model (non-negative docids and positions,
    positions below 255, appended in ascending order under every docid)
    that is written to the [docsets] column through the adapter and read
    back through the converter comes back equal to itself when it holds
    something; the empty DocSet does not come back: its encoding is a text
    of no byte, which the connection reads as [None]. *)
Theorem stored_docset_round_trip (items : list (Z * Z)) :
  natural_pairs items ->
  Forall (fun dp => snd dp < 255) items ->
  (forall d, Sorted Z.le (DocSet.positions_of (DocSet.appends DocSet.empty items) d)) ->
  let x := DocSet.appends DocSet.empty items in
  exists enc,
    DocSet.encode x = Returns enc /\
    (items = [] -> read_docset enc = Returns None) /\
    (items <> [] ->
     exists y,
       read_docset enc = Returns (Some y) /\
       DocSet.eq y x = true /\ DocSet.eq x y = true).
Proof.
  intros Hnat Hall Hsorted x. subst x.
  destruct (decode_encode_appends items Hnat Hall) as (enc & Henc & Hdec).
  exists enc. split; [exact Henc |]. split.
  - intros ->. cbn in Henc. injection Henc as <-. reflexivity.
  - intros Hne.
    destruct (encode_bytes _ _ (DocSetAppends.appends_nonempty items DocSet.empty Hne)
                Henc) as (bs & -> & Hbs).
    exists (DocSet.appends DocSet.empty (sorted_pairs items)). split.
    + unfold read_docset, convert_docset. cbn [column_bytes].
      destruct bs as [| b bs]; [congruence |]. rewrite Hdec. reflexivity.
    + apply sorted_pairs_eq. exact Hsorted.
Qed.

Lemma stored_docset_round_trip_witness :
  (exists enc,
     DocSet.encode (DocSet.appends DocSet.empty []) = Returns enc /\
     read_docset enc = Returns None) /\
  (exists enc y,
     DocSet.encode (DocSet.appends DocSet.empty [(7, 0); (1, 4); (7, 2); (1, 4)])
     = Returns enc /\
     read_docset enc = Returns (Some y) /\
     DocSet.eq y (DocSet.appends DocSet.empty [(7, 0); (1, 4); (7, 2); (1, 4)]) = true /\
     DocSet.eq (DocSet.appends DocSet.empty [(7, 0); (1, 4); (7, 2); (1, 4)]) y = true).
Proof.
  split.
  - destruct (stored_docset_round_trip []) as (enc & Henc & Hnone & _).
    + constructor.
    + constructor.
    + intros d. constructor.
    + exists enc. split; [exact Henc | apply Hnone; reflexivity].
  - destruct (stored_docset_round_trip [(7, 0); (1, 4); (7, 2); (1, 4)])
      as (enc & Henc & _ & Hsome).
    + repeat constructor; simpl; lia.
    + repeat constructor; simpl; lia.
    + intros d. rewrite DocSetAppends.positions_of_appends.
      cbn [DocSet.positions_of DocSet.empty app filter map fst snd].
      destruct (Z.eqb_spec 7 d), (Z.eqb_spec 1 d); try lia; cbn [map snd];
        repeat first [apply Sorted_nil | apply Sorted_cons | apply HdRel_nil
                     | apply HdRel_cons | lia].
    + destruct Hsome as (y & Hy); [discriminate |]. exists enc, y. tauto.
Defined.
